(** * The dependency-injection container of [container/container.go]

    A shallow embedding of the container's registration and resolution
    code, followed by the properties of its behaviour.

    Conventions of the embedding:
    - Go methods on [*container] become state transformers over the record
      [container]; a mutation made before an error return persists, as it
      does in Go.
    - Objects that the Go code reaches through pointers and mutates after
      sharing (provider nodes, group / one-per-scope / scope-dependent
      resolvers) live in typed stores inside the record; a pointer is an
      index into its store.
    - An [error] is its message.  [%v] of a [reflect.Type] is
      [type_String], [%s] of a [Location] is [loc_String].
    - The logger calls ([logf], [indentLogger], [dedentLogger]) only write
      to the logger and are left out. *)

From Stdlib Require Import Ascii String.
From stdpp Require Import base strings gmap list countable.

Set Warnings "-register-all".

(** ** Strings *)

Definition tab : string := String "009"%char "".
Definition newline : string := String "010"%char "".

(** [includes msg s]: the text [s] occurs somewhere inside [msg]. *)
Definition includes (msg s : string) : Prop :=
  ∃ pre post, msg = pre +:+ s +:+ post.

Fixpoint substringb (s msg : string) : bool :=
  String.prefix s msg ||
  match msg with
  | "" => false
  | String _ rest => substringb s rest
  end.

(** ** Runtime types ([reflect.Type]) *)

Inductive rtype : Type :=
  | TNamed (name : string)        (* a defined type, not a map, slice or string *)
  | TString                       (* reflect.TypeOf("") *)
  | TScope                        (* the Scope interface type *)
  | TSlice (elem : rtype)         (* reflect.SliceOf(elem) *)
  | TMap (key elem : rtype).      (* reflect.MapOf(key, elem) *)

Inductive Kind := KString | KInterface | KSlice | KMap | KStruct.

Definition type_Kind (t : rtype) : Kind :=
  match t with
  | TNamed _ => KStruct
  | TString => KString
  | TScope => KInterface
  | TSlice _ => KSlice
  | TMap _ _ => KMap
  end.

Definition scopeType : rtype := TScope.
Definition stringType : rtype := TString.
Definition SliceOf (t : rtype) : rtype := TSlice t.
Definition MapOf (k e : rtype) : rtype := TMap k e.

Fixpoint type_String (t : rtype) : string :=
  match t with
  | TNamed n => n
  | TString => "string"
  | TScope => "container.Scope"
  | TSlice e => "[]" +:+ type_String e
  | TMap k e => "map[" +:+ type_String k +:+ "]" +:+ type_String e
  end.

Global Instance Kind_eq_dec : EqDecision Kind.
Proof. solve_decision. Defined.

Global Instance rtype_eq_dec : EqDecision rtype.
Proof. solve_decision. Defined.

Fixpoint rtype_enc (t : rtype) : gen_tree string :=
  match t with
  | TNamed n => GenLeaf n
  | TString => GenNode 0 []
  | TScope => GenNode 1 []
  | TSlice e => GenNode 2 [rtype_enc e]
  | TMap k e => GenNode 3 [rtype_enc k; rtype_enc e]
  end.

Fixpoint rtype_dec (g : gen_tree string) : rtype :=
  match g with
  | GenLeaf n => TNamed n
  | GenNode 1 [] => TScope
  | GenNode 2 [e] => TSlice (rtype_dec e)
  | GenNode 3 [k; e] => TMap (rtype_dec k) (rtype_dec e)
  | _ => TString
  end.

Lemma rtype_dec_enc (t : rtype) : rtype_dec (rtype_enc t) = t.
Proof. induction t; simpl; congruence. Qed.

Global Instance rtype_countable : Countable rtype :=
  inj_countable' rtype_enc rtype_dec rtype_dec_enc.

(** ** Locations, scopes, values *)

(** Modelled from the spec: [Location] (its declaration is not in
    [container.go]) is a human-readable identity of a provider, a function
    name together with a source position, equal by value. *)
Record Location := { loc_name : string; loc_position : string }.

Definition loc_Name (l : Location) : string := loc_name l.
Definition loc_String (l : Location) : string :=
  loc_name l +:+ " (" +:+ loc_position l +:+ ")".

Global Instance Location_eq_dec : EqDecision Location.
Proof. solve_decision. Defined.

Definition Location_enc (l : Location) : string * string :=
  (loc_name l, loc_position l).
Definition Location_dec (p : string * string) : Location :=
  {| loc_name := p.1; loc_position := p.2 |}.
Lemma Location_dec_enc (l : Location) : Location_dec (Location_enc l) = l.
Proof. by destruct l. Qed.

Global Instance Location_countable : Countable Location :=
  inj_countable' Location_enc Location_dec Location_dec_enc.

(** Modelled from the spec: a [Scope] is an opaque object with a string
    name, equal by identity; [scope_addr] is the identity of the object. *)
Record Scope := { scope_addr : nat; scope_Name : string }.

Global Instance Scope_eq_dec : EqDecision Scope.
Proof. solve_decision. Defined.

Definition Scope_enc (s : Scope) : nat * string := (scope_addr s, scope_Name s).
Definition Scope_dec (p : nat * string) : Scope :=
  {| scope_addr := p.1; scope_Name := p.2 |}.
Lemma Scope_dec_enc (s : Scope) : Scope_dec (Scope_enc s) = s.
Proof. by destruct s. Qed.

Global Instance Scope_countable : Countable Scope :=
  inj_countable' Scope_enc Scope_dec Scope_dec_enc.

(** [reflect.Value]: an opaque carrier of a runtime value and its type. *)
Inductive Value : Type :=
  | VZero (t : rtype)                          (* reflect.Zero(t) *)
  | VScope (s : Scope)                         (* reflect.ValueOf(scope) *)
  | VUser (t : rtype) (payload : string)       (* a value made by user code *)
  | VSlice (t : rtype) (elems : list Value)
  | VMap (t : rtype) (entries : list (string * Value)).

Definition error : Type := string.

(** [v.Type()] *)
Definition value_Type (v : Value) : rtype :=
  match v with
  | VZero t | VUser t _ | VSlice t _ | VMap t _ => t
  | VScope _ => TNamed "*container.scope"   (* the dynamic type of a scope object *)
  end.

(** How a Go call can end: a normal return, an error return, a run-time
    panic, or (for the fuelled recursion below) fuel running out. *)
Inductive outcome (A : Type) : Type :=
  | Ret (a : A)
  | Fail (e : error)
  | Panic (msg : string)
  | Starved.
Arguments Ret {A} a.
Arguments Fail {A} e.
Arguments Panic {A} msg.
Arguments Starved {A}.


(** ** Provider descriptors *)

(** Modelled from the spec: [ProviderInput], [ProviderOutput] and
    [ProviderDescriptor] are declared outside [container.go], which uses
    their fields [in.Type], [in.Optional], [out.Type],
    [constructor.Inputs], [.Outputs], [.Fn] and [.Location].  [Fn] returns
    the Go pair (outputs, error). *)

Record ProviderInput := { in_Type : rtype; in_Optional : bool }.
Record ProviderOutput := { out_Type : rtype }.

Record ProviderDescriptor := {
  Inputs : list ProviderInput;
  Outputs : list ProviderOutput;
  Fn : list Value → list Value * option error;
  pd_Location : Location;
}.

(** ** Provider nodes and resolvers

    These structs are declared outside [container.go].  The struct
    literals of [addNode] and [supply] fix the fields named in them; the
    remaining fields follow the data model of the specification. *)

(** Modelled from the spec: the node
    [&simpleProvider{provider: constructor, scope: scope}], with the flag
    and the cache of a provider that is called at most once. *)
Record simpleProvider := {
  sp_provider : ProviderDescriptor;
  sp_scope : option Scope;
  sp_called : bool;
  sp_values : list Value;
}.

(** Modelled from the spec: the node
    [&scopeDepProvider{provider, calledForScope, valueMap}], called once
    per scope. *)
Record scopeDepProvider := {
  sdp_provider : ProviderDescriptor;
  sdp_calledForScope : gmap Scope bool;
  sdp_valueMap : gmap Scope (list Value);
}.

(** Modelled from the spec: [&groupResolver{typ, sliceType}];
    [gr_providers] pairs each provider node with the index of its output. *)
Record groupResolver := {
  gr_typ : rtype;
  gr_sliceType : rtype;
  gr_providers : list (nat * nat);
}.

(** Modelled from the spec:
    [&onePerScopeResolver{typ, mapType, providers, idxMap}]. *)
Record onePerScopeResolver := {
  ops_typ : rtype;
  ops_mapType : rtype;
  ops_providers : gmap Scope nat;
  ops_idxMap : gmap Scope nat;
}.

(** Modelled from the spec:
    [&scopeDepResolver{typ, idxInValues, node, valueMap}]. *)
Record scopeDepResolver := {
  sdr_typ : rtype;
  sdr_idxInValues : nat;
  sdr_node : nat;
  sdr_valueMap : gmap Scope Value;
}.

(** Modelled from the spec: the implementations of the [resolver]
    interface, as the values stored in [c.resolvers].  Resolvers with
    mutable state are pointers into the stores; [sliceGroupResolver{r}]
    and [mapOfOnePerScopeResolver{r}] share the pointer [r] with the entry
    of the element type. *)
Inductive resolver : Type :=
  | SimpleResolver (node : nat) (idxInValues : nat) (typ : rtype)
  | GroupResolver (r : nat)
  | SliceGroupResolver (r : nat)
  | OnePerScopeResolver (r : nat)
  | MapOfOnePerScopeResolver (r : nat)
  | ScopeDepResolver (r : nat)
  | SupplyResolver (typ : rtype) (value : Value) (loc : Location).

(** What [addNode] returns as [interface{}]: one of the two node pointers. *)
Inductive node_ref : Type :=
  | SimpleProviderRef (p : nat)
  | ScopeDepProviderRef (p : nat).

(** The objects allocated by the container's code; [scopesMade] counts
    the scope objects made so far and gives the next one its identity. *)
Record objects := {
  simpleProviders : list simpleProvider;
  scopeDepProviders : list scopeDepProvider;
  groupResolvers : list groupResolver;
  onePerScopeResolvers : list onePerScopeResolver;
  scopeDepResolvers : list scopeDepResolver;
  scopesMade : nat;
}.

Definition no_objects : objects :=
  {| simpleProviders := []; scopeDepProviders := []; groupResolvers := [];
     onePerScopeResolvers := []; scopeDepResolvers := []; scopesMade := 0 |}.

(** ** Collaborators outside [container.go]

    The diagnostic graph ([locationGraphNode], [typeGraphNode],
    [addGraphEdge] and the cgraph node setters), the two type classifiers,
    [describeLocation] of the resolver interface and
    [ExtractProviderDescriptor] are declared elsewhere; the container code
    is verified against any implementation of them.  A graph lookup may
    return an error, as its Go signature allows. *)
Class Collaborators := {
  graph : Type;
  gnode : Type;
  invoker : Type;
  graph_locationNode : Location → option Scope → graph → graph * (gnode + error);
  graph_typeNode : rtype → graph → graph * (gnode + error);
  graph_addEdge : gnode → gnode → graph → graph;
  node_SetColor : gnode → string → graph → graph;
  node_SetComment : gnode → string → graph → graph;
  isAutoGroupType : rtype → bool;
  isOnePerScopeType : rtype → bool;
  describeLocation : objects → resolver → string;
  ExtractProviderDescriptor : invoker → ProviderDescriptor + error;
}.

Section Container.
Context {collab : Collaborators}.

Record resolveFrame := { rf_loc : Location; rf_typ : rtype }.

(** [type container struct]; [config] carries the diagnostic graph, and
    [heap] holds the objects the maps point to. *)
Record container := {
  config : graph;
  resolvers : gmap rtype resolver;
  scopes : gmap string Scope;
  resolveStack : list resolveFrame;
  callerStack : list Location;
  callerMap : gmap Location bool;
  heap : objects;
}.

(** [newContainer(cfg)] *)
Definition newContainer (cfg : graph) : container :=
  {| config := cfg; resolvers := ∅; scopes := ∅; resolveStack := [];
     callerStack := []; callerMap := ∅; heap := no_objects |}.


(** *** Field updates *)

Definition with_config (g : graph) (c : container) : container :=
  {| config := g; resolvers := resolvers c; scopes := scopes c;
     resolveStack := resolveStack c; callerStack := callerStack c;
     callerMap := callerMap c; heap := heap c |}.
Definition with_resolvers (r : gmap rtype resolver) (c : container) : container :=
  {| config := config c; resolvers := r; scopes := scopes c;
     resolveStack := resolveStack c; callerStack := callerStack c;
     callerMap := callerMap c; heap := heap c |}.
Definition with_scopes (m : gmap string Scope) (c : container) : container :=
  {| config := config c; resolvers := resolvers c; scopes := m;
     resolveStack := resolveStack c; callerStack := callerStack c;
     callerMap := callerMap c; heap := heap c |}.
Definition with_resolveStack (l : list resolveFrame) (c : container) : container :=
  {| config := config c; resolvers := resolvers c; scopes := scopes c;
     resolveStack := l; callerStack := callerStack c;
     callerMap := callerMap c; heap := heap c |}.
Definition with_callerStack (l : list Location) (c : container) : container :=
  {| config := config c; resolvers := resolvers c; scopes := scopes c;
     resolveStack := resolveStack c; callerStack := l;
     callerMap := callerMap c; heap := heap c |}.
Definition with_callerMap (m : gmap Location bool) (c : container) : container :=
  {| config := config c; resolvers := resolvers c; scopes := scopes c;
     resolveStack := resolveStack c; callerStack := callerStack c;
     callerMap := m; heap := heap c |}.
Definition with_heap (h : objects) (c : container) : container :=
  {| config := config c; resolvers := resolvers c; scopes := scopes c;
     resolveStack := resolveStack c; callerStack := callerStack c;
     callerMap := callerMap c; heap := h |}.

Definition with_simpleProviders (l : list simpleProvider) (h : objects) : objects :=
  {| simpleProviders := l; scopeDepProviders := scopeDepProviders h;
     groupResolvers := groupResolvers h;
     onePerScopeResolvers := onePerScopeResolvers h;
     scopeDepResolvers := scopeDepResolvers h; scopesMade := scopesMade h |}.
Definition with_scopeDepProviders (l : list scopeDepProvider) (h : objects) : objects :=
  {| simpleProviders := simpleProviders h; scopeDepProviders := l;
     groupResolvers := groupResolvers h;
     onePerScopeResolvers := onePerScopeResolvers h;
     scopeDepResolvers := scopeDepResolvers h; scopesMade := scopesMade h |}.
Definition with_groupResolvers (l : list groupResolver) (h : objects) : objects :=
  {| simpleProviders := simpleProviders h;
     scopeDepProviders := scopeDepProviders h; groupResolvers := l;
     onePerScopeResolvers := onePerScopeResolvers h;
     scopeDepResolvers := scopeDepResolvers h; scopesMade := scopesMade h |}.
Definition with_onePerScopeResolvers (l : list onePerScopeResolver) (h : objects) : objects :=
  {| simpleProviders := simpleProviders h;
     scopeDepProviders := scopeDepProviders h;
     groupResolvers := groupResolvers h; onePerScopeResolvers := l;
     scopeDepResolvers := scopeDepResolvers h; scopesMade := scopesMade h |}.
Definition with_scopeDepResolvers (l : list scopeDepResolver) (h : objects) : objects :=
  {| simpleProviders := simpleProviders h;
     scopeDepProviders := scopeDepProviders h;
     groupResolvers := groupResolvers h;
     onePerScopeResolvers := onePerScopeResolvers h;
     scopeDepResolvers := l; scopesMade := scopesMade h |}.
Definition with_scopesMade (n : nat) (h : objects) : objects :=
  {| simpleProviders := simpleProviders h;
     scopeDepProviders := scopeDepProviders h;
     groupResolvers := groupResolvers h;
     onePerScopeResolvers := onePerScopeResolvers h;
     scopeDepResolvers := scopeDepResolvers h; scopesMade := n |}.

(** *** The monad of container methods *)

Definition M (A : Type) : Type := container → container * outcome A.

Definition ret {A} (a : A) : M A := λ c, (c, Ret a).
Definition fail {A} (e : error) : M A := λ c, (c, Fail e).
Definition panic {A} (msg : string) : M A := λ c, (c, Panic msg).
Definition starved {A} : M A := λ c, (c, Starved).

Definition bind {A B} (m : M A) (k : A → M B) : M B :=
  λ c, match m c with
       | (c', Ret a) => k a c'
       | (c', Fail e) => (c', Fail e)
       | (c', Panic msg) => (c', Panic msg)
       | (c', Starved) => (c', Starved)
       end.

Definition gets {A} (f : container → A) : M A := λ c, (c, Ret (f c)).
Definition modify (f : container → container) : M unit := λ c, (f c, Ret tt).

(** [if err != nil { handler; return err }] around a call. *)
Definition on_error {A} (m : M A) (handler : M unit) : M A :=
  λ c, match m c with
       | (c', Fail e) => bind handler (λ _, fail e) c'
       | r => r
       end.

Notation "x <~ m ;; k" := (bind m (λ x, k))
  (at level 100, m at next level, right associativity).
Notation "m ;;; k" := (bind m (λ _, k))
  (at level 100, right associativity).

(** *** Diagnostic graph hooks, as methods of the container *)

Definition lift_graph (f : graph → graph * (gnode + error)) : M gnode :=
  λ c, match f (config c) with
       | (g, inl n) => (with_config g c, Ret n)
       | (g, inr e) => (with_config g c, Fail e)
       end.

Definition locationGraphNode (loc : Location) (scope : option Scope) : M gnode :=
  lift_graph (graph_locationNode loc scope).
Definition typeGraphNode (typ : rtype) : M gnode :=
  lift_graph (graph_typeNode typ).
Definition addGraphEdge (from to : gnode) : M unit :=
  modify (λ c, with_config (graph_addEdge from to (config c)) c).
Definition SetComment (node : gnode) (s : string) : M unit :=
  modify (λ c, with_config (node_SetComment node s (config c)) c).

(** [markGraphNodeAsUsed], [markGraphNodeAsFailed] *)
Definition markGraphNodeAsUsed (node : gnode) : M unit :=
  modify (λ c, with_config (node_SetColor node "black" (config c)) c).
Definition markGraphNodeAsFailed (node : gnode) : M unit :=
  modify (λ c, with_config (node_SetColor node "red" (config c)) c).

(** One line of [formatResolveStack]:
    [Fprintf(buf, "\t\t%v for %s\n", rk.typ, rk.loc)]. *)
Definition frame_line (rk : resolveFrame) : string :=
  tab +:+ tab +:+ type_String (rf_typ rk) +:+ " for "
    +:+ loc_String (rf_loc rk) +:+ newline.

(** [formatResolveStack]: the loop runs from index [n-1] down to [0]. *)
Definition formatResolveStack (c : container) : string :=
  foldl (λ buf rk, buf +:+ frame_line rk)
        (tab +:+ "while resolving:" +:+ newline)
        (reverse (resolveStack c)).

(** Modelled from the spec: [newScope] is not in [container.go]; it makes
    a new scope object with the given name.  The new object's identity is
    the number of scope objects made before it. *)
Definition newScope (name : string) : M Scope :=
  λ c, let h := heap c in
       (with_heap (with_scopesMade (S (scopesMade h)) h) c,
        Ret {| scope_addr := scopesMade h; scope_Name := name |}).

(** [createOrGetScope].  The receiver is passed by value, but [c.scopes]
    is a Go map: the copy shares it with the container, so the insertion
    is visible to later calls. *)
Definition createOrGetScope (name : string) : M Scope :=
  scs <~ gets scopes ;;
  match scs !! name with
  | Some s => ret s
  | None =>
      s <~ newScope name ;;
      modify (λ c, with_scopes (<[name := s]> (scopes c)) c) ;;;
      ret s
  end.

(** Modelled from the spec: [duplicateDefinitionError] is not in
    [container.go]; a duplicate-provision error names the type and both
    locations. *)
Definition duplicateDefinitionError (typ : rtype) (duplicateLoc : Location)
    (existingLoc : string) : error :=
  "duplicate provision of type " +:+ type_String typ +:+ " by "
    +:+ loc_String duplicateLoc +:+ newline +:+ tab
    +:+ "already provided by " +:+ existingLoc.

(** [supply] *)
Definition supply (value : Value) (location : Location) : M unit :=
  let typ := value_Type value in
  locGrapNode <~ locationGraphNode location None ;;
  markGraphNodeAsUsed locGrapNode ;;;
  typeGraphNode <~ typeGraphNode typ ;;
  addGraphEdge locGrapNode typeGraphNode ;;;
  rs <~ gets resolvers ;;
  h <~ gets heap ;;
  match rs !! typ with
  | Some existing =>
      fail (duplicateDefinitionError typ location (describeLocation h existing))
  | None =>
      modify (λ c, with_resolvers (<[typ := SupplyResolver typ value location]> (resolvers c)) c)
  end.


(** *** Methods of the provider nodes and of the resolver interface

    Their bodies are in other files of the package; they are given here
    as the specification describes them (sections 4.3 and 4.4). *)

Definition nil_deref : string := "invalid memory address or nil pointer dereference".
Definition index_range : string := "index out of range".

Definition heap_modify (f : objects → objects) : M unit :=
  modify (λ c, with_heap (f (heap c)) c).

(** [values[i]] *)
Definition index_values (values : list Value) (i : nat) : M Value :=
  match values !! i with
  | Some v => ret v
  | None => panic index_range
  end.

(** Modelled from the spec: [simpleProvider.resolveValues] calls the
    provider once, caches all its outputs, and returns the cached outputs
    afterwards. *)
Definition simpleProvider_resolveValues
    (callf : ProviderDescriptor → option Scope → M (list Value))
    (p : nat) : M (list Value) :=
  h <~ gets heap ;;
  match simpleProviders h !! p with
  | None => panic nil_deref
  | Some s =>
      if sp_called s then ret (sp_values s)
      else
        values <~ callf (sp_provider s) (sp_scope s) ;;
        heap_modify (λ h, with_simpleProviders
          (<[p := {| sp_provider := sp_provider s; sp_scope := sp_scope s;
                     sp_called := true; sp_values := values |}]>
             (simpleProviders h)) h) ;;;
        ret values
  end.

(** Modelled from the spec: the type a resolver was registered for, used
    in duplicate-provision messages. *)
Definition resolver_typ (h : objects) (vr : resolver) : rtype :=
  match vr with
  | SimpleResolver _ _ typ | SupplyResolver typ _ _ => typ
  | GroupResolver r => default TString (gr_typ <$> groupResolvers h !! r)
  | SliceGroupResolver r => default TString (gr_sliceType <$> groupResolvers h !! r)
  | OnePerScopeResolver r => default TString (ops_typ <$> onePerScopeResolvers h !! r)
  | MapOfOnePerScopeResolver r =>
      default TString (ops_mapType <$> onePerScopeResolvers h !! r)
  | ScopeDepResolver r => default TString (sdr_typ <$> scopeDepResolvers h !! r)
  end.

(** Modelled from the spec: [groupResolver.addNode] appends the provider
    to the group's node list. *)
Definition groupResolver_addNode (r node i : nat) : M unit :=
  h <~ gets heap ;;
  match groupResolvers h !! r with
  | None => panic nil_deref
  | Some g =>
      heap_modify (λ h, with_groupResolvers
        (<[r := {| gr_typ := gr_typ g; gr_sliceType := gr_sliceType g;
                   gr_providers := gr_providers g ++ [(node, i)] |}]>
           (groupResolvers h)) h)
  end.

(** Modelled from the spec: [onePerScopeResolver.addNode] files the
    provider under its scope key and fails if that scope already has a
    provider for the type.  A provider without a scope has no key to be
    filed under and is refused. *)
Definition onePerScopeResolver_addNode (r node i : nat) : M unit :=
  h <~ gets heap ;;
  match onePerScopeResolvers h !! r, simpleProviders h !! node with
  | Some o, Some n =>
      match sp_scope n with
      | None =>
          fail ("cannot define a constructor with one-per-scope dependency "
                  +:+ type_String (ops_typ o) +:+ " which isn't provided in a scope")
      | Some sc =>
          match ops_providers o !! sc with
          | Some _ =>
              fail ("duplicate provision for one-per-scope type "
                      +:+ type_String (ops_typ o) +:+ " in scope " +:+ scope_Name sc)
          | None =>
              heap_modify (λ h, with_onePerScopeResolvers
                (<[r := {| ops_typ := ops_typ o; ops_mapType := ops_mapType o;
                           ops_providers := <[sc := node]> (ops_providers o);
                           ops_idxMap := <[sc := i]> (ops_idxMap o) |}]>
                   (onePerScopeResolvers h)) h)
          end
      end
  | _, _ => panic nil_deref
  end.

(** Modelled from the spec: [resolver.addNode] (section 4.3): a group or
    one-per-scope resolver takes the provider in, every other resolver
    answers with a duplicate-provision error. *)
Definition resolver_addNode (vr : resolver) (node i : nat) : M unit :=
  match vr with
  | GroupResolver r => groupResolver_addNode r node i
  | OnePerScopeResolver r => onePerScopeResolver_addNode r node i
  | _ =>
      h <~ gets heap ;;
      match simpleProviders h !! node with
      | None => panic nil_deref
      | Some n =>
          fail (duplicateDefinitionError (resolver_typ h vr)
                  (pd_Location (sp_provider n)) (describeLocation h vr))
      end
  end.

Section Resolving.
(** The provider invocation the resolvers call back into ([c.call]). *)
Variable callf : ProviderDescriptor → option Scope → M (list Value).

(** Modelled from the spec: the slice form of a group calls each provider
    in registration order; a slice output is spread into the result, any
    other output is appended. *)
Fixpoint sliceGroup_collect (providers : list (nat * nat)) (res : list Value)
    : M (list Value) :=
  match providers with
  | [] => ret res
  | (node, i) :: rest =>
      values <~ simpleProvider_resolveValues callf node ;;
      value <~ index_values values i ;;
      match value with
      | VSlice _ elems => sliceGroup_collect rest (res ++ elems)
      | VZero (TSlice _) => sliceGroup_collect rest res
      | _ => sliceGroup_collect rest (res ++ [value])
      end
  end.

(** Modelled from the spec: the map form of a one-per-scope resolver calls
    each per-scope provider and maps the scope's name to its value. *)
Fixpoint mapOfOnePerScope_collect (providers : list (Scope * nat))
    (idxMap : gmap Scope nat) (res : list (string * Value))
    : M (list (string * Value)) :=
  match providers with
  | [] => ret res
  | (sc, node) :: rest =>
      values <~ simpleProvider_resolveValues callf node ;;
      match idxMap !! sc with
      | None => panic index_range
      | Some i =>
          value <~ index_values values i ;;
          mapOfOnePerScope_collect rest idxMap (res ++ [(scope_Name sc, value)])
      end
  end.

(** Modelled from the spec: [scopeDepResolver.resolve] fails outside any
    scope, calls the provider once per scope and caches its outputs under
    the scope. *)
Definition scopeDepResolver_resolve (r : nat) (scope : option Scope) : M Value :=
  match scope with
  | None => fail "scoped dependency requested outside any scope"
  | Some sc =>
      h <~ gets heap ;;
      match scopeDepResolvers h !! r with
      | None => panic nil_deref
      | Some s =>
          match scopeDepProviders h !! sdr_node s with
          | None => panic nil_deref
          | Some n =>
              values <~
                (if default false (sdp_calledForScope n !! sc)
                 then ret (default [] (sdp_valueMap n !! sc))
                 else
                   values <~ callf (sdp_provider n) (Some sc) ;;
                   heap_modify (λ h, with_scopeDepProviders
                     (<[sdr_node s :=
                          {| sdp_provider := sdp_provider n;
                             sdp_calledForScope := <[sc := true]> (sdp_calledForScope n);
                             sdp_valueMap := <[sc := values]> (sdp_valueMap n) |}]>
                        (scopeDepProviders h)) h) ;;;
                   ret values) ;;
              value <~ index_values values (sdr_idxInValues s) ;;
              heap_modify (λ h, with_scopeDepResolvers
                (<[r := {| sdr_typ := sdr_typ s; sdr_idxInValues := sdr_idxInValues s;
                           sdr_node := sdr_node s;
                           sdr_valueMap := <[sc := value]> (sdr_valueMap s) |}]>
                   (scopeDepResolvers h)) h) ;;;
              ret value
          end
      end
  end.

(** Modelled from the spec: [resolver.resolve] (section 4.4). *)
Definition resolver_resolve (vr : resolver) (scope : option Scope)
    (caller : Location) : M Value :=
  match vr with
  | SupplyResolver _ value _ => ret value
  | SimpleResolver node idxInValues _ =>
      values <~ simpleProvider_resolveValues callf node ;;
      index_values values idxInValues
  | GroupResolver r =>
      h <~ gets heap ;;
      match groupResolvers h !! r with
      | None => panic nil_deref
      | Some g =>
          fail (type_String (gr_typ g)
                  +:+ " is an auto-group type and cannot be used as an input value, instead use "
                  +:+ type_String (gr_sliceType g))
      end
  | SliceGroupResolver r =>
      h <~ gets heap ;;
      match groupResolvers h !! r with
      | None => panic nil_deref
      | Some g =>
          res <~ sliceGroup_collect (gr_providers g) [] ;;
          ret (VSlice (gr_sliceType g) res)
      end
  | OnePerScopeResolver r =>
      h <~ gets heap ;;
      match onePerScopeResolvers h !! r with
      | None => panic nil_deref
      | Some o =>
          fail (type_String (ops_typ o)
                  +:+ " is a one-per-scope type and cannot be used as an input value, instead use "
                  +:+ type_String (ops_mapType o))
      end
  | MapOfOnePerScopeResolver r =>
      h <~ gets heap ;;
      match onePerScopeResolvers h !! r with
      | None => panic nil_deref
      | Some o =>
          res <~ mapOfOnePerScope_collect (map_to_list (ops_providers o))
                   (ops_idxMap o) [] ;;
          ret (VMap (ops_mapType o) res)
      end
  | ScopeDepResolver r => scopeDepResolver_resolve r scope
  end.

(** [c.resolveStack[:len(c.resolveStack)-1]] and its twin on
    [callerStack]: slicing an empty slice to length -1 panics. *)
Definition drop_last {A} (l : list A) : outcome (list A) :=
  match l with
  | [] => Panic "slice bounds out of range [:-1]"
  | _ => Ret (take (length l - 1) l)
  end.

(** [resolve] *)
Definition resolve_with (in_ : ProviderInput) (scope : option Scope)
    (caller : Location) : M Value :=
  modify (λ c, with_resolveStack
    (resolveStack c ++ [{| rf_loc := caller; rf_typ := in_Type in_ |}]) c) ;;;
  typeGraphNode <~ typeGraphNode (in_Type in_) ;;
  if decide (in_Type in_ = scopeType) then
    match scope with
    | None =>
        fail ("trying to resolve <nil> for " +:+ loc_String caller
                +:+ " but not inside of any scope")
    | Some sc =>
        markGraphNodeAsUsed typeGraphNode ;;;
        ret (VScope sc)
    end
  else
    rs <~ gets resolvers ;;
    match rs !! in_Type in_ with
    | None =>
        if in_Optional in_ then ret (VZero (in_Type in_))
        else
          markGraphNodeAsFailed typeGraphNode ;;;
          c <~ gets id ;;
          fail ("can't resolve type " +:+ type_String (in_Type in_) +:+ " for "
                  +:+ loc_String caller +:+ ":" +:+ newline
                  +:+ formatResolveStack c)
    | Some vr =>
        res <~ on_error (resolver_resolve vr scope caller)
                 (markGraphNodeAsFailed typeGraphNode) ;;
        markGraphNodeAsUsed typeGraphNode ;;;
        st <~ gets resolveStack ;;
        match drop_last st with
        | Ret st' =>
            modify (with_resolveStack st') ;;;
            ret res
        | _ => panic "slice bounds out of range [:-1]"
        end
    end.

End Resolving.

Section Calling.
(** The input resolution the provider invocation calls into ([c.resolve]). *)
Variable resolvef : ProviderInput → option Scope → Location → M Value.

(** The loop of [call] over [constructor.Inputs]: the first error returns. *)
Fixpoint call_inputs (ins : list ProviderInput) (scope : option Scope)
    (loc : Location) : M (list Value) :=
  match ins with
  | [] => ret []
  | in_ :: rest =>
      val <~ resolvef in_ scope loc ;;
      vals <~ call_inputs rest scope loc ;;
      ret (val :: vals)
  end.

(** [call] *)
Definition call_with (constructor : ProviderDescriptor) (scope : option Scope)
    : M (list Value) :=
  let loc := pd_Location constructor in
  graphNode <~ locationGraphNode loc scope ;;
  markGraphNodeAsFailed graphNode ;;;
  cm <~ gets callerMap ;;
  if default false (cm !! loc) then
    fail ("cyclic dependency: " +:+ loc_Name loc +:+ " -> " +:+ loc_Name loc)
  else
    modify (λ c, with_callerMap (<[loc := true]> (callerMap c)) c) ;;;
    modify (λ c, with_callerStack (callerStack c ++ [loc]) c) ;;;
    inVals <~ call_inputs (Inputs constructor) scope loc ;;
    modify (λ c, with_callerMap (delete loc (callerMap c)) c) ;;;
    cs <~ gets callerStack ;;
    match drop_last cs with
    | Ret cs' =>
        modify (with_callerStack cs') ;;;
        match Fn constructor inVals with
        | (_, Some err) =>
            fail ("error calling constructor " +:+ loc_String loc +:+ ": " +:+ err)
        | (out, None) =>
            markGraphNodeAsUsed graphNode ;;;
            ret out
        end
    | _ => panic "slice bounds out of range [:-1]"
    end.

End Calling.

(** [resolve] and [call] call each other through the resolvers; [fuel]
    bounds the depth of provider invocations.  Fuel is only consumed when
    a resolver invokes a provider. *)
Fixpoint resolve (fuel : nat) (in_ : ProviderInput) (scope : option Scope)
    (caller : Location) : M Value :=
  resolve_with
    (λ constructor sc,
       match fuel with
       | O => starved
       | S fuel' => call_with (resolve fuel') constructor sc
       end)
    in_ scope caller.

Definition call (fuel : nat) : ProviderDescriptor → option Scope → M (list Value) :=
  call_with (resolve fuel).


(** *** Registration *)

(** The first loop of [addNode]: note a scope input, and link every input
    type to the provider in the graph. *)
Fixpoint addNode_inputs (constructorGraphNode : gnode) (ins : list ProviderInput)
    (hasScopeParam : bool) : M bool :=
  match ins with
  | [] => ret hasScopeParam
  | in_ :: rest =>
      let hasScopeParam :=
        if decide (in_Type in_ = scopeType) then true else hasScopeParam in
      typeGraphNode <~ typeGraphNode (in_Type in_) ;;
      addGraphEdge typeGraphNode constructorGraphNode ;;;
      addNode_inputs constructorGraphNode rest hasScopeParam
  end.

(** [typ.Kind() == reflect.Map && isOnePerScopeType(typ.Elem()) &&
     typ.Key().Kind() == reflect.String] *)
Definition isOnePerScopeMap (typ : rtype) : bool :=
  match typ with
  | TMap key elem => isOnePerScopeType elem && bool_decide (type_Kind key = KString)
  | _ => false
  end.

(** [if typ.Kind() == reflect.Slice && isAutoGroupType(typ.Elem())
     { typ = typ.Elem() }] *)
Definition unwrapAutoGroupSlice (typ : rtype) : rtype :=
  match typ with
  | TSlice elem => if isAutoGroupType elem then elem else typ
  | _ => typ
  end.

Definition returnTypeError (typ : rtype) : error :=
  match typ with
  | TMap _ elem =>
      type_String typ +:+ " cannot be used as a return type because "
        +:+ type_String elem +:+ " is a one-per-scope type"
  | _ => type_String typ +:+ " cannot be used as a return type"
  end.

(** Allocation of the objects behind the [&T{...}] literals. *)
Definition new_simpleProvider (s : simpleProvider) : M nat :=
  p <~ gets (λ c, length (simpleProviders (heap c))) ;;
  heap_modify (λ h, with_simpleProviders (simpleProviders h ++ [s]) h) ;;;
  ret p.
Definition new_scopeDepProvider (s : scopeDepProvider) : M nat :=
  p <~ gets (λ c, length (scopeDepProviders (heap c))) ;;
  heap_modify (λ h, with_scopeDepProviders (scopeDepProviders h ++ [s]) h) ;;;
  ret p.
Definition new_groupResolver (g : groupResolver) : M nat :=
  p <~ gets (λ c, length (groupResolvers (heap c))) ;;
  heap_modify (λ h, with_groupResolvers (groupResolvers h ++ [g]) h) ;;;
  ret p.
Definition new_onePerScopeResolver (o : onePerScopeResolver) : M nat :=
  p <~ gets (λ c, length (onePerScopeResolvers (heap c))) ;;
  heap_modify (λ h, with_onePerScopeResolvers (onePerScopeResolvers h ++ [o]) h) ;;;
  ret p.
Definition new_scopeDepResolver (s : scopeDepResolver) : M nat :=
  p <~ gets (λ c, length (scopeDepResolvers (heap c))) ;;
  heap_modify (λ h, with_scopeDepResolvers (scopeDepResolvers h ++ [s]) h) ;;;
  ret p.

Definition set_resolver (typ : rtype) (vr : resolver) : M unit :=
  modify (λ c, with_resolvers (<[typ := vr]> (resolvers c)) c).

(** The body of the output loop of [addNode] for a [simpleProvider]
    (the branch [scope != nil || !hasScopeParam]). *)
Definition addNode_output (node : nat) (constructorGraphNode : gnode)
    (i : nat) (out : ProviderOutput) : M unit :=
  let typ := out_Type out in
  if isOnePerScopeMap typ then fail (returnTypeError typ)
  else
    let typ := unwrapAutoGroupSlice typ in
    rs <~ gets resolvers ;;
    match rs !! typ with
    | Some vr => resolver_addNode vr node i
    | None =>
        typeGraphNode <~
          (if isAutoGroupType typ then
             let sliceType := SliceOf typ in
             typeGraphNode <~ typeGraphNode sliceType ;;
             SetComment typeGraphNode "auto-group" ;;;
             r <~ new_groupResolver
                    {| gr_typ := typ; gr_sliceType := sliceType; gr_providers := [] |} ;;
             groupResolver_addNode r node i ;;;
             set_resolver typ (GroupResolver r) ;;;
             set_resolver sliceType (SliceGroupResolver r) ;;;
             ret typeGraphNode
           else if isOnePerScopeType typ then
             let mapType := MapOf stringType typ in
             typeGraphNode <~ typeGraphNode mapType ;;
             SetComment typeGraphNode "one-per-scope" ;;;
             r <~ new_onePerScopeResolver
                    {| ops_typ := typ; ops_mapType := mapType;
                       ops_providers := ∅; ops_idxMap := ∅ |} ;;
             onePerScopeResolver_addNode r node i ;;;
             set_resolver typ (OnePerScopeResolver r) ;;;
             set_resolver mapType (MapOfOnePerScopeResolver r) ;;;
             ret typeGraphNode
           else
             typeGraphNode <~ typeGraphNode typ ;;
             (* the literal sets [node] and [typ]; the index keeps its zero value *)
             set_resolver typ (SimpleResolver node 0 typ) ;;;
             ret typeGraphNode) ;;
        addGraphEdge constructorGraphNode typeGraphNode
    end.

Fixpoint addNode_outputs (node : nat) (constructorGraphNode : gnode)
    (i : nat) (outs : list ProviderOutput) : M unit :=
  match outs with
  | [] => ret tt
  | out :: rest =>
      addNode_output node constructorGraphNode i out ;;;
      addNode_outputs node constructorGraphNode (S i) rest
  end.

Definition scopedDuplicateError (typ : rtype) (loc : Location)
    (existingLoc : string) : error :=
  "duplicate provision of type " +:+ type_String typ +:+ " by scoped provider "
    +:+ loc_String loc +:+ newline +:+ tab
    +:+ "already provided by " +:+ existingLoc.

(** The body of the output loop of [addNode] for a [scopeDepProvider]. *)
Definition addNode_scoped_output (constructor : ProviderDescriptor) (node : nat)
    (constructorGraphNode : gnode) (i : nat) (out : ProviderOutput) : M unit :=
  let typ := out_Type out in
  rs <~ gets resolvers ;;
  match rs !! typ with
  | Some existing =>
      h <~ gets heap ;;
      fail (scopedDuplicateError typ (pd_Location constructor)
              (describeLocation h existing))
  | None =>
      r <~ new_scopeDepResolver
             {| sdr_typ := typ; sdr_idxInValues := i; sdr_node := node;
                sdr_valueMap := ∅ |} ;;
      set_resolver typ (ScopeDepResolver r) ;;;
      typeGraphNode <~ typeGraphNode typ ;;
      addGraphEdge constructorGraphNode typeGraphNode
  end.

Fixpoint addNode_scoped_outputs (constructor : ProviderDescriptor) (node : nat)
    (constructorGraphNode : gnode) (i : nat) (outs : list ProviderOutput) : M unit :=
  match outs with
  | [] => ret tt
  | out :: rest =>
      addNode_scoped_output constructor node constructorGraphNode i out ;;;
      addNode_scoped_outputs constructor node constructorGraphNode (S i) rest
  end.

(** [addNode] *)
Definition addNode (constructor : ProviderDescriptor) (scope : option Scope)
    : M node_ref :=
  constructorGraphNode <~ locationGraphNode (pd_Location constructor) scope ;;
  hasScopeParam <~ addNode_inputs constructorGraphNode (Inputs constructor) false ;;
  if bool_decide (scope ≠ None) || negb hasScopeParam then
    node <~ new_simpleProvider
              {| sp_provider := constructor; sp_scope := scope;
                 sp_called := false; sp_values := [] |} ;;
    constructorGraphNode <~ locationGraphNode (pd_Location constructor) scope ;;
    addNode_outputs node constructorGraphNode 0 (Outputs constructor) ;;;
    ret (SimpleProviderRef node)
  else
    node <~ new_scopeDepProvider
              {| sdp_provider := constructor; sdp_calledForScope := ∅;
                 sdp_valueMap := ∅ |} ;;
    addNode_scoped_outputs constructor node constructorGraphNode 0
      (Outputs constructor) ;;;
    ret (ScopeDepProviderRef node).

(** [run] *)
Definition run (fuel : nat) (inv : invoker) : M unit :=
  match ExtractProviderDescriptor inv with
  | inr err => fail err
  | inl rctr =>
      if bool_decide (0 < length (Outputs rctr)) then
        fail ("invoker function cannot have return values other than error: "
                +:+ loc_String (pd_Location rctr))
      else
        node <~ addNode rctr None ;;
        match node with
        | SimpleProviderRef sn =>
            simpleProvider_resolveValues (call fuel) sn ;;;
            ret tt
        | ScopeDepProviderRef _ =>
            fail "cannot run scoped provider as an invoker"
        end
  end.

(** *** Notions used in the statements *)

(** The container after [resolve] has pushed its frame. *)
Definition push_frame (caller : Location) (typ : rtype) (c : container) : container :=
  with_resolveStack (resolveStack c ++ [{| rf_loc := caller; rf_typ := typ |}]) c.

(** The lines of a list of frames, first frame first. *)
Definition frame_lines (frames : list resolveFrame) : string :=
  foldr (λ rk rest, frame_line rk +:+ rest) "" frames.

(** A method preserves [I] when [I] holds of the container it leaves
    behind, however it returns, whenever [I] held before. *)
Definition preserves (I : container → Prop) {A} (m : M A) : Prop :=
  ∀ c, I c → I (m c).1.

(** [I] speaks of the scope table and of the callers only. *)
Definition ignores_bookkeeping (I : container → Prop) : Prop :=
  ∀ c c', scopes c' = scopes c → callerStack c' = callerStack c →
          callerMap c' = callerMap c → I c → I c'.

(** A method leaves the scope table alone, however it returns. *)
Definition keeps_scopes {A} (m : M A) : Prop :=
  ∀ c, scopes (m c).1 = scopes c.

(** The methods of the container, and what a sequence of calls to them
    leaves behind. *)
Inductive method : Type :=
  | DoSupply (value : Value) (location : Location)
  | DoAddNode (constructor : ProviderDescriptor) (scope : option Scope)
  | DoRun (fuel : nat) (inv : invoker)
  | DoCall (fuel : nat) (constructor : ProviderDescriptor) (scope : option Scope)
  | DoResolve (fuel : nat) (in_ : ProviderInput) (scope : option Scope)
      (caller : Location)
  | DoCreateOrGetScope (name : string).

Definition perform (m : method) (c : container) : container :=
  match m with
  | DoSupply value location => (supply value location c).1
  | DoAddNode constructor scope => (addNode constructor scope c).1
  | DoRun fuel inv => (run fuel inv c).1
  | DoCall fuel constructor scope => (call fuel constructor scope c).1
  | DoResolve fuel in_ scope caller => (resolve fuel in_ scope caller c).1
  | DoCreateOrGetScope name => (createOrGetScope name c).1
  end.

Definition perform_all (ms : list method) (c : container) : container :=
  foldl (λ c m, perform m c) c ms.

Definition cyclicDependencyError (loc : Location) : error :=
  "cyclic dependency: " +:+ loc_Name loc +:+ " -> " +:+ loc_Name loc.

(** Every lookup of a graph node succeeds. *)
Definition graph_ok : Prop :=
  (∀ loc scope g, ∃ g' n, graph_locationNode loc scope g = (g', inl n))
  ∧ (∀ typ g, ∃ g' n, graph_typeNode typ g = (g', inl n)).

Definition hasScopeInput (ins : list ProviderInput) : bool :=
  existsb (λ in_, bool_decide (in_Type in_ = scopeType)) ins.


(** The provider is registered as a [simpleProvider]: it is bound to a
    scope or has no input of the scope type. *)
Definition registers_simple (constructor : ProviderDescriptor)
    (scope : option Scope) : Prop :=
  scope ≠ None ∨ hasScopeInput (Inputs constructor) = false.

(** The container after the group resolver of [typ] and its slice form
    are installed for a first provider. *)
Definition install_group (typ : rtype) (node i : nat) (c : container) : container :=
  let r := length (groupResolvers (heap c)) in
  with_resolvers
    (<[SliceOf typ := SliceGroupResolver r]> (<[typ := GroupResolver r]> (resolvers c)))
    (with_heap
       (with_groupResolvers
          (groupResolvers (heap c)
             ++ [{| gr_typ := typ; gr_sliceType := SliceOf typ;
                    gr_providers := [(node, i)] |}])
          (heap c))
       c).

(** The locations of a cycle closed by [loc]: the callers from the earlier
    occurrence of [loc] on the caller stack onwards. *)
Fixpoint cycle_of (loc : Location) (stack : list Location) : list Location :=
  match stack with
  | [] => []
  | l :: rest => if decide (l = loc) then stack else cycle_of loc rest
  end.

(** What the specification asks of [call] for a provider that is being
    invoked already: a cyclic-dependency error whose text names every
    location of the cycle. *)
Definition cycle_named_in_error (constructor : ProviderDescriptor)
    (scope : option Scope) (c : container) : Prop :=
  callerMap c !! pd_Location constructor = Some true →
  ∃ msg, (call 0 constructor scope c).2 = Fail msg
         ∧ includes msg "cyclic dependency"
         ∧ ∀ l, l ∈ cycle_of (pd_Location constructor) (callerStack c) →
                includes msg (loc_Name l).

(** The entries of [callerMap] are never [false] in a container built by
    this code. *)
Definition callerMap_true (c : container) : Prop :=
  ∀ l b, callerMap c !! l = Some b → b = true.

(** [callerMap] and [callerStack] are in sync: the locations on the stack
    are distinct and are those that the map holds. *)
Definition callers_in_sync (c : container) : Prop :=
  callerMap_true c
  ∧ NoDup (callerStack c)
  ∧ ∀ l, l ∈ callerStack c ↔ callerMap c !! l = Some true.

(** A method keeps the callers when a normal return leaves [callerStack]
    and [callerMap] as it found them. *)
Definition keeps_callers {A} (m : M A) : Prop :=
  ∀ c c' a, callerMap_true c → m c = (c', Ret a) →
    callerStack c' = callerStack c ∧ callerMap c' = callerMap c.

(** What the specification asks of [resolve] for an input whose type has
    no resolver in the registry: the zero value when the input is
    optional, an error with the formatted resolve stack when it is not. *)
Definition missing_resolver_answer (in_ : ProviderInput) (scope : option Scope)
    (caller : Location) (c : container) : Prop :=
  resolvers c !! in_Type in_ = None →
  let r := resolve 0 in_ scope caller c in
  if in_Optional in_
  then r.2 = Ret (VZero (in_Type in_))
  else ∃ msg, r.2 = Fail msg ∧ includes msg (formatResolveStack r.1).

(** [vr] is the [simpleResolver] of [node] for [typ]. *)
Definition simple_resolver_of (node : nat) (typ : rtype) (vr : resolver) : Prop :=
  ∃ idxInValues, vr = SimpleResolver node idxInValues typ.

(** The heading of [formatResolveStack]. *)
Definition resolving_heading : string := tab +:+ "while resolving:" +:+ newline.

(** The container in which [call] resolves the inputs: the location's
    graph node has been found and marked, and the location is in
    [callerMap] and on [callerStack]. *)
Definition entered (loc : Location) (g : graph) (n : gnode) (c : container)
    : container :=
  with_callerStack (callerStack c ++ [loc])
    (with_callerMap (<[loc := true]> (callerMap c))
       (with_config (node_SetColor n "red" g) c)).

(** An output of a plain type: not a map from string to a one-per-scope
    type, and (once a slice of an auto-group type is unwrapped) neither an
    auto-group nor a one-per-scope type. *)
Definition plain_output (out : ProviderOutput) : Prop :=
  isOnePerScopeMap (out_Type out) = false
  ∧ isAutoGroupType (unwrapAutoGroupSlice (out_Type out)) = false
  ∧ isOnePerScopeType (unwrapAutoGroupSlice (out_Type out)) = false.

(** The provider invocation that [resolve], at a given fuel, hands to the
    resolvers. *)
Definition provider_call (fuel : nat) (constructor : ProviderDescriptor)
    (scope : option Scope) : M (list Value) :=
  match fuel with
  | O => starved
  | S fuel' => call_with (resolve fuel') constructor scope
  end.

(** A method stays within [R] when [R] relates the container it is called
    on to the container it leaves behind, however it returns. *)
Definition within (R : container → container → Prop) {A} (m : M A) : Prop :=
  ∀ c, R c (m c).1.

(** What registration leaves alone: the resolve stack, the callers and the
    scope table. *)
Definition registration_frame (c c' : container) : Prop :=
  resolveStack c' = resolveStack c
  ∧ callerStack c' = callerStack c
  ∧ callerMap c' = callerMap c
  ∧ scopes c' = scopes c.

(** What resolution leaves alone: the registry and the scope table, and
    the frames that were on the resolve stack. *)
Definition resolution_frame (c c' : container) : Prop :=
  resolvers c' = resolvers c
  ∧ scopes c' = scopes c
  ∧ resolveStack c `prefix_of` resolveStack c'.

(** The panic of the slice expressions [s[:len(s)-1]] of [call] and
    [resolve]. *)
Definition bounds_panic : string := "slice bounds out of range [:-1]".

(** A method is in bounds when it never panics on a slice expression, and
    leaves [callerStack] as long as it was whenever it returns a value. *)
Definition in_bounds {A} (m : M A) : Prop :=
  ∀ c, match m c with
       | (c', Ret _) => length (callerStack c') = length (callerStack c)
       | (_, Panic msg) => msg ≠ bounds_panic
       | _ => True
       end.

(** The two halves of what a container method returns. *)
Definition state_of {A} (r : container * outcome A) : container := r.1.
Definition result_of {A} (r : container * outcome A) : outcome A := r.2.

(** What the specification asks of a registration one of whose outputs
    is a map from string to a one-per-scope type: the registration fails
    with the return-type error, and the registry has no new resolver for
    that output. *)
Definition rejected_as_return_type (constructor : ProviderDescriptor)
    (scope : option Scope) (c : container) : Prop :=
  ∀ out, out ∈ Outputs constructor →
    isOnePerScopeMap (out_Type out) = true →
    (∃ msg, result_of (addNode constructor scope c) = Fail msg
            ∧ includes msg "cannot be used as a return type")
    ∧ resolvers (state_of (addNode constructor scope c)) !! out_Type out
      = resolvers c !! out_Type out.

(** What the specification asks of a registration for each output whose
    type, a slice of an auto-group type being unwrapped, is an auto-group
    type without a resolver: afterwards the registry has a group resolver
    under the type and its slice form under the slice type. *)
Definition group_installed (constructor : ProviderDescriptor)
    (scope : option Scope) (c : container) : Prop :=
  ∀ out, out ∈ Outputs constructor →
    let typ := unwrapAutoGroupSlice (out_Type out) in
    isAutoGroupType typ = true →
    resolvers c !! typ = None →
    ∃ r, resolvers (state_of (addNode constructor scope c)) !! typ
           = Some (GroupResolver r)
         ∧ resolvers (state_of (addNode constructor scope c)) !! SliceOf typ
           = Some (SliceGroupResolver r).

(** The container in which the output loop of a [simpleProvider] starts:
    the graph has taken the provider and its inputs in, and the provider
    node is allocated. *)
Definition outputs_start (constructor : ProviderDescriptor) (scope : option Scope)
    (g : graph) (c : container) : container :=
  with_heap
    (with_simpleProviders
       (simpleProviders (heap c)
          ++ [{| sp_provider := constructor; sp_scope := scope;
                 sp_called := false; sp_values := [] |}])
       (heap c))
    (with_config g c).

(** What [addNode] returns for a [simpleProvider] once the output loop has
    returned: the node, or the loop's error. *)
Definition outputs_end (node : nat) (r : container * outcome unit)
    : container * outcome node_ref :=
  match r with
  | (c', Ret _) => (c', Ret (SimpleProviderRef node))
  | (c', Fail e) => (c', Fail e)
  | (c', Panic msg) => (c', Panic msg)
  | (c', Starved) => (c', Starved)
  end.

(** The registry holds the group resolver [r] under [typ] and its slice
    form under the slice type. *)
Definition holds_group (typ : rtype) (r : nat) (c : container) : Prop :=
  resolvers c !! typ = Some (GroupResolver r)
  ∧ resolvers c !! SliceOf typ = Some (SliceGroupResolver r).

End Container.

(** * A concrete set of collaborators

    A diagnostic graph whose nodes are created on first use and found
    again afterwards, two marker types, and invokers given directly by
    their descriptors.  The scenarios below run the container with it. *)

Record diagram := {
  d_nodes : list string;
  d_edges : list (string * string);
  d_colors : gmap string string;
  d_comments : gmap string string;
}.

Definition empty_diagram : diagram :=
  {| d_nodes := []; d_edges := []; d_colors := ∅; d_comments := ∅ |}.

Definition diagram_node (name : string) (d : diagram) : diagram :=
  {| d_nodes := if bool_decide (name ∈ d_nodes d) then d_nodes d
                else d_nodes d ++ [name];
     d_edges := d_edges d; d_colors := d_colors d; d_comments := d_comments d |}.

Definition diagram_locationNode (loc : Location) (scope : option Scope)
    (d : diagram) : diagram * (string + error) :=
  let name := match scope with
              | Some sc => scope_Name sc +:+ "/" +:+ loc_Name loc
              | None => loc_Name loc
              end in
  (diagram_node name d, inl name).

Definition diagram_typeNode (typ : rtype) (d : diagram) : diagram * (string + error) :=
  (diagram_node (type_String typ) d, inl (type_String typ)).

Definition diagram_addEdge (from to : string) (d : diagram) : diagram :=
  {| d_nodes := d_nodes d; d_edges := d_edges d ++ [(from, to)];
     d_colors := d_colors d; d_comments := d_comments d |}.

Definition diagram_SetColor (n color : string) (d : diagram) : diagram :=
  {| d_nodes := d_nodes d; d_edges := d_edges d;
     d_colors := <[n := color]> (d_colors d); d_comments := d_comments d |}.

Definition diagram_SetComment (n comment : string) (d : diagram) : diagram :=
  {| d_nodes := d_nodes d; d_edges := d_edges d; d_colors := d_colors d;
     d_comments := <[n := comment]> (d_comments d) |}.

(** [Handler] is the auto-group type and [Keeper] the one-per-scope type
    of the scenarios. *)
Definition sample_isAutoGroupType (t : rtype) : bool :=
  bool_decide (t = TNamed "Handler").
Definition sample_isOnePerScopeType (t : rtype) : bool :=
  bool_decide (t = TNamed "Keeper").

Definition sample_describeLocation (h : objects) (vr : resolver) : string :=
  match vr with
  | SupplyResolver _ _ loc => loc_String loc
  | SimpleResolver node _ _ =>
      default "" ((λ n, loc_String (pd_Location (sp_provider n)))
                    <$> simpleProviders h !! node)
  | ScopeDepResolver r =>
      default ""
        (s ← scopeDepResolvers h !! r;
         n ← scopeDepProviders h !! sdr_node s;
         Some (loc_String (pd_Location (sdp_provider n))))
  | GroupResolver r | SliceGroupResolver r =>
      default "" ((λ g, "auto-group type " +:+ type_String (gr_typ g))
                    <$> groupResolvers h !! r)
  | OnePerScopeResolver r | MapOfOnePerScopeResolver r =>
      default "" ((λ o, "one-per-scope type " +:+ type_String (ops_typ o))
                    <$> onePerScopeResolvers h !! r)
  end.

Definition sample : Collaborators :=
  {| graph := diagram; gnode := string; invoker := ProviderDescriptor;
     graph_locationNode := diagram_locationNode;
     graph_typeNode := diagram_typeNode;
     graph_addEdge := diagram_addEdge;
     node_SetColor := diagram_SetColor;
     node_SetComment := diagram_SetComment;
     isAutoGroupType := sample_isAutoGroupType;
     isOnePerScopeType := sample_isOnePerScopeType;
     describeLocation := sample_describeLocation;
     ExtractProviderDescriptor := inl |}.

Definition fresh : container := newContainer (collab:=sample) empty_diagram.

Definition at_ (name position : string) : Location :=
  {| loc_name := name; loc_position := position |}.
Definition needs (typ : rtype) : ProviderInput :=
  {| in_Type := typ; in_Optional := false |}.
Definition wants (typ : rtype) : ProviderInput :=
  {| in_Type := typ; in_Optional := true |}.
Definition gives (typ : rtype) : ProviderOutput := {| out_Type := typ |}.

Definition tA : rtype := TNamed "A".
Definition tB : rtype := TNamed "B".
Definition tHandler : rtype := TNamed "Handler".
Definition tKeeper : rtype := TNamed "Keeper".

Definition locA : Location := at_ "provideA" "app.go:10".
Definition locB : Location := at_ "provideB" "app.go:20".
Definition locMain : Location := at_ "main" "app.go:30".

(** [func provideA(B) A], [func provideB(A) B], [func main(A) error] *)
Definition provideA : ProviderDescriptor :=
  {| Inputs := [needs tB]; Outputs := [gives tA];
     Fn := λ _, ([VUser tA "a"], None); pd_Location := locA |}.
Definition provideB : ProviderDescriptor :=
  {| Inputs := [needs tA]; Outputs := [gives tB];
     Fn := λ _, ([VUser tB "b"], None); pd_Location := locB |}.
Definition mainA : ProviderDescriptor :=
  {| Inputs := [needs tA]; Outputs := [];
     Fn := λ _, ([], None); pd_Location := locMain |}.

(** ** Scenario data *)

(** [func provideB(A) B] is invoked while nothing provides [A]. *)
Definition after_failed_call : container := state_of (call 0 provideB None fresh).

(** The same call after [A] has been supplied. *)
Definition supplied_A : container := state_of (supply (VUser tA "a") locA fresh).
Definition after_good_call : container := state_of (call 0 provideB None supplied_A).

(** [func mainB(B) error], [func mainOpt(opt A) error], and
    [func keeperOf(Scope) B] to be registered inside a scope. *)
Definition mainB : ProviderDescriptor :=
  {| Inputs := [needs tB]; Outputs := [];
     Fn := λ _, ([], None); pd_Location := locMain |}.
Definition mainOpt : ProviderDescriptor :=
  {| Inputs := [wants tA]; Outputs := [];
     Fn := λ _, ([], None); pd_Location := locMain |}.
Definition keeperOf : ProviderDescriptor :=
  {| Inputs := [needs scopeType]; Outputs := [gives tB];
     Fn := λ _, ([VUser tB "b"], None); pd_Location := locB |}.

(** [func consumer(opt A)], resolved while nothing provides [A], and a
    scope input resolved inside the scope [sc]. *)
Definition sc : Scope := {| scope_addr := 0; scope_Name := "bank" |}.
Definition after_optional : container := state_of (resolve 0 (wants tA) None locMain fresh).
Definition after_scope : container :=
  state_of (resolve 0 (needs scopeType) (Some sc) locMain fresh).

(** The container in which [main] is resolving [A]: [provideA] is
    resolving [B], and [provideB] is about to ask for [A] again. *)
Definition in_cycle : container :=
  with_callerStack [locMain; locA; locB]
    (with_callerMap (<[locB := true]> (<[locA := true]> (<[locMain := true]> ∅)))
       fresh).

(** [func mainScoped(Scope, A) error] *)
Definition mainScoped : ProviderDescriptor :=
  {| Inputs := [needs scopeType; needs tA]; Outputs := [];
     Fn := λ _, ([], None); pd_Location := locMain |}.

(** [func provideScoped(Scope) (A, B)] *)
Definition provideScoped : ProviderDescriptor :=
  {| Inputs := [needs scopeType]; Outputs := [gives tA; gives tB];
     Fn := λ _, ([VUser tA "a"; VUser tB "b"], None);
     pd_Location := at_ "provideScoped" "app.go:40" |}.


(** [func provideKeepers() map[string]Keeper] *)
Definition provideKeepers : ProviderDescriptor :=
  {| Inputs := []; Outputs := [gives (MapOf stringType tKeeper)];
     Fn := λ _, ([VMap (MapOf stringType tKeeper) []], None);
     pd_Location := at_ "provideKeepers" "app.go:50" |}.

(** [func provideHandlers() []Handler] *)
Definition provideHandlers : ProviderDescriptor :=
  {| Inputs := []; Outputs := [gives (SliceOf tHandler)];
     Fn := λ _, ([VSlice (SliceOf tHandler) [VUser tHandler "h1"; VUser tHandler "h2"]], None);
     pd_Location := at_ "provideHandlers" "app.go:60" |}.

(** ** Further scenario data *)

(** A graph that cannot make the node of the type [Broken] or of a
    provider named [broken], and an extraction that turns down the invoker
    named [broken]. *)
Definition brittle_locationNode (loc : Location) (scope : option Scope)
    (d : diagram) : diagram * (string + error) :=
  if bool_decide (loc_name loc = "broken")
  then (d, inr "graph: cannot create the node of broken")
  else diagram_locationNode loc scope d.

Definition brittle_typeNode (typ : rtype) (d : diagram) : diagram * (string + error) :=
  if bool_decide (typ = TNamed "Broken")
  then (d, inr "graph: cannot create the node of Broken")
  else diagram_typeNode typ d.

Definition brittle_Extract (inv : ProviderDescriptor) : ProviderDescriptor + error :=
  if bool_decide (loc_name (pd_Location inv) = "broken")
  then inr "expected a Func type"
  else inl inv.

Definition brittle : Collaborators :=
  {| graph := diagram; gnode := string; invoker := ProviderDescriptor;
     graph_locationNode := brittle_locationNode;
     graph_typeNode := brittle_typeNode;
     graph_addEdge := diagram_addEdge;
     node_SetColor := diagram_SetColor;
     node_SetComment := diagram_SetComment;
     isAutoGroupType := sample_isAutoGroupType;
     isOnePerScopeType := sample_isOnePerScopeType;
     describeLocation := sample_describeLocation;
     ExtractProviderDescriptor := brittle_Extract |}.

Definition fresh_brittle : container := newContainer (collab:=brittle) empty_diagram.

Definition tBroken : rtype := TNamed "Broken".
Definition locBroken : Location := at_ "broken" "app.go:99".

(** [func broken() A] *)
Definition provideBroken : ProviderDescriptor :=
  {| Inputs := []; Outputs := [gives tA];
     Fn := λ _, ([VUser tA "a"], None); pd_Location := locBroken |}.

(** [func provideMixed() (A, map[string]Keeper)] *)
Definition provideMixed : ProviderDescriptor :=
  {| Inputs := []; Outputs := [gives tA; gives (MapOf stringType tKeeper)];
     Fn := λ _, ([VUser tA "a"; VMap (MapOf stringType tKeeper) []], None);
     pd_Location := at_ "provideMixed" "app.go:70" |}.

(** [func provideKeeper() Keeper], to be registered inside the scope [sc]. *)
Definition provideKeeper : ProviderDescriptor :=
  {| Inputs := []; Outputs := [gives tKeeper];
     Fn := λ _, ([VUser tKeeper "k"], None);
     pd_Location := at_ "provideKeeper" "app.go:80" |}.

(** [func provideFailing() (B, error)] and [func mainFailing() error],
    whose functions return an error, and [func mainNone() error]. *)
Definition provideFailing : ProviderDescriptor :=
  {| Inputs := []; Outputs := [gives tB];
     Fn := λ _, ([], Some "boom"); pd_Location := at_ "provideFailing" "app.go:90" |}.

(** A slice of handlers has been supplied before any handler is
    provided. *)
Definition supplied_handlers : container :=
  state_of (supply (VSlice (SliceOf tHandler) []) locA fresh).

(** The handlers are provided; [Handler] itself is then asked for. *)
Definition provided_handlers : container :=
  state_of (addNode provideHandlers None fresh).

(** [main] is resolving [A] and [provideA] is resolving [B]. *)
Definition frameA : resolveFrame := {| rf_loc := locMain; rf_typ := tA |}.
Definition frameB : resolveFrame := {| rf_loc := locA; rf_typ := tB |}.
Definition resolving_AB : container := with_resolveStack [frameA; frameB] fresh.

(** [func provideKeeperAndMap() (Keeper, map[string]Keeper)],
    [func provideAHandlers() (A, []Handler)] and
    [func provideAHandlersB() (A, []Handler, B)] *)
Definition provideKeeperAndMap : ProviderDescriptor :=
  {| Inputs := []; Outputs := [gives tKeeper; gives (MapOf stringType tKeeper)];
     Fn := λ _, ([VUser tKeeper "k"; VMap (MapOf stringType tKeeper) []], None);
     pd_Location := at_ "provideKeeperAndMap" "app.go:100" |}.
Definition provideAHandlers : ProviderDescriptor :=
  {| Inputs := []; Outputs := [gives tA; gives (SliceOf tHandler)];
     Fn := λ _, ([VUser tA "a"; VSlice (SliceOf tHandler) []], None);
     pd_Location := at_ "provideAHandlers" "app.go:110" |}.
Definition provideAHandlersB : ProviderDescriptor :=
  {| Inputs := []; Outputs := [gives tA; gives (SliceOf tHandler); gives tB];
     Fn := λ _, ([VUser tA "a"; VSlice (SliceOf tHandler) []; VUser tB "b"], None);
     pd_Location := at_ "provideAHandlersB" "app.go:120" |}.

(** * Properties *)

(** ** Strings *)

Lemma string_app_cons (ch : ascii) (a b : string) :
  String ch a +:+ b = String ch (a +:+ b).
Proof. reflexivity. Qed.

Lemma string_app_nil_l (a : string) : "" +:+ a = a.
Proof. reflexivity. Qed.

Lemma string_app_assoc (a b c : string) : (a +:+ b) +:+ c = a +:+ b +:+ c.
Proof.
  induction a as [|ch a IH]; [done|].
  by rewrite !string_app_cons, IH.
Qed.

Lemma string_app_nil_r (a : string) : a +:+ "" = a.
Proof.
  induction a as [|ch a IH]; [done|].
  by rewrite string_app_cons, IH.
Qed.

Lemma prefix_spec (s msg : string) :
  String.prefix s msg = true ↔ ∃ post, msg = s +:+ post.
Proof.
  revert msg. induction s as [|ch s IH]; intros msg.
  - split; [intros _; by exists msg | intros _; by destruct msg].
  - destruct msg as [|ch' msg].
    + change (String.prefix (String ch s) "") with false.
      split; [done | intros [post Hp]; discriminate].
    + change (String.prefix (String ch s) (String ch' msg))
        with (if Ascii.ascii_dec ch ch' then String.prefix s msg else false).
      destruct (Ascii.ascii_dec ch ch') as [->|Hne].
      * rewrite IH. split; intros [post Hp]; exists post.
        -- by rewrite string_app_cons, Hp.
        -- rewrite string_app_cons in Hp. congruence.
      * split; [done | intros [post Hp]].
        rewrite string_app_cons in Hp. congruence.
Qed.

Lemma substringb_spec (s msg : string) :
  substringb s msg = true ↔ includes msg s.
Proof.
  unfold includes. induction msg as [|ch msg IH].
  - change (substringb s "") with (String.prefix s "" || false).
    rewrite orb_false_r, prefix_spec. split.
    + intros [post Hp]. by exists "", post.
    + intros [pre [post Hp]]. destruct pre; [by exists post|done].
  - change (substringb s (String ch msg))
      with (String.prefix s (String ch msg) || substringb s msg).
    rewrite orb_true_iff, IH, prefix_spec. split.
    + intros [[post Hp]|[pre [post Hp]]].
      * by exists "", post.
      * exists (String ch pre), post. by rewrite string_app_cons, Hp.
    + intros [pre [post Hp]]. destruct pre as [|ch' pre].
      * left. by exists post.
      * right. exists pre, post. rewrite string_app_cons in Hp. congruence.
Qed.

Lemma includes_here (pre s post : string) : includes (pre +:+ s +:+ post) s.
Proof. by exists pre, post. Qed.

Lemma includes_app_r (pre msg s : string) : includes msg s → includes (pre +:+ msg) s.
Proof.
  intros [p [q ->]]. exists (pre +:+ p), q. by rewrite string_app_assoc.
Qed.

Lemma includes_app_l (msg post s : string) : includes msg s → includes (msg +:+ post) s.
Proof.
  intros [p [q ->]]. exists p, (q +:+ post). by rewrite !string_app_assoc.
Qed.

Lemma includes_end (pre s : string) : includes (pre +:+ s) s.
Proof. exists pre, "". by rewrite string_app_nil_r. Qed.

Section Properties.
Context {collab : Collaborators}.

(** ** Properties of resolution *)

Lemma resolve_unfold (fuel : nat) :
  resolve fuel =
  resolve_with (λ constructor sc,
    match fuel with
    | O => starved
    | S fuel' => call_with (resolve fuel') constructor sc
    end).
Proof. by destruct fuel. Qed.

Lemma foldl_frame_lines (frames : list resolveFrame) (buf : string) :
  foldl (λ buf rk, buf +:+ frame_line rk) buf frames = buf +:+ frame_lines frames.
Proof.
  revert buf. induction frames as [|rk frames IH]; intros buf; simpl.
  - by rewrite string_app_nil_r.
  - by rewrite IH, string_app_assoc.
Qed.

Lemma formatResolveStack_lines (c : container) :
  formatResolveStack c =
  (tab +:+ "while resolving:" +:+ newline) +:+ frame_lines (reverse (resolveStack c)).
Proof. unfold formatResolveStack. apply foldl_frame_lines. Qed.

(** C8.  An input of the scope type is answered by the engine itself: with
    an active scope the result is that scope wrapped as a value, with no
    scope it is an error; the resolver registry plays no part in either
    outcome.  (The lookup of the type's graph node is assumed to succeed.) *)
Theorem resolve_scope_input (fuel : nat) (in_ : ProviderInput)
    (scope : option Scope) (caller : Location) (c : container)
    (g : graph) (n : gnode) :
  in_Type in_ = scopeType →
  graph_typeNode scopeType (config c) = (g, inl n) →
  resolve fuel in_ scope caller c =
    match scope with
    | Some sc =>
        (with_config (node_SetColor n "black" g) (push_frame caller scopeType c),
         Ret (VScope sc))
    | None =>
        (with_config g (push_frame caller scopeType c),
         Fail ("trying to resolve <nil> for " +:+ loc_String caller
                 +:+ " but not inside of any scope"))
    end
  ∧ ∀ rs : gmap rtype resolver,
      (resolve fuel in_ scope caller (with_resolvers rs c)).2
      = (resolve fuel in_ scope caller c).2.
Proof.
  intros Hty Hg.
  assert (Hrun : ∀ c', graph_typeNode scopeType (config c') = (g, inl n) →
    resolve fuel in_ scope caller c' =
    match scope with
    | Some sc =>
        (with_config (node_SetColor n "black" g) (push_frame caller scopeType c'),
         Ret (VScope sc))
    | None =>
        (with_config g (push_frame caller scopeType c'),
         Fail ("trying to resolve <nil> for " +:+ loc_String caller
                 +:+ " but not inside of any scope"))
    end).
  { intros c' Hg'. rewrite resolve_unfold. unfold resolve_with.
    rewrite Hty. unfold bind, modify, typeGraphNode, lift_graph. simpl.
    rewrite Hg'. simpl. by destruct scope. }
  split; [by apply Hrun|].
  intros rs. rewrite (Hrun c Hg), (Hrun (with_resolvers rs c) Hg).
  by destruct scope.
Qed.

(** The two ways out of [resolve] when the registry has no resolver for
    the input's type. *)
Lemma resolve_no_resolver_run (fuel : nat) (in_ : ProviderInput)
    (scope : option Scope) (caller : Location) (c : container)
    (g : graph) (n : gnode) :
  in_Type in_ ≠ scopeType →
  resolvers c !! in_Type in_ = None →
  graph_typeNode (in_Type in_) (config c) = (g, inl n) →
  let c' := push_frame caller (in_Type in_) c in
  resolve fuel in_ scope caller c =
    (if in_Optional in_
     then (with_config g c', Ret (VZero (in_Type in_)))
     else (with_config (node_SetColor n "red" g) c',
           Fail ("can't resolve type " +:+ type_String (in_Type in_) +:+ " for "
                   +:+ loc_String caller +:+ ":" +:+ newline
                   +:+ formatResolveStack c'))).
Proof.
  intros Hty Hnone Hg c'.
  rewrite resolve_unfold. unfold resolve_with.
  unfold bind, modify, typeGraphNode, lift_graph. simpl.
  rewrite Hg. simpl. destruct (decide (in_Type in_ = scopeType)); [done|].
  unfold gets. simpl. rewrite Hnone.
  by destruct (in_Optional in_).
Qed.

(** C7, as the code has it.  An input of a type other than the scope type
    for which no resolver is registered: an optional input gets the zero
    value of its type; a required input gets the error that carries the
    formatted resolve stack, whose lines run from the frame just pushed
    back to the oldest one. *)
Theorem resolve_no_resolver (fuel : nat) (in_ : ProviderInput)
    (scope : option Scope) (caller : Location) (c : container)
    (g : graph) (n : gnode) :
  in_Type in_ ≠ scopeType →
  resolvers c !! in_Type in_ = None →
  graph_typeNode (in_Type in_) (config c) = (g, inl n) →
  let c' := push_frame caller (in_Type in_) c in
  resolve fuel in_ scope caller c =
    (if in_Optional in_
     then (with_config g c', Ret (VZero (in_Type in_)))
     else (with_config (node_SetColor n "red" g) c',
           Fail ("can't resolve type " +:+ type_String (in_Type in_) +:+ " for "
                   +:+ loc_String caller +:+ ":" +:+ newline
                   +:+ formatResolveStack c')))
  ∧ formatResolveStack c' =
      (tab +:+ "while resolving:" +:+ newline)
        +:+ frame_line {| rf_loc := caller; rf_typ := in_Type in_ |}
        +:+ frame_lines (reverse (resolveStack c)).
Proof.
  intros Hty Hnone Hg c'. split.
  - by apply resolve_no_resolver_run.
  - rewrite formatResolveStack_lines. unfold c', push_frame. simpl.
    by rewrite reverse_snoc.
Qed.

(** The third way out of [resolve]: a value that comes from a resolver is
    returned after the last frame of the stack has been popped. *)
Lemma resolve_via_resolver_pops
    (callf : ProviderDescriptor → option Scope → M (list Value))
    (in_ : ProviderInput) (scope : option Scope) (caller : Location)
    (c c2 : container) (g : graph) (n : gnode) (vr : resolver) (v : Value)
    (st : list resolveFrame) (f : resolveFrame) :
  in_Type in_ ≠ scopeType →
  resolvers c !! in_Type in_ = Some vr →
  graph_typeNode (in_Type in_) (config c) = (g, inl n) →
  resolver_resolve callf vr scope caller
    (with_config g (push_frame caller (in_Type in_) c)) = (c2, Ret v) →
  resolveStack c2 = st ++ [f] →
  resolve_with callf in_ scope caller c =
    (with_resolveStack st (with_config (node_SetColor n "black" (config c2)) c2),
     Ret v).
Proof.
  intros Hty Hvr Hg Hres Hst. unfold resolve_with.
  unfold bind, modify, typeGraphNode, lift_graph. simpl.
  rewrite Hg. simpl. destruct (decide (in_Type in_ = scopeType)); [done|].
  unfold gets. simpl. rewrite Hvr. unfold on_error.
  unfold push_frame in Hres. rewrite Hres. simpl.
  rewrite Hst. unfold drop_last. destruct (st ++ [f]) as [|f0 st0] eqn:Heq.
  { by destruct st. }
  rewrite <- Heq, length_app. simpl.
  replace (length st + 1 - 1) with (length st) by lia.
  by rewrite take_app_length.
Qed.

(** *** Scopes *)

Lemma createOrGetScope_known (name : string) (s : Scope) (c : container) :
  scopes c !! name = Some s → createOrGetScope name c = (c, Ret s).
Proof.
  intros Hs. unfold createOrGetScope, bind, gets. simpl. by rewrite Hs.
Qed.

Lemma createOrGetScope_new (name : string) (c : container) :
  scopes c !! name = None →
  let s := {| scope_addr := scopesMade (heap c); scope_Name := name |} in
  createOrGetScope name c =
    (with_scopes (<[name := s]> (scopes c))
       (with_heap (with_scopesMade (S (scopesMade (heap c))) (heap c)) c),
     Ret s).
Proof.
  intros Hs. unfold createOrGetScope, bind, gets. simpl. by rewrite Hs.
Qed.

Lemma createOrGetScope_returns (name : string) (c : container) :
  ∃ s, (createOrGetScope name c).2 = Ret s
       ∧ scopes (createOrGetScope name c).1 !! name = Some s.
Proof.
  destruct (scopes c !! name) as [s|] eqn:Hs.
  - exists s. by rewrite (createOrGetScope_known _ _ _ Hs).
  - eexists. rewrite (createOrGetScope_new _ _ Hs). simpl.
    split; [done|]. by rewrite lookup_insert_eq.
Qed.

Lemma createOrGetScope_keeps (name other : string) (s : Scope) (c : container) :
  scopes c !! name = Some s →
  scopes (createOrGetScope other c).1 !! name = Some s.
Proof.
  intros Hs. destruct (scopes c !! other) as [s'|] eqn:Ho.
  - by rewrite (createOrGetScope_known _ _ _ Ho).
  - rewrite (createOrGetScope_new _ _ Ho). simpl.
    rewrite lookup_insert_ne; [done|]. intros ->. congruence.
Qed.

(** *** What the methods leave alone

    Apart from [call], which pushes and pops the callers, and
    [createOrGetScope], which fills the scope table, the methods write to
    the graph, the registry, the resolve stack and the stores only. *)

Section Preserving.
Variable I : container → Prop.
Hypothesis I_bookkeeping : ignores_bookkeeping I.

Lemma preserves_ret {A} (a : A) : preserves I (ret a).
Proof. by intros c. Qed.
Lemma preserves_fail {A} (e : error) : preserves I (fail (A:=A) e).
Proof. by intros c. Qed.
Lemma preserves_panic {A} (msg : string) : preserves I (panic (A:=A) msg).
Proof. by intros c. Qed.
Lemma preserves_starved {A} : preserves I (starved (A:=A)).
Proof. by intros c. Qed.
Lemma preserves_gets {A} (f : container → A) : preserves I (gets f).
Proof. by intros c. Qed.

Lemma preserves_modify (f : container → container) :
  (∀ c, I c → I (f c)) → preserves I (modify f).
Proof. intros Hf c. apply Hf. Qed.

(** A write that touches neither the scope table nor the callers. *)
Lemma preserves_bookkeeping (f : container → container) :
  (∀ c, scopes (f c) = scopes c ∧ callerStack (f c) = callerStack c
        ∧ callerMap (f c) = callerMap c) →
  preserves I (modify f).
Proof.
  intros Hf. apply preserves_modify. intros c.
  destruct (Hf c) as [Hs [Hst Hm]]. by apply I_bookkeeping.
Qed.

Lemma preserves_bind {A B} (m : M A) (k : A → M B) :
  preserves I m → (∀ a, preserves I (k a)) → preserves I (bind m k).
Proof.
  intros Hm Hk c HI. unfold bind. specialize (Hm c HI).
  destruct (m c) as [c1 [a| | |]]; simpl in *; try done.
  by apply Hk.
Qed.

Lemma preserves_on_error {A} (m : M A) (handler : M unit) :
  preserves I m → preserves I handler → preserves I (on_error m handler).
Proof.
  intros Hm Hh c HI. unfold on_error. specialize (Hm c HI).
  destruct (m c) as [c1 [a| | |]]; simpl in *; try done.
  apply (preserves_bind handler (λ _, fail e)); [done| |done].
  intros _. apply preserves_fail.
Qed.

Lemma preserves_lift_graph (f : graph → graph * (gnode + error)) :
  preserves I (lift_graph f).
Proof.
  intros c HI. unfold lift_graph.
  destruct (f (config c)) as [g [n|e]]; simpl;
    by apply (I_bookkeeping c).
Qed.

Lemma preserves_heap_modify (f : objects → objects) : preserves I (heap_modify f).
Proof. by apply preserves_bookkeeping. Qed.

Lemma preserves_index_values (values : list Value) (i : nat) :
  preserves I (index_values values i).
Proof.
  unfold index_values.
  destruct (values !! i); [apply preserves_ret|apply preserves_panic].
Qed.

End Preserving.

Create HintDb preserves.
#[local] Hint Resolve preserves_ret preserves_fail preserves_panic
  preserves_starved preserves_gets preserves_lift_graph preserves_heap_modify
  preserves_index_values : preserves.

(** One step of a proof that a method preserves [I]: split a [bind],
    settle a primitive, or take a [match] or [if] of the code apart. *)
Ltac preserves_step :=
  match goal with
  | |- preserves _ (bind _ _) => apply preserves_bind; [|intros ?]
  | |- preserves _ (on_error _ _) => apply preserves_on_error
  | |- preserves _ (modify _) =>
      apply preserves_bookkeeping; [assumption|intros ?; repeat split]
  | |- preserves _ (match ?x with _ => _ end) => destruct x
  | |- preserves _ (if ?x then _ else _) => destruct x
  | |- preserves _ _ => solve [eauto with preserves]
  end.

Section PreservingMethods.
Variable I : container → Prop.
Hypothesis I_bookkeeping : ignores_bookkeeping I.

Lemma preserves_groupResolver_addNode (r node i : nat) :
  preserves I (groupResolver_addNode r node i).
Proof. unfold groupResolver_addNode. repeat preserves_step. Qed.

Lemma preserves_onePerScopeResolver_addNode (r node i : nat) :
  preserves I (onePerScopeResolver_addNode r node i).
Proof. unfold onePerScopeResolver_addNode. repeat preserves_step. Qed.

Lemma preserves_resolver_addNode (vr : resolver) (node i : nat) :
  preserves I (resolver_addNode vr node i).
Proof.
  unfold resolver_addNode.
  destruct vr; auto using preserves_groupResolver_addNode,
    preserves_onePerScopeResolver_addNode; repeat preserves_step.
Qed.

Section PreservingResolving.
Variable callf : ProviderDescriptor → option Scope → M (list Value).
Hypothesis callf_preserves : ∀ constructor scope, preserves I (callf constructor scope).

Lemma preserves_resolveValues (p : nat) :
  preserves I (simpleProvider_resolveValues callf p).
Proof. unfold simpleProvider_resolveValues. repeat preserves_step. Qed.

Lemma preserves_sliceGroup_collect (providers : list (nat * nat)) (res : list Value) :
  preserves I (sliceGroup_collect callf providers res).
Proof.
  revert res. induction providers as [|[node i] providers IH]; intros res; simpl.
  - apply preserves_ret.
  - apply preserves_bind; [apply preserves_resolveValues|intros values].
    apply preserves_bind; [by apply preserves_index_values|intros value].
    destruct value as [t| | | |]; try apply IH. destruct t; apply IH.
Qed.

Lemma preserves_mapOfOnePerScope_collect (providers : list (Scope * nat))
    (idxMap : gmap Scope nat) (res : list (string * Value)) :
  preserves I (mapOfOnePerScope_collect callf providers idxMap res).
Proof.
  revert res. induction providers as [|[s node] providers IH]; intros res; simpl.
  - apply preserves_ret.
  - apply preserves_bind; [apply preserves_resolveValues|intros values].
    destruct (idxMap !! s); [|apply preserves_panic].
    apply preserves_bind; [by apply preserves_index_values|intros value]. apply IH.
Qed.

Lemma preserves_scopeDepResolver_resolve (r : nat) (scope : option Scope) :
  preserves I (scopeDepResolver_resolve callf r scope).
Proof. unfold scopeDepResolver_resolve. repeat preserves_step. Qed.

Lemma preserves_resolver_resolve (vr : resolver) (scope : option Scope)
    (caller : Location) :
  preserves I (resolver_resolve callf vr scope caller).
Proof.
  unfold resolver_resolve. destruct vr;
    repeat first
      [ apply preserves_resolveValues | apply preserves_sliceGroup_collect
      | apply preserves_mapOfOnePerScope_collect
      | apply preserves_scopeDepResolver_resolve | preserves_step ].
Qed.

Lemma preserves_resolve_with (in_ : ProviderInput) (scope : option Scope)
    (caller : Location) :
  preserves I (resolve_with callf in_ scope caller).
Proof.
  unfold resolve_with, typeGraphNode, markGraphNodeAsUsed, markGraphNodeAsFailed.
  repeat first [ apply preserves_resolver_resolve | preserves_step ].
Qed.

End PreservingResolving.

Lemma preserves_call_inputs
    (resolvef : ProviderInput → option Scope → Location → M Value)
    (ins : list ProviderInput) (scope : option Scope) (loc : Location) :
  (∀ in_ sc caller, preserves I (resolvef in_ sc caller)) →
  preserves I (call_inputs resolvef ins scope loc).
Proof.
  intros Hres. induction ins as [|in_ ins IH]; simpl; [apply preserves_ret|].
  apply preserves_bind; [apply Hres|intros val].
  apply preserves_bind; [apply IH|intros vals]. apply preserves_ret.
Qed.

(** For [resolve] and [call] it is enough that [call], at each fuel,
    preserves [I] when the resolution it calls into does. *)
Hypothesis call_with_preserves :
  ∀ fuel constructor scope,
    (∀ in_ sc caller, preserves I (resolve fuel in_ sc caller)) →
    preserves I (call_with (resolve fuel) constructor scope).

Lemma preserves_resolve (fuel : nat) (in_ : ProviderInput) (scope : option Scope)
    (caller : Location) :
  preserves I (resolve fuel in_ scope caller).
Proof.
  revert in_ scope caller. induction fuel as [|fuel IH]; intros in_ scope caller;
    rewrite resolve_unfold; apply preserves_resolve_with; intros constructor sc.
  - apply preserves_starved.
  - apply call_with_preserves. apply IH.
Qed.

Lemma preserves_call (fuel : nat) (constructor : ProviderDescriptor)
    (scope : option Scope) :
  preserves I (call fuel constructor scope).
Proof. apply call_with_preserves. apply preserves_resolve. Qed.

Lemma preserves_supply (value : Value) (location : Location) :
  preserves I (supply value location).
Proof.
  unfold supply, locationGraphNode, typeGraphNode, addGraphEdge, markGraphNodeAsUsed.
  repeat preserves_step.
Qed.

Lemma preserves_addNode_inputs (gn : gnode) (ins : list ProviderInput) (b : bool) :
  preserves I (addNode_inputs gn ins b).
Proof.
  revert b. induction ins as [|in_ ins IH]; intros b; simpl; [apply preserves_ret|].
  unfold typeGraphNode, addGraphEdge. repeat first [ apply IH | preserves_step ].
Qed.

Lemma preserves_addNode_output (node : nat) (gn : gnode) (i : nat)
    (out : ProviderOutput) :
  preserves I (addNode_output node gn i out).
Proof.
  unfold addNode_output, typeGraphNode, addGraphEdge, SetComment, set_resolver,
    new_groupResolver, new_onePerScopeResolver.
  repeat first
    [ apply preserves_resolver_addNode | apply preserves_groupResolver_addNode
    | apply preserves_onePerScopeResolver_addNode | preserves_step ].
Qed.

Lemma preserves_addNode_outputs (node : nat) (gn : gnode) (i : nat)
    (outs : list ProviderOutput) :
  preserves I (addNode_outputs node gn i outs).
Proof.
  revert i. induction outs as [|out outs IH]; intros i; simpl; [apply preserves_ret|].
  apply preserves_bind; [apply preserves_addNode_output|intros _; apply IH].
Qed.

Lemma preserves_addNode_scoped_outputs (constructor : ProviderDescriptor)
    (node : nat) (gn : gnode) (i : nat) (outs : list ProviderOutput) :
  preserves I (addNode_scoped_outputs constructor node gn i outs).
Proof.
  revert i. induction outs as [|out outs IH]; intros i; simpl; [apply preserves_ret|].
  apply preserves_bind; [|intros _; apply IH].
  unfold addNode_scoped_output, typeGraphNode, addGraphEdge, set_resolver,
    new_scopeDepResolver.
  repeat preserves_step.
Qed.

Lemma preserves_addNode (constructor : ProviderDescriptor) (scope : option Scope) :
  preserves I (addNode constructor scope).
Proof.
  unfold addNode, locationGraphNode, new_simpleProvider, new_scopeDepProvider.
  repeat first
    [ apply preserves_addNode_inputs | apply preserves_addNode_outputs
    | apply preserves_addNode_scoped_outputs | preserves_step ].
Qed.

Lemma preserves_run (fuel : nat) (inv : invoker) : preserves I (run fuel inv).
Proof.
  unfold run.
  repeat first
    [ apply preserves_addNode | apply preserves_resolveValues; apply preserves_call
    | preserves_step ].
Qed.

End PreservingMethods.

(** No method but [createOrGetScope] writes to the scope table. *)

Lemma scopes_ignore_bookkeeping (table : gmap string Scope) :
  ignores_bookkeeping (λ c, scopes c = table).
Proof. intros c c' Hs _ _ Hc. congruence. Qed.

Lemma scopes_call_with (table : gmap string Scope)
    (resolvef : ProviderInput → option Scope → Location → M Value)
    (constructor : ProviderDescriptor) (scope : option Scope) :
  (∀ in_ sc caller, preserves (λ c, scopes c = table) (resolvef in_ sc caller)) →
  preserves (λ c, scopes c = table) (call_with resolvef constructor scope).
Proof.
  intros Hres. pose proof (scopes_ignore_bookkeeping table) as Hbk.
  unfold call_with, locationGraphNode, markGraphNodeAsUsed, markGraphNodeAsFailed.
  repeat first
    [ apply preserves_call_inputs; exact Hres
    | apply preserves_modify; intros ? Hc; exact Hc
    | preserves_step ].
Qed.

Lemma scopes_supply (value : Value) (location : Location) :
  keeps_scopes (supply value location).
Proof.
  intros c. by apply (preserves_supply _ (scopes_ignore_bookkeeping (scopes c))).
Qed.

Lemma scopes_addNode (constructor : ProviderDescriptor) (scope : option Scope) :
  keeps_scopes (addNode constructor scope).
Proof.
  intros c. by apply (preserves_addNode _ (scopes_ignore_bookkeeping (scopes c))).
Qed.

Lemma scopes_resolve (fuel : nat) (in_ : ProviderInput) (scope : option Scope)
    (caller : Location) :
  keeps_scopes (resolve fuel in_ scope caller).
Proof.
  intros c. by apply (preserves_resolve _ (scopes_ignore_bookkeeping (scopes c))
                        (λ f, scopes_call_with (scopes c) (resolve f))).
Qed.

Lemma scopes_call (fuel : nat) (constructor : ProviderDescriptor)
    (scope : option Scope) :
  keeps_scopes (call fuel constructor scope).
Proof.
  intros c. by apply (preserves_call _ (scopes_ignore_bookkeeping (scopes c))
                        (λ f, scopes_call_with (scopes c) (resolve f))).
Qed.

Lemma scopes_run (fuel : nat) (inv : invoker) : keeps_scopes (run fuel inv).
Proof.
  intros c. by apply (preserves_run _ (scopes_ignore_bookkeeping (scopes c))
                        (λ f, scopes_call_with (scopes c) (resolve f))).
Qed.

Lemma perform_keeps_scope (m : method) (name : string) (s : Scope) (c : container) :
  scopes c !! name = Some s → scopes (perform m c) !! name = Some s.
Proof.
  intros Hs. destruct m; simpl.
  - by rewrite scopes_supply.
  - by rewrite scopes_addNode.
  - by rewrite scopes_run.
  - by rewrite scopes_call.
  - by rewrite scopes_resolve.
  - by apply createOrGetScope_keeps.
Qed.

Lemma perform_all_keeps_scope (ms : list method) (name : string) (s : Scope)
    (c : container) :
  scopes c !! name = Some s → scopes (perform_all ms c) !! name = Some s.
Proof.
  revert c. induction ms as [|m ms IH]; intros c Hs; simpl; [done|].
  apply IH. by apply perform_keeps_scope.
Qed.

(** C9.  The first lookup of a name returns a scope and memoizes it; the
    lookup repeated at once, or after any calls of the container's
    methods, returns the very same scope object and leaves the container
    as it is. *)
Theorem createOrGetScope_idempotent (name : string) (c : container) :
  ∃ s : Scope,
    (createOrGetScope name c).2 = Ret s
    ∧ scopes (createOrGetScope name c).1 !! name = Some s
    ∧ createOrGetScope name (createOrGetScope name c).1
      = ((createOrGetScope name c).1, Ret s)
    ∧ (∀ ms : list method,
         let c' := perform_all ms (createOrGetScope name c).1 in
         createOrGetScope name c' = (c', Ret s))
    ∧ match scopes c !! name with
      | Some s0 => s = s0 ∧ (createOrGetScope name c).1 = c
      | None => s = {| scope_addr := scopesMade (heap c); scope_Name := name |}
      end.
Proof.
  destruct (createOrGetScope_returns name c) as [s [Hret Hmemo]].
  exists s. split; [done|]. split; [done|]. split.
  { by apply createOrGetScope_known. }
  split.
  { intros ms c'. apply createOrGetScope_known.
    by apply perform_all_keeps_scope. }
  destruct (scopes c !! name) as [s0|] eqn:Hs.
  - rewrite (createOrGetScope_known _ _ _ Hs) in Hret |- *. simpl in *.
    split; [congruence|done].
  - rewrite (createOrGetScope_new _ _ Hs) in Hret. simpl in Hret. congruence.
Qed.

(** A scope made by [createOrGetScope] differs from every scope the
    container already holds, as long as those were made by it too. *)
Lemma createOrGetScope_fresh (name : string) (c : container) :
  (∀ other s', scopes c !! other = Some s' → scope_addr s' < scopesMade (heap c)) →
  scopes c !! name = None →
  ∀ other s' s, scopes c !! other = Some s' →
    (createOrGetScope name c).2 = Ret s → s ≠ s'.
Proof.
  intros Hinv Hnone other s' s Hother Hret.
  rewrite (createOrGetScope_new _ _ Hnone) in Hret. simpl in Hret.
  injection Hret as Hs. intros Heq. subst s'.
  specialize (Hinv _ _ Hother). rewrite <- Hs in Hinv. simpl in Hinv. lia.
Qed.

(** *** Provider invocation *)

(** C3, as the code has it.  A provider whose location is already in
    [callerMap] is not invoked: once the graph node of the location has
    been found, [call] fails with the cyclic-dependency error, whose text
    names the provider's own location on both sides of the arrow. *)
Theorem call_cyclic_dependency (fuel : nat) (constructor : ProviderDescriptor)
    (scope : option Scope) (c : container) :
  callerMap c !! pd_Location constructor = Some true →
  call fuel constructor scope c =
    match graph_locationNode (pd_Location constructor) scope (config c) with
    | (g, inl n) =>
        (with_config (node_SetColor n "red" g) c,
         Fail (cyclicDependencyError (pd_Location constructor)))
    | (g, inr e) => (with_config g c, Fail e)
    end.
Proof.
  intros Hin. unfold call, call_with, bind, locationGraphNode, lift_graph.
  destruct (graph_locationNode _ _ _) as [g [n|e]]; [|done].
  simpl. by rewrite Hin.
Qed.

(** *** Registration *)

Lemma locationGraphNode_ok (loc : Location) (scope : option Scope) (c : container) :
  graph_ok → ∃ g n, locationGraphNode loc scope c = (with_config g c, Ret n).
Proof.
  intros [Hloc _]. destruct (Hloc loc scope (config c)) as [g [n Hg]].
  exists g, n. unfold locationGraphNode, lift_graph. by rewrite Hg.
Qed.

Lemma typeGraphNode_ok (typ : rtype) (c : container) :
  graph_ok → ∃ g n, typeGraphNode typ c = (with_config g c, Ret n).
Proof.
  intros [_ Hty]. destruct (Hty typ (config c)) as [g [n Hg]].
  exists g, n. unfold typeGraphNode, lift_graph. by rewrite Hg.
Qed.

Lemma addNode_inputs_result (gn : gnode) (ins : list ProviderInput) (b b' : bool)
    (c c' : container) :
  addNode_inputs gn ins b c = (c', Ret b') → b' = b || hasScopeInput ins.
Proof.
  revert b c. induction ins as [|in_ ins IH]; intros b c; simpl.
  - unfold ret. intros [= _ <-]. by rewrite orb_false_r.
  - unfold bind. destruct (typeGraphNode _ c) as [c1 [n| | |]]; try done.
    simpl. intros Hrest. apply IH in Hrest. rewrite Hrest.
    destruct (decide (in_Type in_ = scopeType)) as [Heq|Hne].
    + rewrite bool_decide_eq_true_2 by done. by rewrite orb_true_r.
    + rewrite bool_decide_eq_false_2 by done. done.
Qed.

Lemma addNode_inputs_ok (gn : gnode) (ins : list ProviderInput) (b : bool)
    (c : container) :
  graph_ok →
  ∃ g, addNode_inputs gn ins b c = (with_config g c, Ret (b || hasScopeInput ins)).
Proof.
  intros Hok. revert b c. induction ins as [|in_ ins IH]; intros b c; simpl.
  - exists (config c). unfold ret. rewrite orb_false_r. by destruct c.
  - destruct (typeGraphNode_ok (in_Type in_) c Hok) as [g [n Hg]].
    unfold bind. rewrite Hg. unfold addGraphEdge, modify. simpl.
    match goal with
    | |- context [addNode_inputs gn ins ?b0 ?c0] =>
        destruct (IH b0 c0) as [g' Hrest]
    end.
    exists g'. rewrite Hrest. simpl. f_equal. f_equal.
    destruct (decide (in_Type in_ = scopeType)) as [Heq|Hne].
    + rewrite bool_decide_eq_true_2 by done. by rewrite orb_true_r.
    + rewrite bool_decide_eq_false_2 by done. done.
Qed.

(** C10.  An invoker with an input of the scope type is registered, with
    no scope binding, as a scope-dependent provider; [run] then stops with
    an error before it resolves anything: all that has changed in the
    container is the diagnostic graph and the one node just allocated,
    whatever the fuel. *)
Theorem run_scoped_invoker (fuel : nat) (inv : invoker)
    (rctr : ProviderDescriptor) (c : container) :
  graph_ok →
  ExtractProviderDescriptor inv = inl rctr →
  Outputs rctr = [] →
  hasScopeInput (Inputs rctr) = true →
  ∃ g,
    run fuel inv c =
      (with_heap
         (with_scopeDepProviders
            (scopeDepProviders (heap c)
               ++ [{| sdp_provider := rctr; sdp_calledForScope := ∅;
                      sdp_valueMap := ∅ |}])
            (heap c))
         (with_config g c),
       Fail "cannot run scoped provider as an invoker").
Proof.
  intros Hok Hex Hout Hscope. unfold run. rewrite Hex, Hout. simpl.
  unfold addNode, bind.
  destruct (locationGraphNode_ok (pd_Location rctr) None c Hok) as [g1 [n1 Hg1]].
  rewrite Hg1.
  destruct (addNode_inputs_ok n1 (Inputs rctr) false (with_config g1 c) Hok)
    as [g2 Hg2].
  rewrite Hg2, Hscope, Hout. simpl.
  by exists g2.
Qed.

Lemma with_config_twice (g g' : graph) (c : container) :
  with_config g' (with_config g c) = with_config g' c.
Proof. reflexivity. Qed.

(** The scoped branch of [addNode], one output at a time. *)







(** The simple branch of [addNode], one output at a time. *)

Lemma addNode_output_forbidden (node : nat) (gn : gnode) (i : nat)
    (out : ProviderOutput) (c : container) :
  isOnePerScopeMap (out_Type out) = true →
  addNode_output node gn i out c = (c, Fail (returnTypeError (out_Type out))).
Proof. intros Hmap. unfold addNode_output. by rewrite Hmap. Qed.

Lemma addNode_outputs_app (node : nat) (gn : gnode) (i : nat)
    (pre rest : list ProviderOutput) (c : container) :
  addNode_outputs node gn i (pre ++ rest) c =
    match addNode_outputs node gn i pre c with
    | (c1, Ret _) => addNode_outputs node gn (i + length pre) rest c1
    | r => r
    end.
Proof.
  revert i c. induction pre as [|out pre IH]; intros i c; simpl.
  - by rewrite Nat.add_0_r.
  - unfold bind.
    destruct (addNode_output node gn i out c) as [c1 [[]| | |]]; try done.
    rewrite IH. by replace (S i + length pre) with (i + S (length pre)) by lia.
Qed.

Lemma addNode_outputs_forbidden (node : nat) (gn : gnode) (i : nat)
    (pre post : list ProviderOutput) (out : ProviderOutput) (c : container) :
  isOnePerScopeMap (out_Type out) = true →
  addNode_outputs node gn i (pre ++ out :: post) c =
    match addNode_outputs node gn i pre c with
    | (c1, Ret _) => (c1, Fail (returnTypeError (out_Type out)))
    | r => r
    end.
Proof.
  intros Hmap. rewrite addNode_outputs_app.
  destruct (addNode_outputs node gn i pre c) as [c1 [[]| | |]]; try done.
  simpl. unfold bind. by rewrite addNode_output_forbidden.
Qed.

Lemma includes_returnTypeError (typ : rtype) :
  includes (returnTypeError typ) "cannot be used as a return type".
Proof.
  unfold returnTypeError.
  destruct typ as [name| | |elem|key elem]; apply includes_app_r;
    try (by exists " ", "").
  by exists " ", (" because " +:+ type_String elem +:+ " is a one-per-scope type").
Qed.

Lemma registers_simple_branch (constructor : ProviderDescriptor)
    (scope : option Scope) :
  registers_simple constructor scope →
  bool_decide (scope ≠ None) || negb (false || hasScopeInput (Inputs constructor)) = true.
Proof.
  intros [Hs|Hi].
  - by rewrite bool_decide_eq_true_2.
  - rewrite Hi. by rewrite orb_true_r.
Qed.

Lemma SliceOf_neq (t : rtype) : SliceOf t ≠ t.
Proof.
  unfold SliceOf. induction t as [name| | |elem IH|key IHk elem IHe]; try done.
  intros [= Heq]. by apply IH.
Qed.

Lemma lookup_snoc_length {A} (l : list A) (x : A) : (l ++ [x]) !! length l = Some x.
Proof. rewrite lookup_app_r by done. by rewrite Nat.sub_diag. Qed.

Lemma insert_snoc_length {A} (l : list A) (x y : A) :
  <[length l := y]> (l ++ [x]) = l ++ [y].
Proof.
  rewrite insert_app_r_alt by done. by rewrite Nat.sub_diag.
Qed.

Lemma addNode_output_auto_group (node : nat) (gn : gnode) (i : nat)
    (out : ProviderOutput) (c : container) (g : graph) (n : gnode) :
  isOnePerScopeMap (out_Type out) = false →
  isAutoGroupType (unwrapAutoGroupSlice (out_Type out)) = true →
  resolvers c !! unwrapAutoGroupSlice (out_Type out) = None →
  graph_typeNode (SliceOf (unwrapAutoGroupSlice (out_Type out))) (config c) = (g, inl n) →
  addNode_output node gn i out c =
    (with_config (graph_addEdge gn n (node_SetComment n "auto-group" g))
       (install_group (unwrapAutoGroupSlice (out_Type out)) node i c),
     Ret tt).
Proof.
  intros Hmap Hgroup Hnone Hg. unfold addNode_output. rewrite Hmap.
  unfold bind, gets. simpl. rewrite Hnone, Hgroup.
  unfold typeGraphNode, lift_graph. rewrite Hg. simpl.
  unfold groupResolver_addNode, bind, gets. simpl.
  rewrite lookup_snoc_length. simpl.
  unfold install_group. by rewrite insert_snoc_length.
Qed.

(** *** The success path of [call] *)

Lemma keeps_ret {A} (a : A) : keeps_callers (ret a).
Proof. intros c c' a' _ [= <- _]. done. Qed.

Lemma keeps_fail {A} (e : error) : keeps_callers (fail (A:=A) e).
Proof. intros c c' a _ Hrun. discriminate. Qed.

Lemma keeps_panic {A} (msg : string) : keeps_callers (panic (A:=A) msg).
Proof. intros c c' a _ Hrun. discriminate. Qed.

Lemma keeps_starved {A} : keeps_callers (starved (A:=A)).
Proof. intros c c' a _ Hrun. discriminate. Qed.

Lemma keeps_gets {A} (f : container → A) : keeps_callers (gets f).
Proof. intros c c' a _ [= <- _]. done. Qed.

Lemma keeps_modify (f : container → container) :
  (∀ c, callerStack (f c) = callerStack c ∧ callerMap (f c) = callerMap c) →
  keeps_callers (modify f).
Proof. intros Hf c c' a _ [= <- _]. apply Hf. Qed.

Lemma keeps_bind {A B} (m : M A) (k : A → M B) :
  keeps_callers m → (∀ a, keeps_callers (k a)) → keeps_callers (bind m k).
Proof.
  intros Hm Hk c c' b Htrue. unfold bind.
  destruct (m c) as [c1 [a| | |]] eqn:Hrun; try discriminate.
  intros Hrest. destruct (Hm _ _ _ Htrue Hrun) as [Hs1 Hm1].
  assert (Htrue1 : callerMap_true c1).
  { intros l0 b0. rewrite Hm1. apply Htrue. }
  destruct (Hk a _ _ _ Htrue1 Hrest) as [Hs2 Hm2]. split; congruence.
Qed.

Lemma keeps_on_error {A} (m : M A) (handler : M unit) :
  keeps_callers m → keeps_callers (on_error m handler).
Proof.
  intros Hm c c' a Htrue. unfold on_error.
  destruct (m c) as [c1 [a1| | |]] eqn:Hrun; try discriminate.
  - intros [= <- <-]. by apply (Hm _ _ _ Htrue Hrun).
  - unfold bind. destruct (handler c1) as [c2 [[]| | |]]; discriminate.
Qed.

Lemma keeps_lift_graph (f : graph → graph * (gnode + error)) :
  keeps_callers (lift_graph f).
Proof.
  intros c c' a _. unfold lift_graph.
  destruct (f (config c)) as [g [n|e]]; [|discriminate].
  intros [= <- _]. done.
Qed.

Lemma keeps_heap_modify (f : objects → objects) : keeps_callers (heap_modify f).
Proof. by apply keeps_modify. Qed.

Lemma keeps_index_values (values : list Value) (i : nat) :
  keeps_callers (index_values values i).
Proof.
  unfold index_values. destruct (values !! i); [apply keeps_ret|apply keeps_panic].
Qed.

Create HintDb keeps.
#[local] Hint Resolve keeps_ret keeps_fail keeps_panic keeps_starved keeps_gets
  keeps_lift_graph keeps_heap_modify keeps_index_values keeps_on_error : keeps.

(** One step of a proof that a method keeps the callers: split a [bind],
    settle a primitive, or take a [match] or [if] of the code apart. *)
Ltac keeps_step :=
  match goal with
  | |- keeps_callers (bind _ _) => apply keeps_bind; [|intros ?]
  | |- keeps_callers (modify _) => apply keeps_modify; intros ?; split; reflexivity
  | |- keeps_callers (match ?x with _ => _ end) => destruct x
  | |- keeps_callers (if ?x then _ else _) => destruct x
  | |- keeps_callers (let '(_, _) := ?x in _) => destruct x
  | |- keeps_callers _ => solve [eauto with keeps]
  end.

Section KeepsResolving.
Variable callf : ProviderDescriptor → option Scope → M (list Value).
Hypothesis callf_keeps : ∀ constructor scope, keeps_callers (callf constructor scope).

Lemma keeps_resolveValues (p : nat) :
  keeps_callers (simpleProvider_resolveValues callf p).
Proof. unfold simpleProvider_resolveValues. repeat keeps_step. Qed.

Lemma keeps_sliceGroup_collect (providers : list (nat * nat)) (res : list Value) :
  keeps_callers (sliceGroup_collect callf providers res).
Proof.
  revert res. induction providers as [|[node i] providers IH]; intros res; simpl.
  - apply keeps_ret.
  - apply keeps_bind; [apply keeps_resolveValues|intros values].
    apply keeps_bind; [apply keeps_index_values|intros value].
    destruct value as [t| | | |]; try apply IH. destruct t; apply IH.
Qed.

Lemma keeps_mapOfOnePerScope_collect (providers : list (Scope * nat))
    (idxMap : gmap Scope nat) (res : list (string * Value)) :
  keeps_callers (mapOfOnePerScope_collect callf providers idxMap res).
Proof.
  revert res. induction providers as [|[s node] providers IH]; intros res; simpl.
  - apply keeps_ret.
  - apply keeps_bind; [apply keeps_resolveValues|intros values].
    destruct (idxMap !! s); [|apply keeps_panic].
    apply keeps_bind; [apply keeps_index_values|intros value]. apply IH.
Qed.

Lemma keeps_scopeDepResolver_resolve (r : nat) (scope : option Scope) :
  keeps_callers (scopeDepResolver_resolve callf r scope).
Proof. unfold scopeDepResolver_resolve. repeat keeps_step. Qed.

Lemma keeps_resolver_resolve (vr : resolver) (scope : option Scope)
    (caller : Location) :
  keeps_callers (resolver_resolve callf vr scope caller).
Proof.
  unfold resolver_resolve. destruct vr;
    repeat first
      [ apply keeps_resolveValues | apply keeps_sliceGroup_collect
      | apply keeps_mapOfOnePerScope_collect | apply keeps_scopeDepResolver_resolve
      | keeps_step ].
Qed.

Lemma keeps_resolve_with (in_ : ProviderInput) (scope : option Scope)
    (caller : Location) :
  keeps_callers (resolve_with callf in_ scope caller).
Proof.
  unfold resolve_with, typeGraphNode, markGraphNodeAsUsed, markGraphNodeAsFailed.
  repeat first
    [ apply keeps_resolver_resolve | apply keeps_on_error | keeps_step ].
Qed.

End KeepsResolving.

Lemma drop_last_snoc {A} (l : list A) (x : A) : drop_last (l ++ [x]) = Ret l.
Proof.
  unfold drop_last. destruct (l ++ [x]) as [|y l'] eqn:Heq.
  - by destruct l.
  - rewrite <- Heq. rewrite length_app. simpl.
    replace (length l + 1 - 1) with (length l) by lia.
    by rewrite take_app_length.
Qed.

Section KeepsCalling.
Variable resolvef : ProviderInput → option Scope → Location → M Value.
Hypothesis resolvef_keeps :
  ∀ in_ scope caller, keeps_callers (resolvef in_ scope caller).

Lemma keeps_call_inputs (ins : list ProviderInput) (scope : option Scope)
    (loc : Location) :
  keeps_callers (call_inputs resolvef ins scope loc).
Proof.
  induction ins as [|in_ ins IH]; simpl; [apply keeps_ret|].
  apply keeps_bind; [apply resolvef_keeps|intros val].
  apply keeps_bind; [apply IH|intros vals]. apply keeps_ret.
Qed.

Lemma keeps_call_with (constructor : ProviderDescriptor) (scope : option Scope) :
  keeps_callers (call_with resolvef constructor scope).
Proof.
  intros c c' out Htrue. unfold call_with, bind, locationGraphNode, lift_graph.
  destruct (graph_locationNode _ _ _) as [g [n|e]]; [|discriminate].
  simpl. destruct (callerMap c !! pd_Location constructor) as [b|] eqn:Hloc.
  { rewrite (Htrue _ _ Hloc). simpl. discriminate. }
  simpl.
  match goal with
  | |- context [call_inputs resolvef ?ins ?s ?l ?c0] =>
      destruct (call_inputs resolvef ins s l c0) as [c1 [inVals| | |]] eqn:Hin;
        try discriminate;
      destruct (keeps_call_inputs ins s l c0 c1 inVals) as [Hstack Hmap]; [|done|]
  end.
  { intros l0 b0. simpl.
    destruct (decide (pd_Location constructor = l0)) as [<-|Hne].
    - rewrite lookup_insert_eq. congruence.
    - rewrite lookup_insert_ne by done. apply Htrue. }
  simpl in Hstack, Hmap. simpl. rewrite Hstack, Hmap, drop_last_snoc.
  simpl. destruct (Fn constructor inVals) as [outs [err|]]; [discriminate|].
  simpl. intros [= <- _]. simpl. split; [done|].
  rewrite delete_insert_eq. by apply delete_id.
Qed.

End KeepsCalling.

Lemma keeps_resolve (fuel : nat) (in_ : ProviderInput) (scope : option Scope)
    (caller : Location) :
  keeps_callers (resolve fuel in_ scope caller).
Proof.
  revert in_ scope caller. induction fuel as [|fuel IH]; intros in_ scope caller;
    rewrite resolve_unfold; apply keeps_resolve_with; intros constructor sc.
  - apply keeps_starved.
  - apply keeps_call_with. apply IH.
Qed.

(** X18.  The success path of [call]: whenever [call] returns outputs, the
    provider's location has been removed again; [callerStack] and
    [callerMap] are what they were before the call. *)
Theorem call_success_removes_caller (fuel : nat) (constructor : ProviderDescriptor)
    (scope : option Scope) (c c' : container) (out : list Value) :
  callerMap_true c →
  call fuel constructor scope c = (c', Ret out) →
  callerStack c' = callerStack c
  ∧ callerMap c' = callerMap c
  ∧ callerMap c' !! pd_Location constructor = None.
Proof.
  intros Htrue Hrun.
  destruct (keeps_call_with (resolve fuel) (keeps_resolve fuel) constructor scope
              c c' out Htrue Hrun) as [Hstack Hmap].
  split; [done|]. split; [done|]. rewrite Hmap.
  revert Hrun. unfold call, call_with, bind, locationGraphNode, lift_graph.
  destruct (graph_locationNode _ _ _) as [g [n|e]]; [|discriminate].
  simpl. destruct (callerMap c !! pd_Location constructor) as [b|] eqn:Hloc; [|done].
  rewrite (Htrue _ _ Hloc). simpl. discriminate.
Qed.

(** The error path of [call]: when the first input is required, is not
    of the scope type and has no resolver, [call] returns that input's
    error with the provider's location still in [callerMap] and on top of
    [callerStack]. *)
Lemma call_unresolved_input_keeps_caller (fuel : nat)
    (constructor : ProviderDescriptor) (scope : option Scope) (c : container)
    (in_ : ProviderInput) (rest : list ProviderInput)
    (g g' : graph) (n n' : gnode) :
  callerMap c !! pd_Location constructor = None →
  Inputs constructor = in_ :: rest →
  in_Optional in_ = false →
  in_Type in_ ≠ scopeType →
  resolvers c !! in_Type in_ = None →
  graph_locationNode (pd_Location constructor) scope (config c) = (g, inl n) →
  graph_typeNode (in_Type in_) (node_SetColor n "red" g) = (g', inl n') →
  ∃ c' msg,
    call fuel constructor scope c = (c', Fail msg)
    ∧ callerMap c' !! pd_Location constructor = Some true
    ∧ callerStack c' = callerStack c ++ [pd_Location constructor].
Proof.
  intros Hloc Hins Hreq Hty Hnone Hg Hg'.
  unfold call, call_with, bind, locationGraphNode, lift_graph.
  rewrite Hg. simpl. rewrite Hloc, Hins. simpl. unfold bind.
  match goal with
  | |- context [resolve fuel in_ scope ?l ?c0] =>
      pose proof (resolve_no_resolver_run fuel in_ scope l c0 g' n' Hty Hnone Hg')
        as Hres
  end.
  rewrite Hres, Hreq. simpl.
  eexists _, _. split; [reflexivity|]. simpl. by rewrite lookup_insert_eq.
Qed.

(** *** The callers stay in sync *)

Lemma sync_same_callers (c c' : container) :
  callerStack c' = callerStack c → callerMap c' = callerMap c →
  callers_in_sync c → callers_in_sync c'.
Proof.
  intros Hst Hm [Htrue [Hnd Hiff]]. unfold callers_in_sync, callerMap_true.
  rewrite Hst, Hm. split; [exact Htrue|]. split; [exact Hnd|exact Hiff].
Qed.

Lemma sync_ignores_bookkeeping : ignores_bookkeeping callers_in_sync.
Proof. intros c c' _ Hst Hm. by apply sync_same_callers. Qed.

Lemma sync_push (loc : Location) (c : container) :
  callers_in_sync c → callerMap c !! loc = None →
  callers_in_sync
    (with_callerStack (callerStack c ++ [loc])
       (with_callerMap (<[loc := true]> (callerMap c)) c)).
Proof.
  intros [Htrue [Hnd Hiff]] Hnone. unfold callers_in_sync, callerMap_true. simpl.
  split; [|split].
  - intros l b. destruct (decide (loc = l)) as [<-|Hne].
    + rewrite lookup_insert_eq. congruence.
    + rewrite lookup_insert_ne by done. apply Htrue.
  - apply list.NoDup_app. split; [done|].
    split; [|apply list.NoDup_singleton].
    intros l Hl Hin. apply list_elem_of_singleton in Hin. subst l.
    apply Hiff in Hl. congruence.
  - intros l. rewrite elem_of_app, list_elem_of_singleton, Hiff.
    destruct (decide (loc = l)) as [<-|Hne].
    + rewrite lookup_insert_eq. split; [done|by right].
    + rewrite lookup_insert_ne by done.
      split; [by intros [Hl| ->]|by left].
Qed.

Lemma sync_call_with (fuel : nat) (constructor : ProviderDescriptor)
    (scope : option Scope) :
  (∀ in_ sc caller, preserves callers_in_sync (resolve fuel in_ sc caller)) →
  preserves callers_in_sync (call_with (resolve fuel) constructor scope).
Proof.
  intros Hres c Hsync. unfold call_with, bind, locationGraphNode, lift_graph.
  destruct (graph_locationNode _ _ _) as [g [n|e]];
    [|by apply (sync_same_callers c)].
  simpl. destruct (callerMap c !! pd_Location constructor) as [b|] eqn:Hloc.
  { rewrite (proj1 Hsync _ _ Hloc). simpl. by apply (sync_same_callers c). }
  simpl.
  assert (Hpush : callers_in_sync
            (with_callerStack (callerStack c ++ [pd_Location constructor])
               (with_callerMap (<[pd_Location constructor := true]> (callerMap c))
                  (with_config (node_SetColor n "red" g) (with_config g c))))).
  { apply (sync_push (pd_Location constructor)
             (with_config (node_SetColor n "red" g) (with_config g c)));
      [by apply (sync_same_callers c)|done]. }
  match goal with
  | |- context [call_inputs (resolve fuel) ?ins ?s ?l ?c0] =>
      pose proof (preserves_call_inputs callers_in_sync (resolve fuel) ins s l
                    Hres c0 Hpush) as Hpres;
      pose proof (keeps_call_inputs (resolve fuel) (keeps_resolve fuel) ins s l c0)
        as Hkeeps;
      destruct (call_inputs (resolve fuel) ins s l c0) as [c1 [inVals| | |]]
  end; try exact Hpres.
  destruct (Hkeeps c1 inVals (proj1 Hpush) eq_refl) as [Hst Hm].
  simpl in Hst, Hm. simpl. rewrite Hst, drop_last_snoc. simpl.
  assert (Hfinal : ∀ c', callerStack c' = callerStack c →
            callerMap c' = delete (pd_Location constructor) (callerMap c1) →
            callers_in_sync c').
  { intros c' Hst' Hm'. apply (sync_same_callers c); [done| |done].
    rewrite Hm', Hm, delete_insert_eq. by apply delete_id. }
  destruct (Fn constructor inVals) as [outs [err|]]; simpl; by apply Hfinal.
Qed.

Lemma sync_createOrGetScope (name : string) :
  preserves callers_in_sync (createOrGetScope name).
Proof.
  intros c Hsync. destruct (scopes c !! name) as [s|] eqn:Hs.
  - by rewrite (createOrGetScope_known _ _ _ Hs).
  - rewrite (createOrGetScope_new _ _ Hs). by apply (sync_same_callers c).
Qed.

Lemma sync_perform (m : method) : ∀ c, callers_in_sync c → callers_in_sync (perform m c).
Proof.
  pose proof sync_ignores_bookkeeping as Hbk. pose proof sync_call_with as Hcall.
  destruct m; simpl.
  - by apply preserves_supply.
  - by apply preserves_addNode.
  - by apply preserves_run.
  - by apply preserves_call.
  - by apply preserves_resolve.
  - apply sync_createOrGetScope.
Qed.

(** X19.  Invariant 5 of the data model holds of every container the methods
    can produce, also after calls that returned an error: a location is
    in [callerMap] exactly when it is on [callerStack]. *)
Theorem callers_always_in_sync (cfg : graph) (ms : list method) :
  callers_in_sync (perform_all ms (newContainer cfg)).
Proof.
  assert (Hstart : callers_in_sync (newContainer cfg)).
  { unfold callers_in_sync, callerMap_true. simpl. split; [|split].
    - intros l b. by rewrite lookup_empty.
    - apply NoDup_nil_2.
    - intros l. rewrite lookup_empty. split; [by intros ?%elem_of_nil|done]. }
  revert Hstart. generalize (newContainer cfg).
  induction ms as [|m ms IH]; intros c Hsync; simpl; [done|].
  apply IH. by apply sync_perform.
Qed.

End Properties.

(** * Further properties of the container *)

Section Registration.
Context {collab : Collaborators}.

(** ** [supply] *)

(** X1.  [supply] registers the value under its type when the registry has
    no resolver for the type, and otherwise fails with the
    duplicate-definition error and leaves the registry as it is; so of two
    values of one type supplied in turn, the first stays registered. *)
Theorem supply_registers_once (value : Value) (location : Location)
    (c : container) :
  graph_ok →
  let typ := value_Type value in
  match resolvers c !! typ with
  | Some existing =>
      ∃ g, supply value location c =
             (with_config g c,
              Fail (duplicateDefinitionError typ location
                      (describeLocation (heap c) existing)))
  | None =>
      ∃ g, supply value location c =
             (with_config g
                (with_resolvers
                   (<[typ := SupplyResolver typ value location]> (resolvers c)) c),
              Ret tt)
           ∧ ∀ value' location',
               value_Type value' = typ →
               ∃ g' e,
                 supply value' location' (supply value location c).1 =
                   (with_config g' (supply value location c).1, Fail e)
  end.
Proof.
  intros Hok typ.
  assert (Hdup : ∀ v l c0 existing,
    resolvers c0 !! value_Type v = Some existing →
    ∃ g, supply v l c0 =
           (with_config g c0,
            Fail (duplicateDefinitionError (value_Type v) l
                    (describeLocation (heap c0) existing)))).
  { intros v l c0 existing Hex. unfold supply, bind.
    destruct (locationGraphNode_ok l None c0 Hok) as [g1 [n1 Hg1]]. rewrite Hg1.
    unfold markGraphNodeAsUsed, modify. simpl.
    match goal with
    | |- context [typeGraphNode ?t ?c1] =>
        destruct (typeGraphNode_ok t c1 Hok) as [g2 [n2 Hg2]]
    end.
    rewrite Hg2. unfold addGraphEdge, modify, gets. simpl. rewrite Hex.
    by eexists. }
  destruct (resolvers c !! typ) as [existing|] eqn:Hlook.
  - by apply Hdup.
  - assert (Hrun : ∃ g, supply value location c =
             (with_config g
                (with_resolvers
                   (<[typ := SupplyResolver typ value location]> (resolvers c)) c),
              Ret tt)).
    { unfold supply, bind.
      destruct (locationGraphNode_ok location None c Hok) as [g1 [n1 Hg1]].
      rewrite Hg1. unfold markGraphNodeAsUsed, modify. simpl.
      match goal with
      | |- context [typeGraphNode ?t ?c1] =>
          destruct (typeGraphNode_ok t c1 Hok) as [g2 [n2 Hg2]]
      end.
      rewrite Hg2. unfold addGraphEdge, modify, gets. simpl. fold typ.
      rewrite Hlook. by eexists. }
    destruct Hrun as [g Hrun]. exists g. split; [done|].
    intros value' location' Hty. rewrite Hrun. simpl.
    destruct (Hdup value' location'
                (with_config g
                   (with_resolvers
                      (<[typ := SupplyResolver typ value location]> (resolvers c)) c))
                (SupplyResolver typ value location)) as [g' Hsec].
    { simpl. rewrite Hty. apply lookup_insert_eq. }
    by eexists _, _.
Qed.

(** ** [addNode] *)

(** The graph hooks and the input loop of [addNode] write to the graph
    only. *)
Lemma lift_graph_config (f : graph → graph * (gnode + error)) (c : container) :
  ∃ g, (lift_graph f c).1 = with_config g c.
Proof.
  unfold lift_graph. destruct (f (config c)) as [g [n|e]]; by exists g.
Qed.

Lemma addNode_inputs_config (gn : gnode) (ins : list ProviderInput) (b : bool)
    (c : container) :
  ∃ g, (addNode_inputs gn ins b c).1 = with_config g c.
Proof.
  revert b c. induction ins as [|in_ ins IH]; intros b c; simpl.
  - exists (config c). by destruct c.
  - unfold bind, typeGraphNode.
    destruct (lift_graph_config (graph_typeNode (in_Type in_)) c) as [g Hg].
    destruct (lift_graph _ c) as [c1 [n| | |]]; simpl in Hg; subst c1;
      try by exists g.
    unfold addGraphEdge, modify. simpl.
    match goal with
    | |- context [addNode_inputs gn ins ?b0 ?c0] =>
        destruct (IH b0 c0) as [g' Hg']
    end.
    exists g'. by rewrite Hg'.
Qed.

(** X2.  The node that a successful [addNode] returns is a new
    [simpleProvider] when the provider is bound to a scope or has no input
    of the scope type, and a new [scopeDepProvider] otherwise. *)
Theorem addNode_node_kind (constructor : ProviderDescriptor)
    (scope : option Scope) (c c' : container) (node : node_ref) :
  addNode constructor scope c = (c', Ret node) →
  node =
    if bool_decide (scope ≠ None) || negb (hasScopeInput (Inputs constructor))
    then SimpleProviderRef (length (simpleProviders (heap c)))
    else ScopeDepProviderRef (length (scopeDepProviders (heap c))).
Proof.
  unfold addNode, bind, locationGraphNode.
  destruct (lift_graph_config (graph_locationNode (pd_Location constructor) scope) c)
    as [g1 Hg1].
  destruct (lift_graph _ c) as [c1 [n1| | |]]; try discriminate.
  simpl in Hg1. subst c1.
  destruct (addNode_inputs_config n1 (Inputs constructor) false (with_config g1 c))
    as [g2 Hg2].
  destruct (addNode_inputs _ _ _ _) as [c2 [b| | |]] eqn:Hin; try discriminate.
  simpl in Hg2. subst c2.
  pose proof (addNode_inputs_result _ _ _ _ _ _ Hin) as ->. simpl.
  destruct (bool_decide (scope ≠ None) || negb (hasScopeInput (Inputs constructor))).
  - simpl. destruct (lift_graph _ _) as [c3 [n3| | |]]; try discriminate.
    destruct (addNode_outputs _ _ _ _ c3) as [c4 [[]| | |]]; try discriminate.
    by intros [= _ <-].
  - simpl.
    destruct (addNode_scoped_outputs _ _ _ _ _ _) as [c4 [[]| | |]];
      try discriminate.
    by intros [= _ <-].
Qed.

Lemma unwrapAutoGroupSlice_plain (typ : rtype) :
  isAutoGroupType (unwrapAutoGroupSlice typ) = false → unwrapAutoGroupSlice typ = typ.
Proof.
  destruct typ as [name| | |elem|key elem]; simpl; try done.
  destruct (isAutoGroupType elem) eqn:Helem; [congruence|done].
Qed.

Lemma addNode_output_plain (node : nat) (gn : gnode) (i : nat)
    (out : ProviderOutput) (c : container) :
  graph_ok → plain_output out →
  resolvers c !! out_Type out = None →
  ∃ g idx,
    addNode_output node gn i out c =
      (with_config g
         (with_resolvers
            (<[out_Type out := SimpleResolver node idx (out_Type out)]> (resolvers c))
            c),
       Ret tt).
Proof.
  intros Hok [Hmap [Hgroup Hone]] Hnone. unfold addNode_output.
  pose proof (unwrapAutoGroupSlice_plain _ Hgroup) as Hun.
  rewrite Hmap, Hun. rewrite Hun in Hgroup, Hone.
  unfold bind, gets. simpl. rewrite Hnone, Hgroup, Hone.
  destruct (typeGraphNode_ok (out_Type out) c Hok) as [g [n Hg]].
  rewrite Hg. simpl. by eexists _, _.
Qed.

(** What the output loop of a [simpleProvider] leaves when all outputs
    are of plain, distinct types without a resolver. *)
Lemma addNode_outputs_plain (node : nat) (gn : gnode) (outs : list ProviderOutput) :
  graph_ok →
  ∀ (i : nat) (c : container),
    (∀ out, out ∈ outs → plain_output out) →
    NoDup (out_Type <$> outs) →
    (∀ out, out ∈ outs → resolvers c !! out_Type out = None) →
    ∃ c',
      addNode_outputs node gn i outs c = (c', Ret tt)
      ∧ (∀ out, out ∈ outs →
           ∃ vr, resolvers c' !! out_Type out = Some vr
                 ∧ simple_resolver_of node (out_Type out) vr)
      ∧ (∀ typ, typ ∉ (out_Type <$> outs) → resolvers c' !! typ = resolvers c !! typ)
      ∧ heap c' = heap c.
Proof.
  intros Hok. induction outs as [|out outs IH]; intros i c Hplain Hnd Hfresh.
  - exists c. simpl. repeat split; try done. intros out Hin. by apply elem_of_nil in Hin.
  - rewrite fmap_cons in Hnd.
    pose proof (NoDup_cons_1_1 _ _ Hnd) as Hhead. apply NoDup_cons_1_2 in Hnd.
    destruct (addNode_output_plain node gn i out c Hok) as [g [idx Hstep]].
    { apply Hplain. by left. }
    { apply Hfresh. by left. }
    match type of Hstep with
    | _ = (?c1, _) =>
        destruct (IH (S i) c1) as [c' [Hrun [Hinst [Hother Hheap]]]]
    end.
    { intros out' Hin'. apply Hplain. by right. }
    { done. }
    { intros out' Hin'. simpl. rewrite lookup_insert_ne.
      - apply Hfresh. by right.
      - intros Heq. apply Hhead. rewrite Heq. by apply list_elem_of_fmap_2. }
    exists c'. simpl. unfold bind. rewrite Hstep. split; [done|].
    split; [|split].
    + intros out' Hin'. apply elem_of_cons in Hin' as [->|Hin'].
      * rewrite (Hother _ Hhead). simpl. rewrite lookup_insert_eq.
        eexists. split; [done|]. by exists idx.
      * by apply Hinst.
    + intros typ Hnot. rewrite ?fmap_cons in Hnot.
      apply not_elem_of_cons in Hnot as [Hne Hnot].
      rewrite (Hother _ Hnot). simpl. by rewrite lookup_insert_ne.
    + by rewrite Hheap.
Qed.

(** The container at the start of the output loop of a [simpleProvider]. *)
Lemma addNode_simple_prefix (constructor : ProviderDescriptor)
    (scope : option Scope) (c : container) :
  graph_ok → registers_simple constructor scope →
  ∃ g gn,
    let node := length (simpleProviders (heap c)) in
    let c0 :=
      with_heap
        (with_simpleProviders
           (simpleProviders (heap c)
              ++ [{| sp_provider := constructor; sp_scope := scope;
                     sp_called := false; sp_values := [] |}])
           (heap c))
        (with_config g c) in
    addNode constructor scope c =
      match addNode_outputs node gn 0 (Outputs constructor) c0 with
      | (c', Ret _) => (c', Ret (SimpleProviderRef node))
      | (c', Fail e) => (c', Fail e)
      | (c', Panic m) => (c', Panic m)
      | (c', Starved) => (c', Starved)
      end.
Proof.
  intros Hok Hsimple. unfold addNode, bind.
  destruct (locationGraphNode_ok (pd_Location constructor) scope c Hok)
    as [g1 [n1 Hg1]].
  rewrite Hg1.
  destruct (addNode_inputs_ok n1 (Inputs constructor) false (with_config g1 c) Hok)
    as [g2 Hg2].
  rewrite Hg2, (registers_simple_branch _ _ Hsimple). simpl.
  match goal with
  | |- context [locationGraphNode ?l ?s ?c0] =>
      destruct (locationGraphNode_ok l s c0 Hok) as [g3 [n3 Hg3]]
  end.
  rewrite Hg3. exists g3, n3. simpl.
  by destruct (addNode_outputs _ _ _ _ _) as [c' [[]| | |]].
Qed.

(** X3.  A provider registered as a [simpleProvider] whose outputs are of
    plain, distinct types without a resolver is registered in full: every
    output type gets the simple resolver of the new node, and no other
    entry of the registry changes. *)
Theorem addNode_plain_outputs (constructor : ProviderDescriptor)
    (scope : option Scope) (c : container) :
  graph_ok → registers_simple constructor scope →
  (∀ out, out ∈ Outputs constructor → plain_output out) →
  NoDup (out_Type <$> Outputs constructor) →
  (∀ out, out ∈ Outputs constructor → resolvers c !! out_Type out = None) →
  let node := length (simpleProviders (heap c)) in
  ∃ c',
    addNode constructor scope c = (c', Ret (SimpleProviderRef node))
    ∧ simpleProviders (heap c') !! node =
        Some {| sp_provider := constructor; sp_scope := scope;
                sp_called := false; sp_values := [] |}
    ∧ (∀ out, out ∈ Outputs constructor →
         ∃ vr, resolvers c' !! out_Type out = Some vr
               ∧ simple_resolver_of node (out_Type out) vr)
    ∧ (∀ typ, typ ∉ (out_Type <$> Outputs constructor) →
         resolvers c' !! typ = resolvers c !! typ).
Proof.
  intros Hok Hsimple Hplain Hnd Hfresh node.
  destruct (addNode_simple_prefix constructor scope c Hok Hsimple) as [g [gn Hadd]].
  cbv zeta in Hadd. fold node in Hadd.
  match type of Hadd with
  | context [addNode_outputs node gn 0 _ ?c0] =>
      destruct (addNode_outputs_plain node gn (Outputs constructor) Hok 0 c0
                  Hplain Hnd Hfresh)
        as [c' [Hrun [Hinst [Hother Hheap]]]]
  end.
  exists c'. rewrite Hadd, Hrun. split; [done|]. split; [|split; [done|]].
  - rewrite Hheap. simpl. apply lookup_snoc_length.
  - intros typ Hnot. by rewrite (Hother _ Hnot).
Qed.

(** X4.  A registration that fails is not rolled back: when outputs of
    plain types are followed by a map from string to a one-per-scope type,
    [addNode] returns the return-type error, and the resolvers installed
    for the outputs before it stay in the registry. *)
Theorem addNode_failure_keeps_earlier_outputs (constructor : ProviderDescriptor)
    (scope : option Scope) (c : container)
    (pre post : list ProviderOutput) (out : ProviderOutput) :
  graph_ok → registers_simple constructor scope →
  Outputs constructor = pre ++ out :: post →
  (∀ o, o ∈ pre → plain_output o) →
  NoDup (out_Type <$> pre) →
  (∀ o, o ∈ pre → resolvers c !! out_Type o = None) →
  isOnePerScopeMap (out_Type out) = true →
  ∃ c',
    addNode constructor scope c = (c', Fail (returnTypeError (out_Type out)))
    ∧ ∀ o, o ∈ pre →
        ∃ vr, resolvers c' !! out_Type o = Some vr
              ∧ simple_resolver_of (length (simpleProviders (heap c))) (out_Type o) vr.
Proof.
  intros Hok Hsimple Hsplit Hplain Hnd Hfresh Hmap.
  destruct (addNode_simple_prefix constructor scope c Hok Hsimple) as [g [gn Hadd]].
  cbv zeta in Hadd.
  match type of Hadd with
  | context [addNode_outputs ?node gn 0 _ ?c0] =>
      destruct (addNode_outputs_plain node gn pre Hok 0 c0 Hplain Hnd Hfresh)
        as [c' [Hrun [Hinst _]]]
  end.
  exists c'. split; [|done].
  by rewrite Hadd, Hsplit, (addNode_outputs_forbidden _ _ _ _ _ _ _ Hmap), Hrun.
Qed.

(** X5.  Installing the group resolver of an auto-group type does not look
    at the slice type's entry: whatever resolver the registry held for the
    slice type is replaced by the slice form of the new group, and the
    registration reports no error. *)
Theorem addNode_group_replaces_slice_entry (constructor : ProviderDescriptor)
    (scope : option Scope) (out : ProviderOutput) (c : container)
    (old : resolver) :
  graph_ok → registers_simple constructor scope →
  Outputs constructor = [out] →
  isOnePerScopeMap (out_Type out) = false →
  let typ := unwrapAutoGroupSlice (out_Type out) in
  isAutoGroupType typ = true →
  resolvers c !! typ = None →
  resolvers c !! SliceOf typ = Some old →
  ∃ c',
    addNode constructor scope c
      = (c', Ret (SimpleProviderRef (length (simpleProviders (heap c)))))
    ∧ resolvers c' !! SliceOf typ
      = Some (SliceGroupResolver (length (groupResolvers (heap c)))).
Proof.
  intros Hok Hsimple Hout Hmap typ Hgroup Hnone Hold.
  destruct (addNode_simple_prefix constructor scope c Hok Hsimple) as [g [gn Hadd]].
  cbv zeta in Hadd. rewrite Hout in Hadd. simpl in Hadd. unfold bind in Hadd.
  match type of Hadd with
  | context [addNode_output ?nd gn 0 out ?c0] =>
      destruct (proj2 Hok (SliceOf typ) (config c0)) as [g4 [n4 Hg4]];
      rewrite (addNode_output_auto_group nd gn 0 out c0 g4 n4 Hmap Hgroup Hnone Hg4)
        in Hadd
  end.
  simpl in Hadd. eexists. split; [exact Hadd|].
  simpl. by rewrite lookup_insert_eq.
Qed.

Lemma addNode_output_onePerScope (node : nat) (gn : gnode) (i : nat)
    (out : ProviderOutput) (c : container) (g : graph) (n : gnode)
    (s : simpleProvider) (sc : Scope) :
  let typ := unwrapAutoGroupSlice (out_Type out) in
  let mapType := MapOf stringType typ in
  let r := length (onePerScopeResolvers (heap c)) in
  isOnePerScopeMap (out_Type out) = false →
  isAutoGroupType typ = false →
  isOnePerScopeType typ = true →
  resolvers c !! typ = None →
  simpleProviders (heap c) !! node = Some s → sp_scope s = Some sc →
  graph_typeNode mapType (config c) = (g, inl n) →
  addNode_output node gn i out c =
    (with_config (graph_addEdge gn n (node_SetComment n "one-per-scope" g))
       (with_resolvers
          (<[mapType := MapOfOnePerScopeResolver r]>
             (<[typ := OnePerScopeResolver r]> (resolvers c)))
          (with_heap
             (with_onePerScopeResolvers
                (onePerScopeResolvers (heap c)
                   ++ [{| ops_typ := typ; ops_mapType := mapType;
                          ops_providers := {[sc := node]};
                          ops_idxMap := {[sc := i]} |}])
                (heap c))
             c)),
     Ret tt).
Proof.
  intros typ mapType r Hmap Hgroup Hone Hnone Hnode Hscope Hg.
  unfold addNode_output. rewrite Hmap. fold typ.
  unfold bind, gets. simpl. rewrite Hnone, Hgroup, Hone.
  unfold typeGraphNode, lift_graph. fold mapType. rewrite Hg. simpl.
  unfold onePerScopeResolver_addNode, bind, gets. simpl.
  rewrite lookup_snoc_length, Hnode. simpl. rewrite Hscope. simpl.
  rewrite lookup_empty. unfold heap_modify, modify. simpl.
  rewrite insert_snoc_length. fold r.
  by rewrite !insert_empty.
Qed.

(** X6.  The first provider of a one-per-scope type, registered inside a
    scope: [addNode] installs one new one-per-scope resolver under the
    type and its map form under the map type from string to the type, with
    the provider filed under its scope. *)
Theorem addNode_installs_onePerScope (constructor : ProviderDescriptor)
    (sc : Scope) (out : ProviderOutput) (c : container) :
  graph_ok →
  Outputs constructor = [out] →
  isOnePerScopeMap (out_Type out) = false →
  let typ := unwrapAutoGroupSlice (out_Type out) in
  let mapType := MapOf stringType typ in
  let node := length (simpleProviders (heap c)) in
  let r := length (onePerScopeResolvers (heap c)) in
  isAutoGroupType typ = false →
  isOnePerScopeType typ = true →
  resolvers c !! typ = None →
  ∃ c',
    addNode constructor (Some sc) c = (c', Ret (SimpleProviderRef node))
    ∧ resolvers c' =
        <[mapType := MapOfOnePerScopeResolver r]>
          (<[typ := OnePerScopeResolver r]> (resolvers c))
    ∧ onePerScopeResolvers (heap c') !! r =
        Some {| ops_typ := typ; ops_mapType := mapType;
                ops_providers := {[sc := node]}; ops_idxMap := {[sc := 0]} |}.
Proof.
  intros Hok Hout Hmap typ mapType node r Hgroup Hone Hnone.
  assert (Hsimple : registers_simple constructor (Some sc)) by (by left).
  destruct (addNode_simple_prefix constructor (Some sc) c Hok Hsimple)
    as [g [gn Hadd]].
  cbv zeta in Hadd. rewrite Hout in Hadd. simpl in Hadd. unfold bind in Hadd.
  match type of Hadd with
  | context [addNode_output ?nd gn 0 out ?c0] =>
      destruct (proj2 Hok mapType (config c0)) as [g4 [n4 Hg4]];
      rewrite (addNode_output_onePerScope nd gn 0 out c0 g4 n4
                 {| sp_provider := constructor; sp_scope := Some sc;
                    sp_called := false; sp_values := [] |} sc
                 Hmap Hgroup Hone Hnone) in Hadd;
        [|simpl; apply lookup_snoc_length|done|exact Hg4]
  end.
  simpl in Hadd. eexists. split; [exact Hadd|]. simpl. split; [done|].
  apply lookup_snoc_length.
Qed.

End Registration.

Section Resolution.
Context {collab : Collaborators}.

(** ** [run] *)

(** X7.  [run] turns an invoker down before it registers anything: when
    the descriptor cannot be extracted it returns the extraction error,
    and when the invoker has outputs it returns the invoker-shape error;
    in both cases the container is left untouched. *)
Theorem run_rejects_untouched (fuel : nat) (inv : invoker) (c : container) :
  match ExtractProviderDescriptor inv with
  | inr err => run fuel inv c = (c, Fail err)
  | inl rctr =>
      Outputs rctr ≠ [] →
      run fuel inv c =
        (c, Fail ("invoker function cannot have return values other than error: "
                    +:+ loc_String (pd_Location rctr)))
  end.
Proof.
  unfold run. destruct (ExtractProviderDescriptor inv) as [rctr|err]; [|done].
  intros Hout. destruct (Outputs rctr) as [|out outs]; [done|].
  rewrite bool_decide_eq_true_2 by (simpl; lia). done.
Qed.

(** ** [resolve] *)

Lemma resolve_provider_call (fuel : nat) :
  resolve fuel = resolve_with (provider_call fuel).
Proof. by destruct fuel. Qed.

(** X8.  When the registry has a resolver for the input's type, [resolve]
    hands over to it.  A value it returns is passed on after the type's
    graph node is marked used and the last frame of the resolve stack is
    popped; an error it returns is passed on unchanged, after the node is
    marked failed and with the resolve stack left as the resolver left
    it. *)
Theorem resolve_delegates (fuel : nat) (in_ : ProviderInput)
    (scope : option Scope) (caller : Location) (c : container)
    (g : graph) (n : gnode) (vr : resolver) :
  in_Type in_ ≠ scopeType →
  resolvers c !! in_Type in_ = Some vr →
  graph_typeNode (in_Type in_) (config c) = (g, inl n) →
  match resolver_resolve (provider_call fuel) vr scope caller
          (with_config g (push_frame caller (in_Type in_) c)) with
  | (c2, Ret v) =>
      ∀ st f, resolveStack c2 = st ++ [f] →
        resolve fuel in_ scope caller c =
          (with_resolveStack st
             (with_config (node_SetColor n "black" (config c2)) c2),
           Ret v)
  | (c2, Fail e) =>
      resolve fuel in_ scope caller c =
        (with_config (node_SetColor n "red" (config c2)) c2, Fail e)
  | (c2, Panic msg) => resolve fuel in_ scope caller c = (c2, Panic msg)
  | (c2, Starved) => resolve fuel in_ scope caller c = (c2, Starved)
  end.
Proof.
  intros Hty Hvr Hg. rewrite resolve_provider_call.
  destruct (resolver_resolve _ _ _ _ _) as [c2 [v|e|msg|]] eqn:Hres.
  - intros st f Hst. by apply (resolve_via_resolver_pops _ _ _ _ c c2 g n vr v st f).
  - unfold resolve_with, bind, modify, typeGraphNode, lift_graph. simpl.
    rewrite Hg. simpl. destruct (decide (in_Type in_ = scopeType)); [done|].
    unfold gets. simpl. rewrite Hvr. unfold on_error.
    unfold push_frame in Hres. by rewrite Hres.
  - unfold resolve_with, bind, modify, typeGraphNode, lift_graph. simpl.
    rewrite Hg. simpl. destruct (decide (in_Type in_ = scopeType)); [done|].
    unfold gets. simpl. rewrite Hvr. unfold on_error.
    unfold push_frame in Hres. by rewrite Hres.
  - unfold resolve_with, bind, modify, typeGraphNode, lift_graph. simpl.
    rewrite Hg. simpl. destruct (decide (in_Type in_ = scopeType)); [done|].
    unfold gets. simpl. rewrite Hvr. unfold on_error.
    unfold push_frame in Hres. by rewrite Hres.
Qed.

(** ** [formatResolveStack] *)

Lemma frame_lines_app (l k : list resolveFrame) :
  frame_lines (l ++ k) = frame_lines l +:+ frame_lines k.
Proof.
  induction l as [|rk l IH]; simpl; [done|].
  by rewrite IH, string_app_assoc.
Qed.

(** X9.  The text of [formatResolveStack] is the heading followed by one
    line for every frame of the resolve stack: the line of each frame is
    in the text, and the line of a frame pushed later stands before the
    line of a frame pushed earlier. *)
Theorem formatResolveStack_frames (c : container) :
  (∀ rk, rk ∈ resolveStack c → includes (formatResolveStack c) (frame_line rk))
  ∧ (∀ older mid newer rk_old rk_new,
       resolveStack c = older ++ rk_old :: mid ++ rk_new :: newer →
       ∃ a b d,
         formatResolveStack c =
           resolving_heading +:+ a +:+ frame_line rk_new +:+ b
             +:+ frame_line rk_old +:+ d)
  ∧ (resolveStack c = [] → formatResolveStack c = resolving_heading).
Proof.
  rewrite formatResolveStack_lines. fold resolving_heading. split; [|split].
  - intros rk Hin. apply list_elem_of_split in Hin as [l1 [l2 Hsplit]].
    rewrite Hsplit, reverse_app, reverse_cons, !frame_lines_app. simpl.
    apply includes_app_r, includes_app_l, includes_app_r.
    by exists "", "".
  - intros older mid newer rk_old rk_new Hsplit.
    exists (frame_lines (reverse newer)), (frame_lines (reverse mid)),
      (frame_lines (reverse older)).
    rewrite Hsplit. rewrite reverse_app, reverse_cons, reverse_app, reverse_cons.
    rewrite !frame_lines_app. simpl.
    by rewrite !string_app_assoc.
  - intros ->. simpl. apply string_app_nil_r.
Qed.

(** ** [call] *)

(** X10.  Once the inputs of a provider are resolved, [call] removes the
    provider's location from [callerMap] and [callerStack] before it
    invokes the function.  An error of the function comes back wrapped
    with the provider's location; its outputs come back as they are, with
    the location's graph node marked used. *)
Theorem call_after_inputs (fuel : nat) (constructor : ProviderDescriptor)
    (scope : option Scope) (c c2 : container) (g : graph) (n : gnode)
    (inVals : list Value) :
  let loc := pd_Location constructor in
  callerMap_true c →
  callerMap c !! loc = None →
  graph_locationNode loc scope (config c) = (g, inl n) →
  call_inputs (resolve fuel) (Inputs constructor) scope loc (entered loc g n c)
    = (c2, Ret inVals) →
  let left := with_callerStack (callerStack c) (with_callerMap (callerMap c) c2) in
  call fuel constructor scope c =
    match Fn constructor inVals with
    | (_, Some err) =>
        (left, Fail ("error calling constructor " +:+ loc_String loc
                       +:+ ": " +:+ err))
    | (out, None) =>
        (with_config (node_SetColor n "black" (config c2)) left, Ret out)
    end.
Proof.
  intros loc Htrue Hloc Hg Hin left.
  assert (Hentered : callerMap_true (entered loc g n c)).
  { intros l0 b0. unfold entered. simpl.
    destruct (decide (loc = l0)) as [<-|Hne].
    - rewrite lookup_insert_eq. congruence.
    - rewrite lookup_insert_ne by done. apply Htrue. }
  destruct (keeps_call_inputs (resolve fuel) (keeps_resolve fuel) _ _ _ _ _ _
              Hentered Hin) as [Hst Hm].
  unfold entered in Hst, Hm, Hin. simpl in Hst, Hm. subst loc left.
  unfold call, call_with, bind, locationGraphNode, lift_graph.
  rewrite Hg. simpl. rewrite Hloc. simpl.
  rewrite with_config_twice, Hin. simpl.
  rewrite Hst, drop_last_snoc. simpl.
  assert (Hdel : delete (pd_Location constructor) (callerMap c2) = callerMap c).
  { rewrite Hm, delete_insert_eq. by apply delete_id. }
  rewrite Hdel.
  by destruct (Fn constructor inVals) as [out [err|]].
Qed.

(** ** The scope table *)

(** X11.  Only [createOrGetScope] writes to the scope table: [supply],
    [addNode], [run], [call] and [resolve] leave it as it is, however they
    return, and [createOrGetScope] keeps every entry and changes no name
    but its own. *)
Theorem scopes_written_by_createOrGetScope_only (m : method) (c : container) :
  match m with
  | DoCreateOrGetScope name =>
      is_Some (scopes (perform m c) !! name)
      ∧ (∀ other s, scopes c !! other = Some s →
           scopes (perform m c) !! other = Some s)
      ∧ (∀ other, other ≠ name →
           scopes (perform m c) !! other = scopes c !! other)
  | _ => scopes (perform m c) = scopes c
  end.
Proof.
  destruct m; simpl.
  - apply scopes_supply.
  - apply scopes_addNode.
  - apply scopes_run.
  - apply scopes_call.
  - apply scopes_resolve.
  - split; [|split].
    + destruct (createOrGetScope_returns name c) as [s [_ Hs]]. by exists s.
    + intros other s Hs. by apply createOrGetScope_keeps.
    + intros other Hne. destruct (scopes c !! name) as [s|] eqn:Hs.
      * by rewrite (createOrGetScope_known _ _ _ Hs).
      * rewrite (createOrGetScope_new _ _ Hs). simpl.
        by rewrite lookup_insert_ne.
Qed.

End Resolution.

(** ** What the methods write to *)

Section Footprint.
Context {collab : Collaborators}.
Variable R : container → container → Prop.
Hypothesis R_refl : ∀ c, R c c.
Hypothesis R_trans : ∀ c1 c2 c3, R c1 c2 → R c2 c3 → R c1 c3.
Hypothesis R_config : ∀ c g, R c (with_config g c).
Hypothesis R_heap : ∀ c h, R c (with_heap h c).

Lemma within_ret {A} (a : A) : within R (ret a).
Proof. intros c. apply R_refl. Qed.
Lemma within_fail {A} (e : error) : within R (fail (A:=A) e).
Proof. intros c. apply R_refl. Qed.
Lemma within_panic {A} (msg : string) : within R (panic (A:=A) msg).
Proof. intros c. apply R_refl. Qed.
Lemma within_starved {A} : within R (starved (A:=A)).
Proof. intros c. apply R_refl. Qed.
Lemma within_gets {A} (f : container → A) : within R (gets f).
Proof. intros c. apply R_refl. Qed.

Lemma within_bind {A B} (m : M A) (k : A → M B) :
  within R m → (∀ a, within R (k a)) → within R (bind m k).
Proof.
  intros Hm Hk c. unfold bind. specialize (Hm c).
  destruct (m c) as [c1 [a| | |]]; simpl in *; try done.
  apply (R_trans _ c1); [done|apply Hk].
Qed.

Lemma within_on_error {A} (m : M A) (handler : M unit) :
  within R m → within R handler → within R (on_error m handler).
Proof.
  intros Hm Hh c. unfold on_error. specialize (Hm c).
  destruct (m c) as [c1 [a|e| |]]; simpl in *; try done.
  apply (R_trans _ c1); [done|].
  apply (within_bind handler (λ _, fail e)); [done|].
  intros _. apply within_fail.
Qed.

Lemma within_lift_graph (f : graph → graph * (gnode + error)) :
  within R (lift_graph f).
Proof.
  intros c. unfold lift_graph. destruct (f (config c)) as [g [n|e]]; apply R_config.
Qed.

Lemma within_config (f : container → graph) :
  within R (modify (λ c, with_config (f c) c)).
Proof. intros c. apply R_config. Qed.

Lemma within_heap_modify (f : objects → objects) : within R (heap_modify f).
Proof. intros c. apply R_heap. Qed.

Lemma within_index_values (values : list Value) (i : nat) :
  within R (index_values values i).
Proof.
  unfold index_values. destruct (values !! i); [apply within_ret|apply within_panic].
Qed.

End Footprint.

Create HintDb within.
#[local] Hint Resolve within_ret within_fail within_panic within_starved
  within_gets within_lift_graph within_config within_heap_modify
  within_index_values : within.

(** One step of a proof that a method stays within [R]. *)
Ltac within_step :=
  match goal with
  | |- within _ (bind _ _) => apply within_bind; [assumption| |intros ?]
  | |- within _ (on_error _ _) => apply within_on_error; [assumption|assumption| |]
  | |- within _ (match ?x with _ => _ end) => destruct x
  | |- within _ (if ?x then _ else _) => destruct x
  | |- within _ _ => solve [eauto with within]
  end.

Section FootprintMethods.
Context {collab : Collaborators}.
Variable R : container → container → Prop.
Hypothesis R_refl : ∀ c, R c c.
Hypothesis R_trans : ∀ c1 c2 c3, R c1 c2 → R c2 c3 → R c1 c3.
Hypothesis R_config : ∀ c g, R c (with_config g c).
Hypothesis R_heap : ∀ c h, R c (with_heap h c).

Lemma within_groupResolver_addNode (r node i : nat) :
  within R (groupResolver_addNode r node i).
Proof. unfold groupResolver_addNode. repeat within_step. Qed.

Lemma within_onePerScopeResolver_addNode (r node i : nat) :
  within R (onePerScopeResolver_addNode r node i).
Proof. unfold onePerScopeResolver_addNode. repeat within_step. Qed.

Lemma within_resolver_addNode (vr : resolver) (node i : nat) :
  within R (resolver_addNode vr node i).
Proof.
  unfold resolver_addNode.
  destruct vr; auto using within_groupResolver_addNode,
    within_onePerScopeResolver_addNode; repeat within_step.
Qed.

Lemma within_addNode_inputs (gn : gnode) (ins : list ProviderInput) (b : bool) :
  within R (addNode_inputs gn ins b).
Proof.
  revert b. induction ins as [|in_ ins IH]; intros b; simpl; [by apply within_ret|].
  unfold typeGraphNode, addGraphEdge. repeat first [ apply IH | within_step ].
Qed.

Section FootprintResolving.
Variable callf : ProviderDescriptor → option Scope → M (list Value).
Hypothesis callf_within : ∀ constructor scope, within R (callf constructor scope).

Lemma within_resolveValues (p : nat) :
  within R (simpleProvider_resolveValues callf p).
Proof. unfold simpleProvider_resolveValues. repeat within_step. Qed.

Lemma within_sliceGroup_collect (providers : list (nat * nat)) (res : list Value) :
  within R (sliceGroup_collect callf providers res).
Proof.
  revert res. induction providers as [|[node i] providers IH]; intros res; simpl.
  - by apply within_ret.
  - apply within_bind; [done|apply within_resolveValues|intros values].
    apply within_bind; [done|by apply within_index_values|intros value].
    destruct value as [| | |t|]; try apply IH. destruct t; apply IH.
Qed.

Lemma within_mapOfOnePerScope_collect (providers : list (Scope * nat))
    (idxMap : gmap Scope nat) (res : list (string * Value)) :
  within R (mapOfOnePerScope_collect callf providers idxMap res).
Proof.
  revert res. induction providers as [|[s node] providers IH]; intros res; simpl.
  - by apply within_ret.
  - apply within_bind; [done|apply within_resolveValues|intros values].
    destruct (idxMap !! s); [|by apply within_panic].
    apply within_bind; [done|by apply within_index_values|intros value]. apply IH.
Qed.

Lemma within_scopeDepResolver_resolve (r : nat) (scope : option Scope) :
  within R (scopeDepResolver_resolve callf r scope).
Proof. unfold scopeDepResolver_resolve. repeat within_step. Qed.

Lemma within_resolver_resolve (vr : resolver) (scope : option Scope)
    (caller : Location) :
  within R (resolver_resolve callf vr scope caller).
Proof.
  unfold resolver_resolve. destruct vr;
    repeat first
      [ apply within_resolveValues | apply within_sliceGroup_collect
      | apply within_mapOfOnePerScope_collect
      | apply within_scopeDepResolver_resolve | within_step ].
Qed.

End FootprintResolving.

Lemma within_call_inputs
    (resolvef : ProviderInput → option Scope → Location → M Value)
    (ins : list ProviderInput) (scope : option Scope) (loc : Location) :
  (∀ in_ sc caller, within R (resolvef in_ sc caller)) →
  within R (call_inputs resolvef ins scope loc).
Proof.
  intros Hres. induction ins as [|in_ ins IH]; simpl; [by apply within_ret|].
  apply within_bind; [done|apply Hres|intros val].
  apply within_bind; [done|apply IH|intros vals]. by apply within_ret.
Qed.

End FootprintMethods.

(** *** Registration *)

Section FootprintRegistration.
Context {collab : Collaborators}.
Variable R : container → container → Prop.
Hypothesis R_refl : ∀ c, R c c.
Hypothesis R_trans : ∀ c1 c2 c3, R c1 c2 → R c2 c3 → R c1 c3.
Hypothesis R_config : ∀ c g, R c (with_config g c).
Hypothesis R_heap : ∀ c h, R c (with_heap h c).
Hypothesis R_resolvers : ∀ c rs, R c (with_resolvers rs c).

Lemma within_set_resolver (typ : rtype) (vr : resolver) :
  within R (set_resolver typ vr).
Proof. intros c. apply R_resolvers. Qed.

Lemma within_addNode_output (node : nat) (gn : gnode) (i : nat)
    (out : ProviderOutput) :
  within R (addNode_output node gn i out).
Proof.
  unfold addNode_output, typeGraphNode, addGraphEdge, SetComment,
    new_groupResolver, new_onePerScopeResolver.
  repeat first
    [ apply within_set_resolver
    | apply within_resolver_addNode | apply within_groupResolver_addNode
    | apply within_onePerScopeResolver_addNode | within_step ]; assumption.
Qed.

Lemma within_addNode_outputs (node : nat) (gn : gnode) (i : nat)
    (outs : list ProviderOutput) :
  within R (addNode_outputs node gn i outs).
Proof.
  revert i. induction outs as [|out outs IH]; intros i; simpl; [by apply within_ret|].
  apply within_bind; [done|apply within_addNode_output|intros _; apply IH].
Qed.

Lemma within_addNode_scoped_outputs (constructor : ProviderDescriptor)
    (node : nat) (gn : gnode) (i : nat) (outs : list ProviderOutput) :
  within R (addNode_scoped_outputs constructor node gn i outs).
Proof.
  revert i. induction outs as [|out outs IH]; intros i; simpl; [by apply within_ret|].
  apply within_bind; [done| |intros _; apply IH].
  unfold addNode_scoped_output, typeGraphNode, addGraphEdge, new_scopeDepResolver.
  repeat first [ apply within_set_resolver | within_step ]; assumption.
Qed.

Lemma within_addNode (constructor : ProviderDescriptor) (scope : option Scope) :
  within R (addNode constructor scope).
Proof.
  unfold addNode, locationGraphNode, new_simpleProvider, new_scopeDepProvider.
  repeat first
    [ apply within_addNode_inputs | apply within_addNode_outputs
    | apply within_addNode_scoped_outputs | within_step ]; assumption.
Qed.

Lemma within_supply (value : Value) (location : Location) :
  within R (supply value location).
Proof.
  unfold supply, locationGraphNode, typeGraphNode, addGraphEdge, markGraphNodeAsUsed.
  repeat first [ apply within_set_resolver | within_step ]; assumption.
Qed.

End FootprintRegistration.

Section RegistrationFrame.
Context {collab : Collaborators}.

Lemma registration_frame_refl (c : container) : registration_frame c c.
Proof. by repeat split. Qed.

Lemma registration_frame_trans (c1 c2 c3 : container) :
  registration_frame c1 c2 → registration_frame c2 c3 → registration_frame c1 c3.
Proof.
  intros (H1 & H2 & H3 & H4) (K1 & K2 & K3 & K4).
  repeat split; congruence.
Qed.

Lemma registration_supply (value : Value) (location : Location) :
  within registration_frame (supply value location).
Proof.
  apply within_supply;
    first [ exact registration_frame_refl | exact registration_frame_trans
          | by intros ].
Qed.

Lemma registration_addNode (constructor : ProviderDescriptor) (scope : option Scope) :
  within registration_frame (addNode constructor scope).
Proof.
  apply within_addNode;
    first [ exact registration_frame_refl | exact registration_frame_trans
          | by intros ].
Qed.

(** X12.  Registration writes to the diagnostic graph, the registry and
    the stores of providers and resolvers only: [supply] and [addNode]
    leave the resolve stack, [callerStack], [callerMap] and the scope
    table as they are, whether they return an error or not. *)
Theorem registration_footprint (c : container) :
  (∀ value location, registration_frame c (supply value location c).1)
  ∧ (∀ constructor scope, registration_frame c (addNode constructor scope c).1).
Proof.
  split.
  - intros value location. apply registration_supply.
  - intros constructor scope. apply registration_addNode.
Qed.

End RegistrationFrame.

(** ** The output loop of a [simpleProvider], at the level of [addNode] *)

Section OutputLoop.
Context {collab : Collaborators}.

Lemma addNode_simple_start (constructor : ProviderDescriptor)
    (scope : option Scope) (c : container) :
  graph_ok → registers_simple constructor scope →
  ∃ g gn,
    addNode constructor scope c =
      outputs_end (length (simpleProviders (heap c)))
        (addNode_outputs (length (simpleProviders (heap c))) gn 0
           (Outputs constructor) (outputs_start constructor scope g c)).
Proof.
  intros Hok Hsimple.
  destruct (addNode_simple_prefix constructor scope c Hok Hsimple) as [g [gn Hadd]].
  exists g, gn. exact Hadd.
Qed.

(** A registration that is not scope-dependent never returns while an
    output's iteration is open: it ends as the rest of the loop ends. *)
Lemma addNode_outputs_split (node : nat) (gn : gnode) (i : nat)
    (pre post : list ProviderOutput) (out : ProviderOutput) (c c1 c2 : container) :
  addNode_outputs node gn i pre c = (c1, Ret tt) →
  addNode_output node gn (i + length pre) out c1 = (c2, Ret tt) →
  addNode_outputs node gn i (pre ++ out :: post) c =
    addNode_outputs node gn (S (i + length pre)) post c2.
Proof.
  intros Hpre Hout. rewrite addNode_outputs_app, Hpre. simpl. unfold bind.
  by rewrite Hout.
Qed.

(** An iteration of the output loop leaves the registry as it is, or adds
    entries under a type that had none: one entry, or two with the second
    under the slice type or the map type from string. *)
Lemma addNode_output_registry (node : nat) (gn : gnode) (i : nat)
    (out : ProviderOutput) (c : container) :
  resolvers (addNode_output node gn i out c).1 = resolvers c
  ∨ ∃ typ vr,
      resolvers c !! typ = None
      ∧ (resolvers (addNode_output node gn i out c).1 = <[typ := vr]> (resolvers c)
         ∨ ∃ key vr2,
             (key = SliceOf typ ∨ key = MapOf stringType typ)
             ∧ resolvers (addNode_output node gn i out c).1
               = <[key := vr2]> (<[typ := vr]> (resolvers c))).
Proof.
  set (P := λ c' : container,
    resolvers c' = resolvers c
    ∨ ∃ typ vr,
        resolvers c !! typ = None
        ∧ (resolvers c' = <[typ := vr]> (resolvers c)
           ∨ ∃ key vr2,
               (key = SliceOf typ ∨ key = MapOf stringType typ)
               ∧ resolvers c' = <[key := vr2]> (<[typ := vr]> (resolvers c)))).
  change (P (addNode_output node gn i out c).1).
  assert (Hsame : ∀ c', resolvers c' = resolvers c → P c') by (by left).
  unfold addNode_output.
  destruct (isOnePerScopeMap (out_Type out)); [by apply Hsame|].
  unfold bind at 1. unfold gets at 1. simpl.
  destruct (resolvers c !! unwrapAutoGroupSlice (out_Type out)) as [vr|] eqn:Hlook.
  { apply Hsame.
    apply (within_resolver_addNode (λ c c', resolvers c' = resolvers c));
      first [done | by intros; congruence]. }
  set (typ := unwrapAutoGroupSlice (out_Type out)) in *.
  destruct (isAutoGroupType typ).
  { unfold typeGraphNode, SetComment, new_groupResolver, groupResolver_addNode,
      heap_modify, set_resolver, addGraphEdge, lift_graph, bind, modify, gets.
    destruct (graph_typeNode _ _) as [g [n|e]]; simpl; [|by apply Hsame].
    rewrite lookup_snoc_length. simpl.
    right. eexists typ, _. split; [done|]. right. eexists _, _.
    split; [by left|reflexivity]. }
  destruct (isOnePerScopeType typ).
  { unfold typeGraphNode, SetComment, new_onePerScopeResolver,
      onePerScopeResolver_addNode, heap_modify, set_resolver, addGraphEdge,
      lift_graph, bind, modify, gets.
    destruct (graph_typeNode _ _) as [g [n|e]]; simpl; [|by apply Hsame].
    rewrite lookup_snoc_length. simpl.
    destruct (simpleProviders (heap c) !! node) as [s|]; simpl; [|by apply Hsame].
    destruct (sp_scope s) as [sc|]; simpl; [|by apply Hsame].
    rewrite lookup_empty. simpl.
    right. eexists typ, _. split; [done|]. right. eexists _, _.
    split; [by right|reflexivity]. }
  unfold typeGraphNode, set_resolver, addGraphEdge, lift_graph, bind, modify.
  destruct (graph_typeNode _ _) as [g [n|e]]; simpl; [|by apply Hsame].
  right. eexists typ, _. split; [done|]. by left.
Qed.

(** The entries of a group are not written to again: a later iteration
    writes under a type without a resolver, under its slice type, or under
    its map type from string, and a type that is not itself of slice or
    map kind is none of these once its group is installed. *)
Lemma addNode_output_holds_group (typ : rtype) (r : nat) (node : nat) (gn : gnode)
    (i : nat) (out : ProviderOutput) (c : container) :
  type_Kind typ ≠ KSlice → type_Kind typ ≠ KMap →
  holds_group typ r c → holds_group typ r (addNode_output node gn i out c).1.
Proof.
  intros Hslice Hmap [Hg Hs]. unfold holds_group.
  destruct (addNode_output_registry node gn i out c)
    as [->|[typ0 [vr [Hnone [->|[key [vr2 [Hkey ->]]]]]]]]; [done| |].
  - rewrite !lookup_insert_ne; [done|congruence..].
  - assert (key ≠ typ) by (destruct Hkey as [->| ->]; intros <-; simpl in *; congruence).
    assert (key ≠ SliceOf typ).
    { destruct Hkey as [->| ->]; [|done]. intros [= ->]. congruence. }
    rewrite !lookup_insert_ne; [done|congruence..].
Qed.

Lemma addNode_outputs_holds_group (typ : rtype) (r : nat) (node : nat) (gn : gnode)
    (outs : list ProviderOutput) (i : nat) (c : container) :
  type_Kind typ ≠ KSlice → type_Kind typ ≠ KMap →
  holds_group typ r c → holds_group typ r (addNode_outputs node gn i outs c).1.
Proof.
  intros Hslice Hmap. revert i c.
  induction outs as [|out outs IH]; intros i c Hc; simpl; [done|].
  unfold bind.
  pose proof (addNode_output_holds_group typ r node gn i out c Hslice Hmap Hc) as H1.
  destruct (addNode_output node gn i out c) as [c1 [[]| | |]]; simpl in *; try done.
  by apply IH.
Qed.

Lemma outputs_end_state (node : nat) (r : container * outcome unit) :
  (outputs_end node r).1 = r.1.
Proof. by destruct r as [c' [[]| | |]]. Qed.

Lemma plain_not_forbidden (pre : list ProviderOutput) (out : ProviderOutput) :
  (∀ o, o ∈ pre → plain_output o) →
  isOnePerScopeMap (out_Type out) = true →
  out_Type out ∉ (out_Type <$> pre).
Proof.
  intros Hplain Hmap Hin. apply list_elem_of_fmap in Hin as [o [Heq Ho]].
  destruct (Hplain o Ho) as [Hno _]. congruence.
Qed.

Lemma plain_not_group (pre : list ProviderOutput) (typ : rtype) :
  (∀ o, o ∈ pre → plain_output o) →
  isAutoGroupType typ = true →
  typ ∉ (out_Type <$> pre).
Proof.
  intros Hplain Hgroup Hin. apply list_elem_of_fmap in Hin as [o [Heq Ho]].
  destruct (Hplain o Ho) as [_ [Hno _]].
  rewrite (unwrapAutoGroupSlice_plain _ Hno) in Hno. congruence.
Qed.

(** C5.  Registration of a provider as a [simpleProvider], one of whose
    outputs is a map from string to a one-per-scope type.  The outputs are
    registered in order and the first error ends the registration.  So the
    registration never returns a node; it returns the return-type error
    when the outputs before the map were registered, and the error of the
    first of them that was not otherwise.  The iteration for the map
    itself leaves the container untouched, and what the outputs before it
    installed stays.  In particular, after outputs of plain, distinct
    types without a resolver, the registration returns the return-type
    error and the registry has changed under the types of those outputs
    only, not under the map type. *)
Theorem addNode_rejects_onePerScope_map (constructor : ProviderDescriptor)
    (scope : option Scope) (c : container)
    (pre post : list ProviderOutput) (out : ProviderOutput) :
  registers_simple constructor scope →
  Outputs constructor = pre ++ out :: post →
  isOnePerScopeMap (out_Type out) = true →
  let err := returnTypeError (out_Type out) in
  let node := length (simpleProviders (heap c)) in
  includes err "cannot be used as a return type"
  ∧ (∀ node' gn i c1, addNode_output node' gn i out c1 = (c1, Fail err))
  ∧ (∀ node', (addNode constructor scope c).2 ≠ Ret node')
  ∧ (graph_ok →
     (∃ g gn,
        addNode constructor scope c =
          match addNode_outputs node gn 0 pre (outputs_start constructor scope g c) with
          | (c1, Ret _) => (c1, Fail err)
          | (c1, Fail e) => (c1, Fail e)
          | (c1, Panic msg) => (c1, Panic msg)
          | (c1, Starved) => (c1, Starved)
          end)
     ∧ ((∀ o, o ∈ pre → plain_output o) →
        NoDup (out_Type <$> pre) →
        (∀ o, o ∈ pre → resolvers c !! out_Type o = None) →
        ∃ c',
          addNode constructor scope c = (c', Fail err)
          ∧ (∀ o, o ∈ pre →
               ∃ vr, resolvers c' !! out_Type o = Some vr
                     ∧ simple_resolver_of node (out_Type o) vr)
          ∧ (∀ typ, typ ∉ (out_Type <$> pre) →
               resolvers c' !! typ = resolvers c !! typ)
          ∧ resolvers c' !! out_Type out = resolvers c !! out_Type out)).
Proof.
  intros Hsimple Hsplit Hmap err node.
  split; [apply includes_returnTypeError|].
  split; [intros; by apply addNode_output_forbidden|].
  split.
  { intros node'. unfold addNode, bind.
    destruct (locationGraphNode _ _ c) as [c1 [n1| | |]]; try done.
    destruct (addNode_inputs _ _ _ c1) as [c2 [b| | |]] eqn:Hin; try done.
    apply addNode_inputs_result in Hin. rewrite Hin.
    rewrite (registers_simple_branch _ _ Hsimple). simpl.
    destruct (locationGraphNode _ _ _) as [c3 [n3| | |]]; try done.
    rewrite Hsplit, addNode_outputs_forbidden by done.
    by destruct (addNode_outputs _ _ _ pre c3) as [c4 [[]| | |]]. }
  intros Hok.
  destruct (addNode_simple_start constructor scope c Hok Hsimple) as [g [gn Hadd]].
  fold node in Hadd.
  rewrite Hsplit, (addNode_outputs_forbidden _ _ _ _ _ _ _ Hmap) in Hadd.
  split.
  { exists g, gn. rewrite Hadd.
    by destruct (addNode_outputs node gn 0 pre _) as [c1 [[]| | |]]. }
  intros Hplain Hnd Hfresh.
  destruct (addNode_outputs_plain node gn pre Hok 0
              (outputs_start constructor scope g c) Hplain Hnd Hfresh)
    as [c' [Hrun [Hinst [Hother _]]]].
  exists c'. rewrite Hadd, Hrun. split; [done|]. split; [done|].
  split; [exact Hother|].
  apply Hother. by apply plain_not_forbidden.
Qed.

(** C6.  Registration of a provider as a [simpleProvider], one output at
    a time.  An output whose type is a slice of an auto-group type is
    handled as its element type.  When the registration reaches an output
    (the outputs before it were registered) whose type, so unwrapped, is
    an auto-group type without a resolver, it installs one new group
    resolver under the type and its slice form under the slice type, with
    the provider as the group's first member, and goes on with the
    outputs after it.  The two entries are in the registry when the
    registration returns, whether the outputs after it were registered or
    one of them failed.  In particular this is so after outputs of plain,
    distinct types without a resolver. *)
Theorem addNode_installs_group (constructor : ProviderDescriptor)
    (scope : option Scope) (c : container)
    (pre post : list ProviderOutput) (out : ProviderOutput) :
  graph_ok → registers_simple constructor scope →
  Outputs constructor = pre ++ out :: post →
  let typ := unwrapAutoGroupSlice (out_Type out) in
  let node := length (simpleProviders (heap c)) in
  let i := length pre in
  let group := {| gr_typ := typ; gr_sliceType := SliceOf typ;
                  gr_providers := [(node, i)] |} in
  (∀ elem, out_Type out = SliceOf elem → isAutoGroupType elem = true → typ = elem)
  ∧ (∃ g gn,
       ∀ c1,
         addNode_outputs node gn 0 pre (outputs_start constructor scope g c)
           = (c1, Ret tt) →
         isOnePerScopeMap (out_Type out) = false →
         isAutoGroupType typ = true →
         resolvers c1 !! typ = None →
         let r := length (groupResolvers (heap c1)) in
         ∃ g2,
           let c2 := with_config g2 (install_group typ node i c1) in
           addNode constructor scope c =
             outputs_end node (addNode_outputs node gn (S i) post c2)
           ∧ resolvers c2 =
               <[SliceOf typ := SliceGroupResolver r]>
                 (<[typ := GroupResolver r]> (resolvers c1))
           ∧ holds_group typ r c2
           ∧ groupResolvers (heap c2) = groupResolvers (heap c1) ++ [group]
           ∧ (type_Kind typ ≠ KSlice → type_Kind typ ≠ KMap →
              holds_group typ r (addNode constructor scope c).1))
  ∧ ((∀ o, o ∈ pre → plain_output o) →
     NoDup (out_Type <$> pre) →
     (∀ o, o ∈ pre → resolvers c !! out_Type o = None) →
     isAutoGroupType typ = true →
     resolvers c !! typ = None →
     type_Kind typ ≠ KSlice → type_Kind typ ≠ KMap →
     holds_group typ (length (groupResolvers (heap c)))
       (addNode constructor scope c).1
     ∧ (post = [] →
        ∃ c', addNode constructor scope c = (c', Ret (SimpleProviderRef node))
              ∧ groupResolvers (heap c') !! length (groupResolvers (heap c))
                = Some group)).
Proof.
  intros Hok Hsimple Hsplit typ node i group.
  split.
  { intros elem Hout Hgroup. unfold typ. rewrite Hout. simpl. by rewrite Hgroup. }
  destruct (addNode_simple_start constructor scope c Hok Hsimple) as [g [gn Hadd]].
  fold node in Hadd. rewrite Hsplit in Hadd.
  assert (Hreach : ∀ c1,
    addNode_outputs node gn 0 pre (outputs_start constructor scope g c)
      = (c1, Ret tt) →
    isOnePerScopeMap (out_Type out) = false →
    isAutoGroupType typ = true →
    resolvers c1 !! typ = None →
    ∃ g2,
      addNode constructor scope c =
        outputs_end node
          (addNode_outputs node gn (S i) post
             (with_config g2 (install_group typ node i c1)))).
  { intros c1 Hpre Hmap Hgroup Hnone.
    destruct (proj2 Hok (SliceOf typ) (config c1)) as [g4 [n4 Hg4]].
    eexists. rewrite Hadd.
    by rewrite (addNode_outputs_split node gn 0 pre post out _ c1 _ Hpre
                  (addNode_output_auto_group node gn (0 + length pre) out c1 g4 n4
                     Hmap Hgroup Hnone Hg4)). }
  assert (Hheld : ∀ c1 g2,
    resolvers c1 !! typ = None →
    holds_group typ (length (groupResolvers (heap c1)))
      (with_config g2 (install_group typ node i c1))).
  { intros c1 g2 Hnone. unfold holds_group, install_group. simpl. split.
    - rewrite lookup_insert_ne by apply SliceOf_neq. by rewrite lookup_insert_eq.
    - by rewrite lookup_insert_eq. }
  split.
  - exists g, gn. intros c1 Hpre Hmap Hgroup Hnone r.
    destruct (Hreach c1 Hpre Hmap Hgroup Hnone) as [g2 Hrun].
    exists g2. cbv zeta. split; [exact Hrun|]. split; [done|].
    split; [by apply Hheld|]. split; [done|].
    intros Hslice Hkmap. rewrite Hrun, outputs_end_state.
    apply addNode_outputs_holds_group; [done..|]. by apply Hheld.
  - intros Hplain Hnd Hfresh Hgroup Hnone Hslice Hkmap.
    destruct (addNode_outputs_plain node gn pre Hok 0
                (outputs_start constructor scope g c) Hplain Hnd Hfresh)
      as [c1 [Hpre [_ [Hother Hheap]]]].
    assert (Hmap : isOnePerScopeMap (out_Type out) = false).
    { unfold typ in Hkmap.
      by destruct (out_Type out) as [name| | |elem|key elem]. }
    assert (Hnone1 : resolvers c1 !! typ = None).
    { rewrite (Hother typ) by (by apply plain_not_group). exact Hnone. }
    assert (Hlen : length (groupResolvers (heap c1)) = length (groupResolvers (heap c))).
    { by rewrite Hheap. }
    destruct (Hreach c1 Hpre Hmap Hgroup Hnone1) as [g2 Hrun].
    split.
    + rewrite Hrun, outputs_end_state, <- Hlen.
      apply addNode_outputs_holds_group; [done..|]. by apply Hheld.
    + intros ->. rewrite Hrun. simpl. eexists. split; [reflexivity|].
      unfold install_group. simpl. rewrite <- Hlen. apply lookup_snoc_length.
Qed.

End OutputLoop.

(** *** Resolution *)

Section ResolutionLaws.
Context {collab : Collaborators}.

Lemma resolution_frame_refl (c : container) : resolution_frame c c.
Proof. by repeat split. Qed.

Lemma resolution_frame_trans (c1 c2 c3 : container) :
  resolution_frame c1 c2 → resolution_frame c2 c3 → resolution_frame c1 c3.
Proof.
  intros (H1 & H2 & H3) (K1 & K2 & K3).
  repeat split; [congruence..|]. by etrans.
Qed.

Lemma resolution_frame_config (c : container) (g : graph) :
  resolution_frame c (with_config g c).
Proof. by repeat split. Qed.

Lemma resolution_frame_heap (c : container) (h : objects) :
  resolution_frame c (with_heap h c).
Proof. by repeat split. Qed.

Lemma prefix_drop_last {A} (s l : list A) (f : A) :
  (s ++ [f]) `prefix_of` l → s `prefix_of` take (length l - 1) l.
Proof.
  intros [k ->]. rewrite <- !(assoc_L (++)). rewrite !length_app. simpl.
  rewrite take_app_ge by lia. by apply prefix_app_r.
Qed.

Lemma prefix_not_nil {A} (s l : list A) (f : A) :
  (s ++ [f]) `prefix_of` l → l ≠ [].
Proof. intros [k ->]. by destruct s. Qed.

Lemma drop_last_nonempty {A} (l : list A) :
  l ≠ [] → drop_last l = Ret (take (length l - 1) l).
Proof. by destruct l. Qed.

End ResolutionLaws.

Ltac resolution_frame_laws :=
  first [ exact resolution_frame_refl | exact resolution_frame_trans
        | exact resolution_frame_config | exact resolution_frame_heap ].

Section ResolutionFrame.
Context {collab : Collaborators}.

Section ResolutionResolving.
Variable callf : ProviderDescriptor → option Scope → M (list Value).
Hypothesis callf_within :
  ∀ constructor scope, within resolution_frame (callf constructor scope).

Lemma resolution_resolve_with (in_ : ProviderInput) (scope : option Scope)
    (caller : Location) :
  within resolution_frame (resolve_with callf in_ scope caller).
Proof.
  intros c. unfold resolve_with, bind, modify, typeGraphNode, lift_graph. simpl.
  assert (Hpush : ∀ c', resolvers c' = resolvers c → scopes c' = scopes c →
            resolveStack c' = resolveStack c ++ [{| rf_loc := caller; rf_typ := in_Type in_ |}] →
            resolution_frame c c').
  { intros c' H1 H2 H3. repeat split; [done..|]. rewrite H3. by apply prefix_app_r. }
  destruct (graph_typeNode _ _) as [g [n|e]]; simpl; [|by apply Hpush].
  destruct (decide (in_Type in_ = scopeType)).
  { destruct scope; simpl; by apply Hpush. }
  unfold gets. simpl.
  destruct (resolvers c !! in_Type in_) as [vr|].
  2: { destruct (in_Optional in_); simpl; by apply Hpush. }
  unfold on_error.
  match goal with
  | |- context [resolver_resolve callf vr scope caller ?c1] =>
      assert (Hwithin : within resolution_frame
                          (resolver_resolve callf vr scope caller))
        by (apply within_resolver_resolve; first [resolution_frame_laws|done]);
      destruct (Hwithin c1) as (Hr & Hs & Hst);
      destruct (resolver_resolve callf vr scope caller c1) as [c2 [v|e|msg|]]
  end; simpl in *.
  - rewrite (drop_last_nonempty _ (prefix_not_nil _ _ _ Hst)). simpl.
    repeat split; [done..|]. by apply (prefix_drop_last _ _ _ Hst).
  - repeat split; [done..|]. etrans; [|exact Hst]. by apply prefix_app_r.
  - repeat split; [done..|]. etrans; [|exact Hst]. by apply prefix_app_r.
  - repeat split; [done..|]. etrans; [|exact Hst]. by apply prefix_app_r.
Qed.

End ResolutionResolving.

Lemma resolution_call_with
    (resolvef : ProviderInput → option Scope → Location → M Value)
    (constructor : ProviderDescriptor) (scope : option Scope) :
  (∀ in_ sc caller, within resolution_frame (resolvef in_ sc caller)) →
  within resolution_frame (call_with resolvef constructor scope).
Proof.
  intros Hres c. unfold call_with, bind, locationGraphNode, lift_graph,
    markGraphNodeAsFailed, modify, gets.
  destruct (graph_locationNode _ _ _) as [g [n|e]]; simpl; [|by repeat split].
  destruct (default false (callerMap c !! pd_Location constructor)); simpl;
    [by repeat split|].
  match goal with
  | |- context [call_inputs resolvef ?ins ?s ?l ?c1] =>
      assert (Hwithin : within resolution_frame (call_inputs resolvef ins s l))
        by (apply within_call_inputs; first [resolution_frame_laws|done]);
      destruct (Hwithin c1) as (Hr & Hs & Hst);
      destruct (call_inputs resolvef ins s l c1) as [c2 [inVals|e|msg|]]
  end; simpl in *; try by repeat split.
  destruct (drop_last (callerStack c2)) as [cs| | |]; simpl; try by repeat split.
  destruct (Fn constructor inVals) as [out [err|]]; simpl; by repeat split.
Qed.

Lemma resolution_resolve (fuel : nat) (in_ : ProviderInput) (scope : option Scope)
    (caller : Location) :
  within resolution_frame (resolve fuel in_ scope caller).
Proof.
  revert in_ scope caller. induction fuel as [|fuel IH]; intros in_ scope caller;
    rewrite resolve_unfold; apply resolution_resolve_with; intros constructor sc.
  - intros c. apply resolution_frame_refl.
  - by apply resolution_call_with.
Qed.

Lemma resolution_call (fuel : nat) (constructor : ProviderDescriptor)
    (scope : option Scope) :
  within resolution_frame (call fuel constructor scope).
Proof. apply resolution_call_with. apply resolution_resolve. Qed.

(** An invoker has no outputs, so that registering it adds no resolver. *)
Lemma addNode_no_outputs_registry (constructor : ProviderDescriptor)
    (scope : option Scope) (c : container) :
  Outputs constructor = [] →
  resolvers (addNode constructor scope c).1 = resolvers c.
Proof.
  intros Hout. unfold addNode, bind, locationGraphNode. rewrite Hout.
  destruct (lift_graph_config (graph_locationNode (pd_Location constructor) scope) c)
    as [g1 Hg1].
  destruct (lift_graph _ c) as [c1 [n1| | |]]; simpl in Hg1; subst c1; try done.
  destruct (addNode_inputs_config n1 (Inputs constructor) false (with_config g1 c))
    as [g2 Hg2].
  destruct (addNode_inputs _ _ _ _) as [c2 [b| | |]]; simpl in Hg2; subst c2;
    try done.
  destruct (bool_decide (scope ≠ None) || negb b); simpl; [|done].
  match goal with
  | |- context [lift_graph ?f ?c0] =>
      destruct (lift_graph_config f c0) as [g3 Hg3];
      destruct (lift_graph f c0) as [c3 [n3| | |]]
  end; simpl in Hg3; subst c3; done.
Qed.

Lemma resolution_run (fuel : nat) (inv : invoker) :
  within resolution_frame (run fuel inv).
Proof.
  intros c. unfold run.
  destruct (ExtractProviderDescriptor inv) as [rctr|err];
    [|apply resolution_frame_refl].
  destruct (Outputs rctr) as [|out outs] eqn:Hout; simpl;
    [|apply resolution_frame_refl].
  pose proof (addNode_no_outputs_registry rctr None c Hout) as Hreg.
  destruct (registration_addNode rctr None c) as (Hst & _ & _ & Hsc).
  unfold bind.
  destruct (addNode rctr None c) as [c1 [[sn|sd]| | |]]; simpl in *;
    try (repeat split; [done..|by rewrite Hst]).
  assert (Hwithin : within resolution_frame
                      (simpleProvider_resolveValues (call fuel) sn))
    by (apply within_resolveValues;
        first [resolution_frame_laws|apply resolution_call]).
  destruct (Hwithin c1) as (Hr & Hs & Hp).
  destruct (simpleProvider_resolveValues (call fuel) sn c1) as [c2 [vs| | |]];
    simpl in *; (repeat split; [congruence..|by rewrite <- Hst]).
Qed.

End ResolutionFrame.

Section ResolutionFootprint.
Context {collab : Collaborators}.

(** X13.  Resolution registers nothing and forgets no frame: [run], [call]
    and [resolve] leave the registry and the scope table as they are, and
    the frames that were on the resolve stack stay at its bottom, whether
    they return a value, an error or a panic. *)
Theorem resolution_footprint (fuel : nat) (c : container) :
  (∀ inv, resolution_frame c (run fuel inv c).1)
  ∧ (∀ constructor scope, resolution_frame c (call fuel constructor scope c).1)
  ∧ (∀ in_ scope caller, resolution_frame c (resolve fuel in_ scope caller c).1).
Proof.
  split; [|split].
  - intros inv. apply resolution_run.
  - intros constructor scope. apply resolution_call.
  - intros in_ scope caller. apply resolution_resolve.
Qed.

End ResolutionFootprint.

(** ** The slice expressions of [call] and [resolve] *)

Section Bounds.
Context {collab : Collaborators}.

(** The panic in question is the one of the model's slice expression. *)
Lemma drop_last_empty_panics {A} : drop_last (@nil A) = Panic bounds_panic.
Proof. reflexivity. Qed.

Lemma bounds_ret {A} (a : A) : in_bounds (ret a).
Proof. by intros c. Qed.
Lemma bounds_fail {A} (e : error) : in_bounds (fail (A:=A) e).
Proof. by intros c. Qed.
Lemma bounds_starved {A} : in_bounds (starved (A:=A)).
Proof. by intros c. Qed.
Lemma bounds_gets {A} (f : container → A) : in_bounds (gets f).
Proof. by intros c. Qed.
Lemma bounds_nil_deref {A} : in_bounds (panic (A:=A) nil_deref).
Proof. by intros c. Qed.
Lemma bounds_index_range {A} : in_bounds (panic (A:=A) index_range).
Proof. by intros c. Qed.

Lemma bounds_modify (f : container → container) :
  (∀ c, callerStack (f c) = callerStack c) → in_bounds (modify f).
Proof. intros Hf c. simpl. by rewrite Hf. Qed.

Lemma bounds_bind {A B} (m : M A) (k : A → M B) :
  in_bounds m → (∀ a, in_bounds (k a)) → in_bounds (bind m k).
Proof.
  intros Hm Hk c. unfold bind. specialize (Hm c).
  destruct (m c) as [c1 [a| | |]]; try done.
  specialize (Hk a c1). destruct (k a c1) as [c2 [b| | |]]; try done. congruence.
Qed.

Lemma bounds_on_error {A} (m : M A) (handler : M unit) :
  in_bounds m → in_bounds handler → in_bounds (on_error m handler).
Proof.
  intros Hm Hh c. unfold on_error. specialize (Hm c).
  destruct (m c) as [c1 [a|e| |]]; try done.
  unfold bind. specialize (Hh c1). by destruct (handler c1) as [c2 [[]| | |]].
Qed.

Lemma bounds_lift_graph (f : graph → graph * (gnode + error)) :
  in_bounds (lift_graph f).
Proof. intros c. unfold lift_graph. by destruct (f (config c)) as [g [n|e]]. Qed.

Lemma bounds_config (f : container → graph) :
  in_bounds (modify (λ c, with_config (f c) c)).
Proof. by apply bounds_modify. Qed.

Lemma bounds_set_resolver (typ : rtype) (vr : resolver) :
  in_bounds (set_resolver typ vr).
Proof. by apply bounds_modify. Qed.

Lemma bounds_heap_modify (f : objects → objects) : in_bounds (heap_modify f).
Proof. by apply bounds_modify. Qed.

Lemma bounds_index_values (values : list Value) (i : nat) :
  in_bounds (index_values values i).
Proof.
  unfold index_values.
  destruct (values !! i); [apply bounds_ret|apply bounds_index_range].
Qed.

End Bounds.

Create HintDb bounds.
#[local] Hint Resolve bounds_ret bounds_fail bounds_starved bounds_gets
  bounds_nil_deref bounds_index_range bounds_lift_graph bounds_config
  bounds_set_resolver bounds_heap_modify bounds_index_values : bounds.

(** One step of a proof that a method is in bounds. *)
Ltac bounds_step :=
  match goal with
  | |- in_bounds (bind _ _) => apply bounds_bind; [|intros ?]
  | |- in_bounds (on_error _ _) => apply bounds_on_error
  | |- in_bounds (match ?x with _ => _ end) => destruct x
  | |- in_bounds (if ?x then _ else _) => destruct x
  | |- in_bounds _ => solve [eauto with bounds]
  end.

Section BoundsMethods.
Context {collab : Collaborators}.

Lemma bounds_groupResolver_addNode (r node i : nat) :
  in_bounds (groupResolver_addNode r node i).
Proof. unfold groupResolver_addNode. repeat bounds_step. Qed.

Lemma bounds_onePerScopeResolver_addNode (r node i : nat) :
  in_bounds (onePerScopeResolver_addNode r node i).
Proof. unfold onePerScopeResolver_addNode. repeat bounds_step. Qed.

Lemma bounds_resolver_addNode (vr : resolver) (node i : nat) :
  in_bounds (resolver_addNode vr node i).
Proof.
  unfold resolver_addNode.
  destruct vr; auto using bounds_groupResolver_addNode,
    bounds_onePerScopeResolver_addNode; repeat bounds_step.
Qed.

Lemma bounds_addNode_inputs (gn : gnode) (ins : list ProviderInput) (b : bool) :
  in_bounds (addNode_inputs gn ins b).
Proof.
  revert b. induction ins as [|in_ ins IH]; intros b; simpl; [apply bounds_ret|].
  unfold typeGraphNode, addGraphEdge. repeat first [ apply IH | bounds_step ].
Qed.

Lemma bounds_addNode_output (node : nat) (gn : gnode) (i : nat)
    (out : ProviderOutput) :
  in_bounds (addNode_output node gn i out).
Proof.
  unfold addNode_output, typeGraphNode, addGraphEdge, SetComment,
    new_groupResolver, new_onePerScopeResolver.
  repeat first
    [ apply bounds_resolver_addNode | apply bounds_groupResolver_addNode
    | apply bounds_onePerScopeResolver_addNode | bounds_step ].
Qed.

Lemma bounds_addNode_outputs (node : nat) (gn : gnode) (i : nat)
    (outs : list ProviderOutput) :
  in_bounds (addNode_outputs node gn i outs).
Proof.
  revert i. induction outs as [|out outs IH]; intros i; simpl; [apply bounds_ret|].
  apply bounds_bind; [apply bounds_addNode_output|intros _; apply IH].
Qed.

Lemma bounds_addNode_scoped_outputs (constructor : ProviderDescriptor)
    (node : nat) (gn : gnode) (i : nat) (outs : list ProviderOutput) :
  in_bounds (addNode_scoped_outputs constructor node gn i outs).
Proof.
  revert i. induction outs as [|out outs IH]; intros i; simpl; [apply bounds_ret|].
  apply bounds_bind; [|intros _; apply IH].
  unfold addNode_scoped_output, typeGraphNode, addGraphEdge, new_scopeDepResolver.
  repeat bounds_step.
Qed.

Lemma bounds_addNode (constructor : ProviderDescriptor) (scope : option Scope) :
  in_bounds (addNode constructor scope).
Proof.
  unfold addNode, locationGraphNode, new_simpleProvider, new_scopeDepProvider.
  repeat first
    [ apply bounds_addNode_inputs | apply bounds_addNode_outputs
    | apply bounds_addNode_scoped_outputs | bounds_step ].
Qed.

Section BoundsResolving.
Variable callf : ProviderDescriptor → option Scope → M (list Value).
Hypothesis callf_bounds : ∀ constructor scope, in_bounds (callf constructor scope).
Hypothesis callf_within :
  ∀ constructor scope, within resolution_frame (callf constructor scope).

Lemma bounds_resolveValues (p : nat) :
  in_bounds (simpleProvider_resolveValues callf p).
Proof. unfold simpleProvider_resolveValues. repeat bounds_step. Qed.

Lemma bounds_sliceGroup_collect (providers : list (nat * nat)) (res : list Value) :
  in_bounds (sliceGroup_collect callf providers res).
Proof.
  revert res. induction providers as [|[node i] providers IH]; intros res; simpl.
  - apply bounds_ret.
  - apply bounds_bind; [apply bounds_resolveValues|intros values].
    apply bounds_bind; [apply bounds_index_values|intros value].
    destruct value as [| | |t|]; try apply IH. destruct t; apply IH.
Qed.

Lemma bounds_mapOfOnePerScope_collect (providers : list (Scope * nat))
    (idxMap : gmap Scope nat) (res : list (string * Value)) :
  in_bounds (mapOfOnePerScope_collect callf providers idxMap res).
Proof.
  revert res. induction providers as [|[s node] providers IH]; intros res; simpl.
  - apply bounds_ret.
  - apply bounds_bind; [apply bounds_resolveValues|intros values].
    destruct (idxMap !! s); [|apply bounds_index_range].
    apply bounds_bind; [apply bounds_index_values|intros value]. apply IH.
Qed.

Lemma bounds_scopeDepResolver_resolve (r : nat) (scope : option Scope) :
  in_bounds (scopeDepResolver_resolve callf r scope).
Proof. unfold scopeDepResolver_resolve. repeat bounds_step. Qed.

Lemma bounds_resolver_resolve (vr : resolver) (scope : option Scope)
    (caller : Location) :
  in_bounds (resolver_resolve callf vr scope caller).
Proof.
  unfold resolver_resolve. destruct vr;
    repeat first
      [ apply bounds_resolveValues | apply bounds_sliceGroup_collect
      | apply bounds_mapOfOnePerScope_collect
      | apply bounds_scopeDepResolver_resolve | bounds_step ].
Qed.

(** The frame that [resolve] pushed is still on the stack when the
    resolver returns, so that the slice expression has a last frame to
    drop. *)
Lemma bounds_resolve_with (in_ : ProviderInput) (scope : option Scope)
    (caller : Location) :
  in_bounds (resolve_with callf in_ scope caller).
Proof.
  intros c. unfold resolve_with, bind, modify, typeGraphNode, lift_graph. simpl.
  destruct (graph_typeNode _ _) as [g [n|e]]; simpl; [|done].
  destruct (decide (in_Type in_ = scopeType)).
  { by destruct scope. }
  unfold gets. simpl.
  destruct (resolvers c !! in_Type in_) as [vr|].
  2: { by destruct (in_Optional in_). }
  unfold on_error.
  match goal with
  | |- context [resolver_resolve callf vr scope caller ?c1] =>
      assert (Hwithin : within resolution_frame
                          (resolver_resolve callf vr scope caller))
        by (apply within_resolver_resolve; first [resolution_frame_laws|done]);
      destruct (Hwithin c1) as (_ & _ & Hst);
      pose proof (bounds_resolver_resolve vr scope caller c1) as Hb;
      destruct (resolver_resolve callf vr scope caller c1) as [c2 [v|e|msg|]]
  end; simpl in *; try done.
  by rewrite (drop_last_nonempty _ (prefix_not_nil _ _ _ Hst)).
Qed.

End BoundsResolving.

Lemma bounds_call_inputs
    (resolvef : ProviderInput → option Scope → Location → M Value)
    (ins : list ProviderInput) (scope : option Scope) (loc : Location) :
  (∀ in_ sc caller, in_bounds (resolvef in_ sc caller)) →
  in_bounds (call_inputs resolvef ins scope loc).
Proof.
  intros Hres. induction ins as [|in_ ins IH]; simpl; [apply bounds_ret|].
  apply bounds_bind; [apply Hres|intros val].
  apply bounds_bind; [apply IH|intros vals]. apply bounds_ret.
Qed.

(** The location that [call] pushed is still on [callerStack] when the
    inputs are resolved. *)
Lemma bounds_call_with
    (resolvef : ProviderInput → option Scope → Location → M Value)
    (constructor : ProviderDescriptor) (scope : option Scope) :
  (∀ in_ sc caller, in_bounds (resolvef in_ sc caller)) →
  in_bounds (call_with resolvef constructor scope).
Proof.
  intros Hres c. unfold call_with, bind, locationGraphNode, lift_graph,
    markGraphNodeAsFailed, modify, gets.
  destruct (graph_locationNode _ _ _) as [g [n|e]]; simpl; [|done].
  destruct (default false (callerMap c !! pd_Location constructor)); simpl; [done|].
  match goal with
  | |- context [call_inputs resolvef ?ins ?s ?l ?c1] =>
      pose proof (bounds_call_inputs resolvef ins s l Hres c1) as Hb;
      destruct (call_inputs resolvef ins s l c1) as [c2 [inVals|e|msg|]]
  end; simpl in *; try done.
  rewrite length_app in Hb. simpl in Hb.
  rewrite drop_last_nonempty by (intros Hnil; rewrite Hnil in Hb; simpl in Hb; lia).
  simpl. destruct (Fn constructor inVals) as [out [err|]]; simpl; [done|].
  rewrite length_take. lia.
Qed.

Lemma bounds_resolve (fuel : nat) (in_ : ProviderInput) (scope : option Scope)
    (caller : Location) :
  in_bounds (resolve fuel in_ scope caller).
Proof.
  revert in_ scope caller. induction fuel as [|fuel IH]; intros in_ scope caller;
    rewrite resolve_unfold; apply bounds_resolve_with; intros constructor sc.
  - apply bounds_starved.
  - intros c. apply resolution_frame_refl.
  - by apply bounds_call_with.
  - apply resolution_call_with. apply resolution_resolve.
Qed.

Lemma bounds_call (fuel : nat) (constructor : ProviderDescriptor)
    (scope : option Scope) :
  in_bounds (call fuel constructor scope).
Proof. apply bounds_call_with. apply bounds_resolve. Qed.

Lemma bounds_run (fuel : nat) (inv : invoker) : in_bounds (run fuel inv).
Proof.
  unfold run.
  repeat first
    [ apply bounds_addNode
    | apply bounds_resolveValues; apply bounds_call
    | bounds_step ].
Qed.

(** X14.  The slice expressions [c.callerStack[0:len(c.callerStack)-1]] of
    [call] and [c.resolveStack[:len(c.resolveStack)-1]] of [resolve] are
    always in range: in no container and for no arguments do [run],
    [call] or [resolve] end in the slice-bounds panic.  What is more,
    [callerStack] is as long after a call that returns a value as it was
    before. *)
Theorem slice_expressions_in_bounds (fuel : nat) (c : container) :
  (∀ inv, (run fuel inv c).2 ≠ Panic bounds_panic)
  ∧ (∀ constructor scope,
       (call fuel constructor scope c).2 ≠ Panic bounds_panic
       ∧ ∀ c' out, call fuel constructor scope c = (c', Ret out) →
           length (callerStack c') = length (callerStack c))
  ∧ (∀ in_ scope caller,
       (resolve fuel in_ scope caller c).2 ≠ Panic bounds_panic
       ∧ ∀ c' v, resolve fuel in_ scope caller c = (c', Ret v) →
           length (callerStack c') = length (callerStack c)).
Proof.
  split; [|split].
  - intros inv. pose proof (bounds_run fuel inv c) as Hb.
    destruct (run fuel inv c) as [c' [[]|e|msg|]]; simpl; congruence.
  - intros constructor scope. pose proof (bounds_call fuel constructor scope c) as Hb.
    destruct (call fuel constructor scope c) as [c' [out|e|msg|]]; simpl;
      (split; [congruence|]); intros c2 out2 Heq; try discriminate.
    by injection Heq as <- _.
  - intros in_ scope caller.
    pose proof (bounds_resolve fuel in_ scope caller c) as Hb.
    destruct (resolve fuel in_ scope caller c) as [c' [v|e|msg|]]; simpl;
      (split; [congruence|]); intros c2 v2 Heq; try discriminate.
    by injection Heq as <- _.
Qed.

End BoundsMethods.

(** ** The methods together *)

Section Together.
Context {collab : Collaborators}.

Lemma supply_fresh (value : Value) (location : Location) (c : container) :
  graph_ok → resolvers c !! value_Type value = None →
  ∃ g, supply value location c =
         (with_config g
            (with_resolvers
               (<[value_Type value := SupplyResolver (value_Type value) value location]>
                  (resolvers c)) c),
          Ret tt).
Proof.
  intros Hok Hnone. unfold supply, bind.
  destruct (locationGraphNode_ok location None c Hok) as [g1 [n1 Hg1]].
  rewrite Hg1. unfold markGraphNodeAsUsed, modify. simpl.
  match goal with
  | |- context [typeGraphNode ?t ?c1] =>
      destruct (typeGraphNode_ok t c1 Hok) as [g2 [n2 Hg2]]
  end.
  rewrite Hg2. unfold addGraphEdge, modify, gets. simpl.
  rewrite Hnone. by eexists.
Qed.

(** X15.  A supplied value is what [resolve] answers with: after [supply]
    has registered a value, an input of the value's type resolves to that
    value, at any fuel, in any scope and for any caller, and the resolve
    stack and the callers are back to what they were. *)
Theorem supply_then_resolve (fuel : nat) (value : Value) (location : Location)
    (in_ : ProviderInput) (scope : option Scope) (caller : Location)
    (c : container) :
  graph_ok →
  resolvers c !! value_Type value = None →
  in_Type in_ = value_Type value →
  in_Type in_ ≠ scopeType →
  ∃ c2,
    resolve fuel in_ scope caller (supply value location c).1 = (c2, Ret value)
    ∧ resolveStack c2 = resolveStack c
    ∧ callerStack c2 = callerStack c
    ∧ callerMap c2 = callerMap c.
Proof.
  intros Hok Hnone Hty Hscope.
  destruct (supply_fresh value location c Hok Hnone) as [g Hsup].
  rewrite Hsup. simpl. rewrite resolve_provider_call.
  match goal with
  | |- context [resolve_with _ _ _ _ ?c1] =>
      destruct (proj2 Hok (in_Type in_) (config c1)) as [g2 [n2 Hg2]];
      rewrite (resolve_via_resolver_pops (provider_call fuel) in_ scope caller c1
                 (with_config g2 (push_frame caller (in_Type in_) c1)) g2 n2
                 (SupplyResolver (value_Type value) value location) value
                 (resolveStack c) {| rf_loc := caller; rf_typ := in_Type in_ |}
                 Hscope)
  end.
  - by eexists.
  - simpl. rewrite Hty. apply lookup_insert_eq.
  - exact Hg2.
  - reflexivity.
  - reflexivity.
Qed.


(** X17.  A failure of the diagnostic graph is returned as it is.  [call]
    and [addNode] return it before any caller is recorded or anything is
    registered; [resolve] returns it with its frame already on the resolve
    stack. *)
Theorem graph_error_is_returned (fuel : nat) (c : container) (g : graph)
    (err : error) :
  (∀ constructor scope,
     graph_locationNode (pd_Location constructor) scope (config c) = (g, inr err) →
     call fuel constructor scope c = (with_config g c, Fail err)
     ∧ addNode constructor scope c = (with_config g c, Fail err))
  ∧ (∀ value location,
       graph_locationNode location None (config c) = (g, inr err) →
       supply value location c = (with_config g c, Fail err))
  ∧ (∀ in_ scope caller,
       graph_typeNode (in_Type in_) (config c) = (g, inr err) →
       resolve fuel in_ scope caller c =
         (with_config g (push_frame caller (in_Type in_) c), Fail err)).
Proof.
  split; [|split].
  - intros constructor scope Hg. split.
    + unfold call, call_with, bind, locationGraphNode, lift_graph. by rewrite Hg.
    + unfold addNode, bind, locationGraphNode, lift_graph. by rewrite Hg.
  - intros value location Hg.
    unfold supply, bind, locationGraphNode, lift_graph. by rewrite Hg.
  - intros in_ scope caller Hg. rewrite resolve_provider_call.
    unfold resolve_with, bind, modify, typeGraphNode, lift_graph. simpl.
    by rewrite Hg.
Qed.

End Together.

(** ** The container at work with the concrete collaborators *)

#[local] Existing Instance sample.

Lemma sample_graph_ok : graph_ok.
Proof. split; intros; eexists _, _; reflexivity. Defined.

(** C1.  [call] returns the error of the unresolved input at once: the
    provider's location is still in [callerMap] and on [callerStack] when
    it returns, and a later invocation of the same provider is refused as
    a cyclic dependency.  When the input can be resolved, the same call
    removes the location before it returns. *)
Theorem call_input_error_keeps_caller :
  callerMap fresh !! locB = None
  ∧ result_of (call 0 provideB None fresh) =
      Fail ("can't resolve type A for provideB (app.go:20):" +:+ newline
              +:+ tab +:+ "while resolving:" +:+ newline
              +:+ tab +:+ tab +:+ "A for provideB (app.go:20)" +:+ newline)
  ∧ callerMap after_failed_call !! locB = Some true
  ∧ callerStack after_failed_call = [locB]
  ∧ result_of (call 0 provideB None after_failed_call) =
      Fail "cyclic dependency: provideB -> provideB"
  ∧ result_of (call 0 provideB None supplied_A) = Ret [VUser tB "b"]
  ∧ callerMap after_good_call !! locB = None
  ∧ callerStack after_good_call = [].
Proof. repeat split; vm_compute; reflexivity. Qed.

(** The same at the level of [run]: a run that fails for want of [A]
    leaves its callers behind, and once [A] has been supplied the next run
    is refused as a cyclic dependency, although the same registrations run
    through when [A] is there from the start. *)
Lemma run_after_failed_run :
  let registered := state_of (addNode provideB None fresh) in
  let failed := state_of (run (collab:=sample) 2 mainB registered) in
  (∃ msg, result_of (run (collab:=sample) 2 mainB registered) = Fail msg
          ∧ includes msg "can't resolve type A")
  ∧ callerStack failed = [locMain; locB]
  ∧ result_of (run (collab:=sample) 2 mainB
                 (state_of (supply (VUser tA "a") locA failed)))
    = Fail "cyclic dependency: main -> main"
  ∧ result_of (run (collab:=sample) 2 mainB
                 (state_of (supply (VUser tA "a") locA registered)))
    = Ret tt.
Proof.
  cbv zeta. split.
  - eexists. split; [vm_compute; reflexivity|].
    apply substringb_spec. vm_compute. reflexivity.
  - repeat split; vm_compute; reflexivity.
Qed.

(** C2.  [resolve] returns the zero value of a missing optional input, and
    the scope for a scope input, without popping the frame it pushed: the
    frame is still on [resolveStack] afterwards, and the next resolution
    starts on top of it.  A value that comes from a resolver does pop it. *)
Theorem resolve_success_keeps_frame :
  resolveStack fresh = []
  ∧ result_of (resolve 0 (wants tA) None locMain fresh) = Ret (VZero tA)
  ∧ resolveStack after_optional = [{| rf_loc := locMain; rf_typ := tA |}]
  ∧ result_of (resolve 0 (needs scopeType) (Some sc) locMain fresh) = Ret (VScope sc)
  ∧ resolveStack after_scope = [{| rf_loc := locMain; rf_typ := scopeType |}]
  ∧ resolveStack (state_of (resolve 0 (wants tB) None locMain after_optional))
    = [{| rf_loc := locMain; rf_typ := tA |}; {| rf_loc := locMain; rf_typ := tB |}]
  ∧ (let supplied := state_of (supply (VUser tA "a") locA fresh) in
     result_of (resolve 0 (needs tA) None locMain supplied) = Ret (VUser tA "a")
     ∧ resolveStack (state_of (resolve 0 (needs tA) None locMain supplied)) = []).
Proof. repeat split; vm_compute; reflexivity. Qed.

(** The same at the level of [run]: two runs that succeed, one with a
    missing optional input and one whose provider takes its scope, end
    with a frame on [resolveStack]; in the second the frame left is that
    of [main], the last frame having been popped in its place. *)
Lemma run_leaves_frame :
  result_of (run (collab:=sample) 1 mainOpt fresh) = Ret tt
  ∧ resolveStack (state_of (run (collab:=sample) 1 mainOpt fresh))
    = [{| rf_loc := locMain; rf_typ := tA |}]
  ∧ (let registered := state_of (addNode keeperOf (Some sc) fresh) in
     result_of (run (collab:=sample) 2 mainB registered) = Ret tt
     ∧ resolveStack (state_of (run (collab:=sample) 2 mainB registered))
       = [{| rf_loc := locMain; rf_typ := tB |}]).
Proof. repeat split; vm_compute; reflexivity. Qed.

(** C3, as stated, fails: the error for the cycle [provideA -> provideB ->
    provideA] does not mention [provideB]. *)
Lemma call_cycle_names_only_caller : ¬ cycle_named_in_error provideA None in_cycle.
Proof.
  unfold cycle_named_in_error. intros Hclaim.
  destruct Hclaim as [msg [Hres [_ Hnames]]]; [by vm_compute|].
  assert (Hmsg : msg = "cyclic dependency: provideA -> provideA").
  { vm_compute in Hres. by injection Hres as <-. }
  assert (HB : includes msg (loc_Name locB)).
  { apply Hnames. vm_compute. right. left. }
  apply substringb_spec in HB. rewrite Hmsg in HB. vm_compute in HB. discriminate.
Qed.

(** The same error comes out of a whole [run]: with [provideA] and
    [provideB] registered, running [main] ends in the cyclic-dependency
    error that names [provideA] alone, while the caller stack holds the
    three locations of the cycle. *)
Lemma run_cycle_error :
  let registered :=
    state_of (addNode provideB None (state_of (addNode provideA None fresh))) in
  result_of (run (collab:=sample) 3 mainA registered) = Fail "cyclic dependency: provideA -> provideA"
  ∧ callerStack (state_of (run (collab:=sample) 3 mainA registered)) = [locMain; locA; locB].
Proof. split; vm_compute; reflexivity. Qed.

(** C7, as stated, fails for an input of the scope type: no resolver is
    registered for the type, and yet [resolve] answers with the active
    scope, be the input optional or required. *)
Lemma resolve_scope_input_not_missing :
  ¬ missing_resolver_answer (wants scopeType) (Some sc) locMain fresh
  ∧ ¬ missing_resolver_answer (needs scopeType) (Some sc) locMain fresh.
Proof.
  unfold missing_resolver_answer. split; intros Hclaim.
  - specialize (Hclaim eq_refl). vm_compute in Hclaim. discriminate.
  - destruct (Hclaim eq_refl) as [msg [Hres _]]. vm_compute in Hres. discriminate.
Qed.

(** C5, as stated, fails in two ways.  With [A] supplied, the registration
    of [func() (A, map[string]Keeper)] ends at its first output, with the
    duplicate-provision error and not the return-type error.  And the
    registration of [func() (Keeper, map[string]Keeper)] inside a scope
    ends with the return-type error, but its first output has by then
    installed a resolver under the map type. *)
Lemma addNode_map_output_other_outcomes :
  ¬ rejected_as_return_type provideMixed None supplied_A
  ∧ ¬ rejected_as_return_type provideKeeperAndMap (Some sc) fresh
  ∧ result_of (addNode provideMixed None supplied_A)
    = Fail ("duplicate provision of type A by provideMixed (app.go:70)" +:+ newline
              +:+ tab +:+ "already provided by provideA (app.go:10)")
  ∧ result_of (addNode provideKeeperAndMap (Some sc) fresh)
    = Fail "map[string]Keeper cannot be used as a return type because Keeper is a one-per-scope type"
  ∧ resolvers fresh !! MapOf stringType tKeeper = None
  ∧ resolvers (state_of (addNode provideKeeperAndMap (Some sc) fresh))
      !! MapOf stringType tKeeper
    = Some (MapOfOnePerScopeResolver 0).
Proof.
  split; [|split].
  - intros Hclaim.
    destruct (Hclaim (gives (MapOf stringType tKeeper))) as [[msg [Hres Hincl]] _];
      [right; left|reflexivity|].
    apply substringb_spec in Hincl. vm_compute in Hres.
    injection Hres as <-. vm_compute in Hincl. discriminate.
  - intros Hclaim.
    destruct (Hclaim (gives (MapOf stringType tKeeper))) as [_ Hreg];
      [right; left|reflexivity|].
    vm_compute in Hreg. discriminate.
  - repeat split; vm_compute; reflexivity.
Qed.

(** C6, as stated, fails when the registration does not reach the output:
    with [A] supplied, the registration of [func() (A, []Handler)] ends at
    its first output, and the registry has no entry for [Handler] or
    [[]Handler], although [Handler] is an auto-group type without a
    resolver. *)
Lemma addNode_group_output_not_reached :
  ¬ group_installed provideAHandlers None supplied_A
  ∧ isAutoGroupType tHandler = true
  ∧ resolvers supplied_A !! tHandler = None
  ∧ (∃ msg, result_of (addNode provideAHandlers None supplied_A) = Fail msg)
  ∧ resolvers (state_of (addNode provideAHandlers None supplied_A)) !! tHandler = None
  ∧ resolvers (state_of (addNode provideAHandlers None supplied_A))
      !! SliceOf tHandler = None.
Proof.
  split.
  - intros Hclaim.
    destruct (Hclaim (gives (SliceOf tHandler))) as [r [Hreg _]];
      [right; left|reflexivity|reflexivity|].
    vm_compute in Hreg. discriminate.
  - split; [reflexivity|]. split; [reflexivity|].
    split; [eexists; vm_compute; reflexivity|].
    split; vm_compute; reflexivity.
Qed.

(** ** The theorems at concrete inputs *)

Lemma call_cyclic_dependency_witness :
  callerMap in_cycle !! pd_Location provideA = Some true
  ∧ result_of (call 0 provideA None in_cycle) = Fail (cyclicDependencyError locA).
Proof.
  split; [vm_compute; reflexivity|].
  unfold result_of.
  rewrite (call_cyclic_dependency 0 provideA None in_cycle)
    by (vm_compute; reflexivity).
  reflexivity.
Defined.

Lemma resolve_scope_input_witness :
  in_Type (needs scopeType) = scopeType
  ∧ graph_typeNode scopeType (config fresh)
    = (diagram_node "container.Scope" empty_diagram, inl "container.Scope")
  ∧ result_of (resolve 0 (needs scopeType) (Some sc) locMain fresh) = Ret (VScope sc)
  ∧ (∃ e, result_of (resolve 0 (needs scopeType) None locMain fresh) = Fail e).
Proof.
  split; [reflexivity|]. split; [reflexivity|]. split.
  - unfold result_of.
    rewrite (proj1 (resolve_scope_input 0 (needs scopeType) (Some sc) locMain fresh
                      _ _ eq_refl eq_refl)).
    reflexivity.
  - unfold result_of.
    rewrite (proj1 (resolve_scope_input 0 (needs scopeType) None locMain fresh
                      _ _ eq_refl eq_refl)).
    by eexists.
Defined.

Lemma resolve_no_resolver_witness :
  in_Type (needs tA) ≠ scopeType
  ∧ resolvers fresh !! in_Type (needs tA) = None
  ∧ graph_typeNode tA (config fresh) = (diagram_node "A" empty_diagram, inl "A")
  ∧ result_of (resolve 0 (wants tA) None locMain fresh) = Ret (VZero tA)
  ∧ result_of (resolve 0 (needs tA) None locMain fresh)
    = Fail ("can't resolve type A for main (app.go:30):" +:+ newline
              +:+ formatResolveStack (push_frame locMain tA fresh)).
Proof.
  split; [discriminate|]. split; [reflexivity|]. split; [reflexivity|]. split.
  - unfold result_of.
    rewrite (proj1 (resolve_no_resolver 0 (wants tA) None locMain fresh _ _
                      ltac:(discriminate) eq_refl eq_refl)).
    reflexivity.
  - unfold result_of.
    rewrite (proj1 (resolve_no_resolver 0 (needs tA) None locMain fresh _ _
                      ltac:(discriminate) eq_refl eq_refl)).
    reflexivity.
Defined.

Lemma run_scoped_invoker_witness :
  graph_ok
  ∧ @ExtractProviderDescriptor sample mainScoped = inl mainScoped
  ∧ Outputs mainScoped = []
  ∧ hasScopeInput (Inputs mainScoped) = true
  ∧ result_of (run (collab:=sample) 0 mainScoped fresh) = Fail "cannot run scoped provider as an invoker"
  ∧ resolveStack (state_of (run (collab:=sample) 0 mainScoped fresh)) = [].
Proof.
  split; [exact sample_graph_ok|]. split; [reflexivity|].
  split; [reflexivity|]. split; [reflexivity|].
  destruct (run_scoped_invoker (collab:=sample) 0 mainScoped mainScoped fresh sample_graph_ok
              eq_refl eq_refl eq_refl) as [g Hrun].
  unfold result_of, state_of. rewrite Hrun. by split.
Defined.


Lemma addNode_rejects_onePerScope_map_witness :
  registers_simple provideMixed None
  ∧ Outputs provideMixed = [gives tA] ++ gives (MapOf stringType tKeeper) :: []
  ∧ isOnePerScopeMap (MapOf stringType tKeeper) = true
  ∧ graph_ok
  ∧ plain_output (gives tA)
  ∧ resolvers fresh !! tA = None
  ∧ (∃ c' vr,
       addNode provideMixed None fresh
       = (c', Fail "map[string]Keeper cannot be used as a return type because Keeper is a one-per-scope type")
       ∧ resolvers c' !! tA = Some vr
       ∧ simple_resolver_of 0 tA vr
       ∧ resolvers c' !! MapOf stringType tKeeper = None)
  ∧ (∃ c',
       addNode provideKeepers None fresh
       = (c', Fail "map[string]Keeper cannot be used as a return type because Keeper is a one-per-scope type")
       ∧ resolvers c' !! MapOf stringType tKeeper = None).
Proof.
  split; [by right|]. split; [reflexivity|]. split; [reflexivity|].
  split; [exact sample_graph_ok|]. split; [by repeat split|].
  split; [reflexivity|].
  destruct (addNode_rejects_onePerScope_map (collab:=sample) provideMixed None fresh
              [gives tA] [] (gives (MapOf stringType tKeeper))
              (or_intror eq_refl) eq_refl eq_refl)
    as [_ [_ [_ Hwhole]]].
  destruct (addNode_rejects_onePerScope_map (collab:=sample) provideKeepers None fresh
              [] [] (gives (MapOf stringType tKeeper))
              (or_intror eq_refl) eq_refl eq_refl)
    as [_ [_ [_ Hfirst]]].
  split.
  - destruct (proj2 (Hwhole sample_graph_ok)) as [c' [Hadd [Hinst [_ Hmap]]]].
    + intros o Ho. apply list_elem_of_singleton in Ho. subst o. by repeat split.
    + apply (bool_decide_unpack _). vm_compute. exact I.
    + intros o _. apply lookup_empty.
    + destruct (Hinst (gives tA)) as [vr [Hvr Hsimple]]; [by left|].
      exists c', vr. split; [exact Hadd|]. split; [exact Hvr|].
      split; [exact Hsimple|]. etrans; [exact Hmap|reflexivity].
  - destruct (proj2 (Hfirst sample_graph_ok)) as [c' [Hadd [_ [_ Hmap]]]].
    + intros o Ho. by apply elem_of_nil in Ho.
    + apply NoDup_nil_2.
    + intros o Ho. by apply elem_of_nil in Ho.
    + exists c'. split; [exact Hadd|]. etrans; [exact Hmap|reflexivity].
Defined.

Lemma addNode_installs_group_witness :
  graph_ok
  ∧ registers_simple provideAHandlersB None
  ∧ Outputs provideAHandlersB = [gives tA] ++ gives (SliceOf tHandler) :: [gives tB]
  ∧ unwrapAutoGroupSlice (SliceOf tHandler) = tHandler
  ∧ plain_output (gives tA)
  ∧ isAutoGroupType tHandler = true
  ∧ resolvers fresh !! tHandler = None
  ∧ holds_group tHandler 0 (state_of (addNode provideAHandlersB None fresh))
  ∧ holds_group tHandler 0 (state_of (addNode provideAHandlers None fresh))
  ∧ ∃ c', addNode provideAHandlers None fresh = (c', Ret (SimpleProviderRef 0))
          ∧ groupResolvers (heap c') !! 0
            = Some {| gr_typ := tHandler; gr_sliceType := SliceOf tHandler;
                      gr_providers := [(0, 1)] |}.
Proof.
  split; [exact sample_graph_ok|]. split; [by right|]. split; [reflexivity|].
  assert (Hplain : ∀ o, o ∈ [gives tA] → plain_output o).
  { intros o Ho. apply list_elem_of_singleton in Ho. subst o. by repeat split. }
  assert (Hnd : NoDup (out_Type <$> [gives tA])).
  { apply (bool_decide_unpack _). vm_compute. exact I. }
  assert (Hfresh : ∀ o, o ∈ [gives tA] → resolvers fresh !! out_Type o = None).
  { intros o _. apply lookup_empty. }
  destruct (addNode_installs_group (collab:=sample) provideAHandlersB None fresh
              [gives tA] [gives tB] (gives (SliceOf tHandler))
              sample_graph_ok (or_intror eq_refl) eq_refl)
    as [Hunwrap [_ Hthree]].
  destruct (addNode_installs_group (collab:=sample) provideAHandlers None fresh
              [gives tA] [] (gives (SliceOf tHandler))
              sample_graph_ok (or_intror eq_refl) eq_refl)
    as [_ [_ Htwo]].
  split; [exact (Hunwrap tHandler eq_refl eq_refl)|].
  split; [by repeat split|]. split; [reflexivity|]. split; [reflexivity|].
  destruct (Hthree Hplain Hnd Hfresh eq_refl eq_refl) as [Hheld3 _];
    [discriminate..|].
  destruct (Htwo Hplain Hnd Hfresh eq_refl eq_refl) as [Hheld2 Hlast];
    [discriminate..|].
  split; [exact Hheld3|]. split; [exact Hheld2|].
  exact (Hlast eq_refl).
Defined.

(** ** The further properties at concrete inputs *)

Lemma supply_registers_once_witness :
  graph_ok
  ∧ result_of (supply (VUser tA "a") locA fresh) = Ret tt
  ∧ ∃ e, result_of (supply (VUser tA "other") locB supplied_A) = Fail e.
Proof.
  split; [exact sample_graph_ok|].
  pose proof (supply_registers_once (VUser tA "a") locA fresh sample_graph_ok) as H.
  cbv zeta in H. simpl in H. destruct H as [g [Hrun Hsecond]].
  split; [unfold result_of; by rewrite Hrun|].
  destruct (Hsecond (VUser tA "other") locB eq_refl) as [g' [e He]].
  exists e. unfold result_of, supplied_A, state_of. by rewrite He.
Defined.

Lemma addNode_node_kind_witness :
  (∃ c', addNode provideA None fresh = (c', Ret (SimpleProviderRef 0)))
  ∧ (∃ c', addNode provideScoped None fresh = (c', Ret (ScopeDepProviderRef 0)))
  ∧ (∃ c', addNode provideScoped (Some sc) fresh = (c', Ret (SimpleProviderRef 0))).
Proof.
  assert (Hrun : ∀ constructor scope,
            (∃ c' node, addNode constructor scope fresh = (c', Ret node)) →
            ∃ c', addNode constructor scope fresh =
                    (c', Ret (if bool_decide (scope ≠ None)
                                 || negb (hasScopeInput (Inputs constructor))
                              then SimpleProviderRef 0 else ScopeDepProviderRef 0))).
  { intros constructor scope [c' [node Hadd]]. exists c'.
    by rewrite Hadd, (addNode_node_kind constructor scope fresh c' node Hadd). }
  split; [|split].
  - apply (Hrun provideA None). eexists _, _. vm_compute. reflexivity.
  - apply (Hrun provideScoped None). eexists _, _. vm_compute. reflexivity.
  - apply (Hrun provideScoped (Some sc)). eexists _, _. vm_compute. reflexivity.
Defined.

Lemma addNode_plain_outputs_witness :
  graph_ok
  ∧ registers_simple provideA None
  ∧ plain_output (gives tA)
  ∧ resolvers fresh !! tA = None
  ∧ ∃ c' vr,
      addNode provideA None fresh = (c', Ret (SimpleProviderRef 0))
      ∧ resolvers c' !! tA = Some vr
      ∧ simple_resolver_of 0 tA vr
      ∧ resolvers c' !! tB = None.
Proof.
  split; [exact sample_graph_ok|]. split; [by right|].
  split; [by repeat split|]. split; [reflexivity|].
  destruct (addNode_plain_outputs provideA None fresh sample_graph_ok
              (or_intror eq_refl)) as [c' [Hadd [_ [Hinst Hother]]]].
  - intros out Hout. apply list_elem_of_singleton in Hout. subst out.
    by repeat split.
  - apply (bool_decide_unpack _). vm_compute. exact I.
  - intros out _. apply lookup_empty.
  - destruct (Hinst (gives tA)) as [vr [Hvr Hsimple]]; [by constructor|].
    exists c', vr. split; [exact Hadd|]. split; [exact Hvr|].
    split; [exact Hsimple|]. rewrite Hother; [reflexivity|].
    intros Hin. apply list_elem_of_singleton in Hin. discriminate.
Defined.

Lemma addNode_failure_keeps_earlier_outputs_witness :
  graph_ok
  ∧ registers_simple provideMixed None
  ∧ Outputs provideMixed = [gives tA] ++ gives (MapOf stringType tKeeper) :: []
  ∧ isOnePerScopeMap (MapOf stringType tKeeper) = true
  ∧ resolvers fresh !! tA = None
  ∧ ∃ c' vr,
      addNode provideMixed None fresh
        = (c', Fail "map[string]Keeper cannot be used as a return type because Keeper is a one-per-scope type")
      ∧ resolvers c' !! tA = Some vr
      ∧ simple_resolver_of 0 tA vr.
Proof.
  split; [exact sample_graph_ok|]. split; [by right|]. split; [reflexivity|].
  split; [reflexivity|]. split; [reflexivity|].
  destruct (addNode_failure_keeps_earlier_outputs provideMixed None fresh
              [gives tA] [] (gives (MapOf stringType tKeeper)) sample_graph_ok
              (or_intror eq_refl) eq_refl) as [c' [Hadd Hkept]].
  - intros out Hout. apply list_elem_of_singleton in Hout. subst out.
    by repeat split.
  - apply (bool_decide_unpack _). vm_compute. exact I.
  - intros out _. apply lookup_empty.
  - reflexivity.
  - destruct (Hkept (gives tA)) as [vr [Hvr Hsimple]]; [by constructor|].
    by exists c', vr.
Defined.

Lemma addNode_group_replaces_slice_entry_witness :
  graph_ok
  ∧ registers_simple provideHandlers None
  ∧ isAutoGroupType tHandler = true
  ∧ resolvers supplied_handlers !! tHandler = None
  ∧ resolvers supplied_handlers !! SliceOf tHandler
    = Some (SupplyResolver (SliceOf tHandler) (VSlice (SliceOf tHandler) []) locA)
  ∧ ∃ c',
      addNode provideHandlers None supplied_handlers = (c', Ret (SimpleProviderRef 0))
      ∧ resolvers c' !! SliceOf tHandler = Some (SliceGroupResolver 0).
Proof.
  split; [exact sample_graph_ok|]. split; [by right|]. split; [reflexivity|].
  split; [vm_compute; reflexivity|]. split; [vm_compute; reflexivity|].
  apply (addNode_group_replaces_slice_entry provideHandlers None
           (gives (SliceOf tHandler)) supplied_handlers
           (SupplyResolver (SliceOf tHandler) (VSlice (SliceOf tHandler) []) locA)
           sample_graph_ok (or_intror eq_refl) eq_refl eq_refl eq_refl);
    vm_compute; reflexivity.
Defined.

Lemma addNode_installs_onePerScope_witness :
  graph_ok
  ∧ isOnePerScopeType tKeeper = true
  ∧ resolvers fresh !! tKeeper = None
  ∧ ∃ c',
      addNode provideKeeper (Some sc) fresh = (c', Ret (SimpleProviderRef 0))
      ∧ resolvers c' !! tKeeper = Some (OnePerScopeResolver 0)
      ∧ resolvers c' !! MapOf stringType tKeeper = Some (MapOfOnePerScopeResolver 0)
      ∧ onePerScopeResolvers (heap c') !! 0 =
          Some {| ops_typ := tKeeper; ops_mapType := MapOf stringType tKeeper;
                  ops_providers := {[sc := 0]}; ops_idxMap := {[sc := 0]} |}.
Proof.
  split; [exact sample_graph_ok|]. split; [reflexivity|]. split; [reflexivity|].
  destruct (addNode_installs_onePerScope provideKeeper sc (gives tKeeper) fresh
              sample_graph_ok eq_refl eq_refl eq_refl eq_refl eq_refl)
    as [c' [Hadd [Hreg Hobj]]].
  exists c'. split; [exact Hadd|]. rewrite Hreg.
  split; [vm_compute; reflexivity|]. split; [vm_compute; reflexivity|]. exact Hobj.
Defined.

Lemma run_rejects_untouched_witness :
  Outputs provideA ≠ []
  ∧ run (collab:=sample) 0 provideA fresh
    = (fresh, Fail "invoker function cannot have return values other than error: provideA (app.go:10)")
  ∧ run (collab:=brittle) 0 provideBroken fresh_brittle
    = (fresh_brittle, Fail "expected a Func type").
Proof.
  split; [discriminate|]. split.
  - apply (run_rejects_untouched (collab:=sample) 0 provideA fresh). discriminate.
  - exact (run_rejects_untouched (collab:=brittle) 0 provideBroken fresh_brittle).
Defined.

Lemma resolve_delegates_witness :
  in_Type (needs tA) ≠ scopeType
  ∧ resolvers supplied_A !! tA = Some (SupplyResolver tA (VUser tA "a") locA)
  ∧ resolvers provided_handlers !! tHandler = Some (GroupResolver 0)
  ∧ (∃ c', resolve 0 (needs tA) None locMain supplied_A = (c', Ret (VUser tA "a"))
           ∧ resolveStack c' = [])
  ∧ (∃ c', resolve 0 (needs tHandler) None locMain provided_handlers
             = (c', Fail "Handler is an auto-group type and cannot be used as an input value, instead use []Handler")
           ∧ resolveStack c' = [{| rf_loc := locMain; rf_typ := tHandler |}]).
Proof.
  split; [discriminate|]. split; [vm_compute; reflexivity|].
  split; [vm_compute; reflexivity|]. split.
  - destruct (proj2 sample_graph_ok tA (config supplied_A)) as [g [n Hg]].
    pose proof (resolve_delegates 0 (needs tA) None locMain supplied_A g n
                  (SupplyResolver tA (VUser tA "a") locA)
                  ltac:(discriminate) ltac:(vm_compute; reflexivity) Hg) as H.
    simpl in H.
    specialize (H [] {| rf_loc := locMain; rf_typ := tA |} eq_refl).
    eexists. split; [exact H|reflexivity].
  - destruct (proj2 sample_graph_ok tHandler (config provided_handlers))
      as [g [n Hg]].
    pose proof (resolve_delegates 0 (needs tHandler) None locMain provided_handlers
                  g n (GroupResolver 0)
                  ltac:(discriminate) ltac:(vm_compute; reflexivity) Hg) as H.
    vm_compute in H. eexists.
    split; [vm_compute; exact H|vm_compute; reflexivity].
Defined.

Lemma formatResolveStack_frames_witness :
  frameB ∈ resolveStack resolving_AB
  ∧ resolveStack resolving_AB = [] ++ frameA :: [] ++ frameB :: []
  ∧ includes (formatResolveStack resolving_AB) (frame_line frameB)
  ∧ ∃ a b d,
      formatResolveStack resolving_AB =
        resolving_heading +:+ a +:+ frame_line frameB +:+ b
          +:+ frame_line frameA +:+ d.
Proof.
  assert (Hin : frameB ∈ resolveStack resolving_AB) by (right; left).
  split; [exact Hin|]. split; [reflexivity|].
  destruct (formatResolveStack_frames resolving_AB) as [Hincl [Horder _]].
  split; [exact (Hincl frameB Hin)|].
  exact (Horder [] [] [] frameA frameB eq_refl).
Defined.

Lemma call_after_inputs_witness :
  callerMap_true supplied_A
  ∧ callerMap supplied_A !! pd_Location provideB = None
  ∧ callerMap_true fresh
  ∧ callerMap fresh !! pd_Location provideFailing = None
  ∧ result_of (call 0 provideB None supplied_A) = Ret [VUser tB "b"]
  ∧ result_of (call 0 provideFailing None fresh)
    = Fail "error calling constructor provideFailing (app.go:90): boom".
Proof.
  assert (Htrue : ∀ c : container, callerMap c = ∅ → callerMap_true c).
  { intros c Hc l b. by rewrite Hc, lookup_empty. }
  split; [by apply Htrue|]. split; [reflexivity|].
  split; [by apply Htrue|]. split; [reflexivity|]. split.
  - assert (Hin : ∃ c2 inVals,
              call_inputs (resolve 0) (Inputs provideB) None (pd_Location provideB)
                (entered (pd_Location provideB)
                   (diagram_node "provideB" (config supplied_A)) "provideB"
                   supplied_A)
              = (c2, Ret inVals)).
    { eexists _, _. vm_compute. reflexivity. }
    destruct Hin as [c2 [inVals Hin]].
    unfold result_of.
    by rewrite (call_after_inputs 0 provideB None supplied_A c2 _ _ inVals
                  (Htrue supplied_A eq_refl) eq_refl eq_refl Hin).
  - unfold result_of.
    by rewrite (call_after_inputs 0 provideFailing None fresh _ _ _ []
                  (Htrue fresh eq_refl) eq_refl eq_refl eq_refl).
Defined.

Lemma scopes_written_by_createOrGetScope_only_witness :
  scopes fresh !! "bank" = None
  ∧ is_Some (scopes (perform (DoCreateOrGetScope "bank") fresh) !! "bank")
  ∧ scopes (perform (DoCreateOrGetScope "bank") fresh) !! "mint" = None
  ∧ scopes (perform (DoRun 1 mainA) fresh) = ∅.
Proof.
  split; [reflexivity|].
  destruct (scopes_written_by_createOrGetScope_only
              (DoCreateOrGetScope "bank") fresh) as [Hnew [_ Hother]].
  split; [exact Hnew|]. split.
  - by rewrite (Hother "mint").
  - exact (scopes_written_by_createOrGetScope_only (DoRun 1 mainA) fresh).
Defined.

Lemma slice_expressions_in_bounds_witness :
  result_of (call 0 provideB None supplied_A) ≠ Panic bounds_panic
  ∧ ∃ c' out,
      call 0 provideB None supplied_A = (c', Ret out)
      ∧ length (callerStack c') = 0.
Proof.
  destruct (slice_expressions_in_bounds 0 supplied_A) as [_ [Hcall _]].
  destruct (Hcall provideB None) as [Hpanic Hlen].
  split; [exact Hpanic|].
  assert (Hrun : ∃ c' out, call 0 provideB None supplied_A = (c', Ret out)).
  { eexists _, _. vm_compute. reflexivity. }
  destruct Hrun as [c' [out Hrun]]. exists c', out.
  split; [exact Hrun|]. by rewrite (Hlen c' out Hrun).
Defined.

Lemma supply_then_resolve_witness :
  graph_ok
  ∧ resolvers fresh !! value_Type (VUser tA "a") = None
  ∧ in_Type (needs tA) ≠ scopeType
  ∧ ∃ c2,
      resolve 0 (needs tA) None locMain supplied_A = (c2, Ret (VUser tA "a"))
      ∧ resolveStack c2 = [].
Proof.
  split; [exact sample_graph_ok|]. split; [reflexivity|]. split; [discriminate|].
  destruct (supply_then_resolve 0 (VUser tA "a") locA (needs tA) None locMain fresh
              sample_graph_ok eq_refl eq_refl ltac:(discriminate))
    as [c2 [Hres [Hst _]]].
  by exists c2.
Defined.


Lemma graph_error_is_returned_witness :
  graph_locationNode (Collaborators:=brittle) locBroken None (config fresh_brittle)
    = (empty_diagram, inr "graph: cannot create the node of broken")
  ∧ graph_typeNode (Collaborators:=brittle) tBroken (config fresh_brittle)
    = (empty_diagram, inr "graph: cannot create the node of Broken")
  ∧ addNode (collab:=brittle) provideBroken None fresh_brittle
    = (fresh_brittle, Fail "graph: cannot create the node of broken")
  ∧ result_of (resolve (collab:=brittle) 0 (needs tBroken) None locMain fresh_brittle)
    = Fail "graph: cannot create the node of Broken"
  ∧ resolveStack
      (state_of (resolve (collab:=brittle) 0 (needs tBroken) None locMain fresh_brittle))
    = [{| rf_loc := locMain; rf_typ := tBroken |}].
Proof.
  split; [reflexivity|]. split; [reflexivity|].
  destruct (graph_error_is_returned (collab:=brittle) 0 fresh_brittle empty_diagram
              "graph: cannot create the node of broken") as [Hloc _].
  destruct (graph_error_is_returned (collab:=brittle) 0 fresh_brittle empty_diagram
              "graph: cannot create the node of Broken") as [_ [_ Hty]].
  split; [exact (proj2 (Hloc provideBroken None eq_refl))|].
  unfold result_of, state_of.
  rewrite (Hty (needs tBroken) None locMain eq_refl). by split.
Defined.

Lemma call_success_removes_caller_witness :
  callerMap_true supplied_A
  ∧ ∃ c' out,
      call 0 provideB None supplied_A = (c', Ret out)
      ∧ callerStack c' = []
      ∧ callerMap c' !! locB = None.
Proof.
  assert (Htrue : callerMap_true supplied_A).
  { assert (Hempty : callerMap supplied_A = ∅) by reflexivity.
    intros l b. by rewrite Hempty, lookup_empty. }
  split; [exact Htrue|].
  assert (Hrun : ∃ c' out, call 0 provideB None supplied_A = (c', Ret out)).
  { eexists _, _. vm_compute. reflexivity. }
  destruct Hrun as [c' [out Hrun]]. exists c', out. split; [exact Hrun|].
  destruct (call_success_removes_caller 0 provideB None supplied_A c' out Htrue Hrun)
    as [Hst [_ Hloc]].
  by split.
Defined.
